(** * A request-serving core: TTL/LRU cache, rate limiter, fetch queue

    Shallow embedding of [src/lruCache.ts] and of the rate limiter, the
    database queue and the [GET /users/:id] handler of [src/index.ts].

    Conventions.
    - [Date.now()] is an input: every operation that reads the clock takes
      the reading as an argument [now : Z] (milliseconds).
    - A JavaScript [Map] keeps its entries in insertion order; it is an
      association list here, oldest entry first.
    - A size is an integer. The capacity of a cache is a JavaScript number:
      a rational, [NaN] or an infinity; it is only ever compared with a
      size, so no rounding is involved.
    - A key of a cache may be the value [undefined] where the key type
      allows it; the numeric keys of the server never are.
    - The program runs on one thread: a handler runs without interruption
      up to its next [await]. The server is a state machine whose steps are
      these blocks, and a promise is a number.
    - The module [mockUsers] is not among the sources; its table is a
      parameter of the queue and of the handler, and a finite map where
      [POST /users] writes to it. *)

From Stdlib Require Import ZArith QArith Qround Lia List Sorted.
From stdpp Require Import base decidable option list sorting gmap strings.
Import ListNotations.

Local Open Scope Z_scope.

(** The clock does not run backwards over the readings [ts]. *)
Fixpoint monotone (ts : list Z) : Prop :=
  match ts with
  | [] => True
  | t :: ts' => Forall (fun t' => t <= t') ts' /\ monotone ts'
  end.

(** ** JavaScript values, as far as the cache depends on them *)

(** A number that is compared with the size of a map. A finite double is a
    rational and a size is an integer, so the comparison is exact. *)
Inductive number :=
  | Num (q : Q)
  | NaN
  | Infinity
  | NegInfinity.

Definition of_int (n : Z) : number := Num (inject_Z n).
Coercion of_int : Z >-> number.

(** [size >= n], for the size of a map: false when [n] is [NaN]. *)
Definition size_ge (size : Z) (n : number) : bool :=
  match n with
  | Num q => Qle_bool q (inject_Z size)
  | NaN => false
  | Infinity => false
  | NegInfinity => true
  end.

(** [0 < n] *)
Definition positive (n : number) : Prop :=
  match n with
  | Num q => (0 < q)%Q
  | Infinity => True
  | NaN | NegInfinity => False
  end.

(** [size <= n] *)
Definition at_most (size : Z) (n : number) : Prop :=
  match n with
  | Num q => (inject_Z size <= q)%Q
  | Infinity => True
  | NaN | NegInfinity => False
  end.

(** The keys of a map are values of any type; [is_undefined k] tells whether
    [k] is the value [undefined]. *)
Class JsKey (K : Type) := is_undefined : K -> bool.

(** A number and a string are never [undefined]. *)
#[global] Instance number_key : JsKey Z := fun _ => false.
#[global] Instance string_key : JsKey string := fun _ => false.

(** The keys of type [A | undefined]: [None] is [undefined]. *)
#[global] Instance optional_key {A : Type} : JsKey (option A) :=
  fun k => match k with None => true | Some _ => false end.

(** ** JavaScript [Map], as far as the program uses it *)

Module JsMap.
Section JsMap.
Context {K V : Type} `{EqDecision K}.

(** [Map.prototype.get] *)
Fixpoint get (k : K) (m : list (K * V)) : option V :=
  match m with
  | [] => None
  | (k', v) :: m' => if decide (k' = k) then Some v else get k m'
  end.

(** [Map.prototype.has] *)
Definition has (k : K) (m : list (K * V)) : bool :=
  match get k m with Some _ => true | None => false end.

(** [Map.prototype.delete]: the entry of [k] leaves the list, the other
    entries keep their places. *)
Fixpoint delete (k : K) (m : list (K * V)) : list (K * V) :=
  match m with
  | [] => []
  | (k', v) :: m' =>
      if decide (k' = k) then delete k m' else (k', v) :: delete k m'
  end.

(** [Map.prototype.set]: a present key keeps its place and takes the new
    value, an absent key is appended. *)
Fixpoint set (k : K) (v : V) (m : list (K * V)) : list (K * V) :=
  match m with
  | [] => [(k, v)]
  | (k', v') :: m' =>
      if decide (k' = k) then (k, v) :: m' else (k', v') :: set k v m'
  end.

(** [Map.prototype.size] *)
Definition size (m : list (K * V)) : Z := Z.of_nat (length m).

(** [map.keys().next().value]: the first key; [None] when the map is
    empty, where the iterator yields [undefined]. *)
Definition first_key (m : list (K * V)) : option K :=
  match m with
  | [] => None
  | (k, _) :: _ => Some k
  end.

Definition keys (m : list (K * V)) : list K := fst <$> m.
End JsMap.
End JsMap.

(** ** [src/lruCache.ts] *)

Record CacheStats := { hits : nat; misses : nat; size : Z }.

Record CacheEntry (V : Type) := { value : V; expiresAt : Z }.
Arguments value {V} _.
Arguments expiresAt {V} _.
Arguments Build_CacheEntry {V} _ _.

Record LRUCache (K V : Type) := {
  maxSize : number;
  ttlMs : Z;
  map : list (K * CacheEntry V);
  _hits : nat;
  _misses : nat
}.
Arguments maxSize {K V} _.
Arguments ttlMs {K V} _.
Arguments map {K V} _.
Arguments _hits {K V} _.
Arguments _misses {K V} _.
Arguments Build_LRUCache {K V} _ _ _ _ _.

(** What a call yields: a value, or an exception. *)
Inductive completion (A : Type) :=
  | Returned (a : A)
  | Thrown (err : string).
Arguments Returned {A} _.
Arguments Thrown {A} _.

Module Cache.
Section Cache.
Context {K V : Type} `{EqDecision K} {key_class : JsKey K}.

(** The object after the field initialisers and the three assignments of
    the constructor body. *)
Definition create (options_maxSize : number) (options_ttlMs : Z)
  : LRUCache K V :=
  {| maxSize := options_maxSize; ttlMs := options_ttlMs;
     map := []; _hits := 0; _misses := 0 |}.

(** [constructor(options)]: the body has no check on the options and no
    [throw]; it completes with the object for every argument. *)
Definition constructor (options_maxSize : number) (options_ttlMs : Z)
  : completion (LRUCache K V) :=
  Returned (create options_maxSize options_ttlMs).

Definition with_map (c : LRUCache K V) (m : list (K * CacheEntry V))
  : LRUCache K V :=
  {| maxSize := maxSize c; ttlMs := ttlMs c; map := m;
     _hits := _hits c; _misses := _misses c |}.

Definition miss (c : LRUCache K V) : LRUCache K V :=
  {| maxSize := maxSize c; ttlMs := ttlMs c; map := map c;
     _hits := _hits c; _misses := S (_misses c) |}.

Definition hit (c : LRUCache K V) : LRUCache K V :=
  {| maxSize := maxSize c; ttlMs := ttlMs c; map := map c;
     _hits := S (_hits c); _misses := _misses c |}.

(** [get(key)] *)
Definition get (c : LRUCache K V) (key : K) (now : Z)
  : option V * LRUCache K V :=
  match JsMap.get key (map c) with
  | None => (None, miss c)
  | Some entry =>
      if expiresAt entry <=? now then
        (None, miss (with_map c (JsMap.delete key (map c))))
      else
        (Some (value entry),
         hit (with_map c (JsMap.set key entry (JsMap.delete key (map c)))))
  end.

(** [set(key, value)]. The test [oldestKey !== undefined] fails when the
    map is empty and also when its first key is the value [undefined]: in
    both cases nothing is deleted. *)
Definition set (c : LRUCache K V) (key : K) (val : V) (now : Z)
  : LRUCache K V :=
  let expires := now + ttlMs c in
  let m :=
    if JsMap.has key (map c) then JsMap.delete key (map c)
    else if size_ge (JsMap.size (map c)) (maxSize c) then
      match JsMap.first_key (map c) with
      | Some oldestKey =>
          if is_undefined oldestKey then map c
          else JsMap.delete oldestKey (map c)
      | None => map c
      end
    else map c in
  with_map c (JsMap.set key {| value := val; expiresAt := expires |} m).

(** [has(key)] *)
Definition has (c : LRUCache K V) (key : K) (now : Z)
  : bool * LRUCache K V :=
  match JsMap.get key (map c) with
  | None => (false, c)
  | Some entry =>
      if expiresAt entry <=? now then
        (false, with_map c (JsMap.delete key (map c)))
      else (true, c)
  end.

(** [clear()] *)
Definition clear (c : LRUCache K V) : LRUCache K V :=
  {| maxSize := maxSize c; ttlMs := ttlMs c; map := [];
     _hits := 0; _misses := 0 |}.

(** [purgeStale()]: the loop visits the entries in order and deletes the
    visited entry from the map when it is stale; deleting the entry under
    the iterator leaves the entries still to visit in place. *)
Definition purgeStale (c : LRUCache K V) (now : Z) : LRUCache K V :=
  with_map c
    (fold_left
       (fun m (ke : K * CacheEntry V) =>
          if expiresAt (snd ke) <=? now then JsMap.delete (fst ke) m else m)
       (map c) (map c)).

(** [get stats()] *)
Definition stats (c : LRUCache K V) : CacheStats :=
  {| hits := _hits c; misses := _misses c; size := JsMap.size (map c) |}.
End Cache.
End Cache.

(** ** Sequences of cache operations *)

Inductive op (K V : Type) :=
  | OpGet (key : K) (now : Z)
  | OpSet (key : K) (val : V) (now : Z)
  | OpHas (key : K) (now : Z)
  | OpClear
  | OpPurgeStale (now : Z).
Arguments OpGet {K V} _ _.
Arguments OpSet {K V} _ _ _.
Arguments OpHas {K V} _ _.
Arguments OpClear {K V}.
Arguments OpPurgeStale {K V} _.

(** Recency bookkeeping, for the statements only: [tick] counts the
    operations performed, [stamp k] is the number of the last operation that
    touched [k] (0: never touched) and [seen k] the clock reading of that
    operation. *)
Record recency (K : Type) := { tick : nat; stamp : K -> nat; seen : K -> Z }.
Arguments tick {K} _.
Arguments stamp {K} _ _.
Arguments seen {K} _ _.

Module Trace.
Section Trace.
Context {K V : Type} `{EqDecision K} {key_class : JsKey K}.

Definition exec (c : LRUCache K V) (o : op K V) : LRUCache K V :=
  match o with
  | OpGet key now => snd (Cache.get c key now)
  | OpSet key val now => Cache.set c key val now
  | OpHas key now => snd (Cache.has c key now)
  | OpClear => Cache.clear c
  | OpPurgeStale now => Cache.purgeStale c now
  end.

Definition run (c : LRUCache K V) (ops : list (op K V)) : LRUCache K V :=
  fold_left exec ops c.

(** The key an operation touches, with the clock reading of the
    operation: [set] touches its key, [get] touches its key when it finds a
    live entry; nothing else touches. *)
Definition touched (c : LRUCache K V) (o : op K V) : option (K * Z) :=
  match o with
  | OpSet key _ now => Some (key, now)
  | OpGet key now =>
      match JsMap.get key (map c) with
      | Some entry => if expiresAt entry <=? now then None else Some (key, now)
      | None => None
      end
  | _ => None
  end.

Definition note (g : recency K) (t : option (K * Z)) : recency K :=
  {| tick := S (tick g);
     stamp := fun k =>
       match t with
       | Some (k', _) => if decide (k = k') then S (tick g) else stamp g k
       | None => stamp g k
       end;
     seen := fun k =>
       match t with
       | Some (k', now) => if decide (k = k') then now else seen g k
       | None => seen g k
       end |}.

Definition fresh : recency K :=
  {| tick := 0; stamp := fun _ => 0%nat; seen := fun _ => 0 |}.

(** The clock reading an operation takes, if it takes one. *)
Definition clock (o : op K V) : option Z :=
  match o with
  | OpGet _ now | OpSet _ _ now | OpHas _ now | OpPurgeStale now => Some now
  | OpClear => None
  end.

Definition readings (ops : list (op K V)) : list Z :=
  flat_map (fun o => match clock o with Some now => [now] | None => [] end) ops.

Fixpoint run_traced (c : LRUCache K V) (g : recency K) (ops : list (op K V))
  : LRUCache K V * recency K :=
  match ops with
  | [] => (c, g)
  | o :: ops' => run_traced (exec c o) (note g (touched c o)) ops'
  end.
End Trace.
End Trace.

(** ** [src/index.ts]: the rate limiter *)

Definition MAX_PER_MINUTE : nat := 10.
Definition BURST_PER_10_SECONDS : nat := 5.

Record RateLimitState := { last60s : list Z; last10s : list Z }.

(** What the middleware does with the request: [next()], or the 429 reply. *)
Inductive verdict := Next | TooManyRequests.

Module Limiter.

(** [rateLimiter(req, res, next)] for the identity [ip] at clock reading
    [now]. The state object is shared with the map, so the pruned arrays
    stay in the map also when the request is refused. *)
Definition rateLimiter (rateLimitMap : gmap string RateLimitState)
    (ip : string) (now : Z) : verdict * gmap string RateLimitState :=
  let state :=
    match rateLimitMap !! ip with
    | Some state => state
    | None => {| last60s := []; last10s := [] |}
    end in
  let pruned60 := List.filter (fun t => now - t <=? 60000) (last60s state) in
  let pruned10 := List.filter (fun t => now - t <=? 10000) (last10s state) in
  if (MAX_PER_MINUTE <=? length pruned60)%nat
     || (BURST_PER_10_SECONDS <=? length pruned10)%nat
  then (TooManyRequests,
        <[ip := {| last60s := pruned60; last10s := pruned10 |}]> rateLimitMap)
  else (Next,
        <[ip := {| last60s := pruned60 ++ [now];
                   last10s := pruned10 ++ [now] |}]> rateLimitMap).

(** The check in the words of the specification: a timestamp strictly
    older than [now - window] is dropped; the request is refused when a
    pruned sequence has reached its ceiling, otherwise it is recorded in
    both sequences. *)
Definition prune_spec (window now : Z) (l : list Z) : list Z :=
  List.filter (fun t => negb (t <? now - window)) l.

Definition check_spec (state : RateLimitState) (now : Z)
  : verdict * RateLimitState :=
  let s60 := prune_spec 60000 now (last60s state) in
  let s10 := prune_spec 10000 now (last10s state) in
  if bool_decide (10 <= length s60 ∨ 5 <= length s10)%nat
  then (TooManyRequests, {| last60s := s60; last10s := s10 |})
  else (Next, {| last60s := s60 ++ [now]; last10s := s10 ++ [now] |}).

Definition state_of (m : gmap string RateLimitState) (ip : string)
  : RateLimitState :=
  match m !! ip with
  | Some state => state
  | None => {| last60s := []; last10s := [] |}
  end.

(** Serving a sequence of requests [(ip, now)], oldest first. *)
Fixpoint serve (m : gmap string RateLimitState) (reqs : list (string * Z))
  : list verdict * gmap string RateLimitState :=
  match reqs with
  | [] => ([], m)
  | (ip, now) :: rest =>
      let '(v, m') := rateLimiter m ip now in
      let '(vs, m'') := serve m' rest in
      (v :: vs, m'')
  end.

(** The clock readings of the requests of [ip] that were let through. *)
Fixpoint granted (m : gmap string RateLimitState) (ip : string)
    (reqs : list (string * Z)) : list Z :=
  match reqs with
  | [] => []
  | (ip', now) :: rest =>
      let '(v, m') := rateLimiter m ip' now in
      match v with
      | Next => if decide (ip' = ip) then now :: granted m' ip rest
                else granted m' ip rest
      | TooManyRequests => granted m' ip rest
      end
  end.

(** How many of the readings [l] lie within [window] of [now]. *)
Definition within (window now : Z) (l : list Z) : nat :=
  length (List.filter (fun t => now - t <=? window) l).

End Limiter.

(** ** [src/index.ts]: the database queue *)

(** A job carries the user id and the [resolve]/[reject] pair of one
    promise; the promise is named by its number. *)
Record DbJob := { userId : Z; promise : nat }.

#[global] Instance DbJob_eq_dec : EqDecision DbJob.
Proof. solve_decision. Defined.

(** What the [try] block of [processNext] comes to for a job: the user of
    the table or [null], handed to [job.resolve], or an exception, handed
    to [job.reject] by the [catch]. *)
Inductive attempt (User : Type) :=
  | Fetched (user : option User)
  | Failed (err : string).
Arguments Fetched {User} _.
Arguments Failed {User} _.

(** [queue] and [processing] are the fields of the class. [awaiting] holds
    the activations of [processNext] that are suspended at the 200 ms
    [await], each with the job it shifted. [enqueued] and [executed] log
    the jobs in the order they were pushed and in the order their
    execution finished. *)
Record DbQueue := {
  queue : list DbJob;
  processing : bool;
  awaiting : list DbJob;
  enqueued : list DbJob;
  executed : list DbJob
}.

Module Queue.
Section Queue.
Context {User : Type}.

(** The table lookup [mockUsers[job.userId] ?? null]; the module
    [mockUsers] is not part of the sources and is a parameter. *)
Variable mockUsers : Z -> attempt User.

Definition empty : DbQueue :=
  {| queue := []; processing := false; awaiting := [];
     enqueued := []; executed := [] |}.

(** [processNext()], up to its first [await] or its return. *)
Definition processNext (q : DbQueue) : DbQueue :=
  if processing q then q
  else
    match queue q with
    | job :: rest =>
        {| queue := rest; processing := true;
           awaiting := awaiting q ++ [job];
           enqueued := enqueued q; executed := executed q |}
    | [] =>
        {| queue := []; processing := false; awaiting := awaiting q;
           enqueued := enqueued q; executed := executed q |}
    end.

(** [enqueue(job)] *)
Definition enqueue (q : DbQueue) (job : DbJob) : DbQueue :=
  processNext
    {| queue := queue q ++ [job]; processing := processing q;
       awaiting := awaiting q;
       enqueued := enqueued q ++ [job]; executed := executed q |}.

(** The timer of the oldest suspended activation fires: the rest of the
    loop body runs for its job, then the loop goes on to the next job or
    ends. The job and what its promise is settled with are reported. *)
Definition resume (q : DbQueue)
  : option (DbJob * attempt User) * DbQueue :=
  match awaiting q with
  | [] => (None, q)
  | job :: others =>
      let settled := mockUsers (userId job) in
      (Some (job, settled),
       match queue q with
       | next :: rest =>
           {| queue := rest; processing := processing q;
              awaiting := others ++ [next];
              enqueued := enqueued q; executed := executed q ++ [job] |}
       | [] =>
           {| queue := []; processing := false; awaiting := others;
              enqueued := enqueued q; executed := executed q ++ [job] |}
       end)
  end.

Inductive event := Enqueue (job : DbJob) | Fire.

Definition step (q : DbQueue) (e : event) : DbQueue :=
  match e with
  | Enqueue job => enqueue q job
  | Fire => snd (resume q)
  end.

Definition run (q : DbQueue) (evs : list event) : DbQueue :=
  fold_left step evs q.

(** The jobs pushed and not yet finished, oldest first. *)
Definition pending (q : DbQueue) : list DbJob := awaiting q ++ queue q.
End Queue.
End Queue.

(** ** [src/index.ts]: the [GET /users/:id] handler *)

Inductive response (User : Type) :=
  | BadRequest                      (* 400, invalid user id *)
  | FromCache (data : User)         (* 200, source "cache" *)
  | FromDatabase (data : User)      (* 200, source "database" *)
  | NotFound                        (* 404, user not found *)
  | Rejected (err : string).        (* the awaited fetch failed *)
Arguments BadRequest {User}.
Arguments FromCache {User} _.
Arguments FromDatabase {User} _.
Arguments NotFound {User}.
Arguments Rejected {User} _.

(** A handler suspended at [await fetchPromise]. *)
Record waiter := { w_request : nat; w_id : Z; w_promise : nat }.

(** A finished request: its number, the promise it awaited (if it got
    that far) and what the caller received. *)
Record reply (User : Type) := {
  r_request : nat;
  r_awaited : option nat;
  r_answer : response User
}.
Arguments r_request {User} _.
Arguments r_awaited {User} _.
Arguments r_answer {User} _.
Arguments Build_reply {User} _ _ _.

Record Server (User : Type) := {
  userCache : LRUCache Z User;
  dbQueue : DbQueue;
  inFlightFetches : gmap Z nat;
  suspended : list waiter;
  promises : nat;
  responses : list (reply User)
}.
Arguments userCache {User} _.
Arguments dbQueue {User} _.
Arguments inFlightFetches {User} _.
Arguments suspended {User} _.
Arguments promises {User} _.
Arguments responses {User} _.
Arguments Build_Server {User} _ _ _ _ _ _.

Definition CACHE_TTL_MS : Z := 60000.
Definition CACHE_MAX_SIZE : Z := 1000.

Module Handler.
Section Handler.
Context {User : Type}.
Variable mockUsers : Z -> attempt User.

Definition init : Server User :=
  {| userCache := Cache.create CACHE_MAX_SIZE CACHE_TTL_MS;
     dbQueue := Queue.empty;
     inFlightFetches := ∅;
     suspended := [];
     promises := 0;
     responses := [] |}.

(** [parseUserId(req, res)] for a request whose [:id] converts to the
    integer [id]: a non-positive id is answered with 400. *)
Definition parseUserId (id : Z) : option Z :=
  if id <=? 0 then None else Some id.

(** [fetchUserFromDb(userId)]: a new promise, whose [resolve] and [reject]
    go into the job that is enqueued at once. *)
Definition fetchUserFromDb (q : DbQueue) (created : nat) (userId : Z)
  : nat * DbQueue :=
  (created, Queue.enqueue q {| userId := userId; promise := created |}).

(** The handler from its start to its first [await] or [return]. *)
Definition arrive (s : Server User) (req : nat) (id : Z) (now : Z)
  : Server User :=
  match parseUserId id with
  | None =>
      {| userCache := userCache s; dbQueue := dbQueue s;
         inFlightFetches := inFlightFetches s; suspended := suspended s;
         promises := promises s;
         responses := responses s ++ [Build_reply req None BadRequest] |}
  | Some id =>
      let '(cached, cache) := Cache.get (userCache s) id now in
      match cached with
      | Some user =>
          {| userCache := cache; dbQueue := dbQueue s;
             inFlightFetches := inFlightFetches s; suspended := suspended s;
             promises := promises s;
             responses := responses s ++ [Build_reply req None (FromCache user)] |}
      | None =>
          match inFlightFetches s !! id with
          | Some fetchPromise =>
              {| userCache := cache; dbQueue := dbQueue s;
                 inFlightFetches := inFlightFetches s;
                 suspended := suspended s ++
                   [{| w_request := req; w_id := id; w_promise := fetchPromise |}];
                 promises := promises s;
                 responses := responses s |}
          | None =>
              let '(fetchPromise, q) :=
                fetchUserFromDb (dbQueue s) (promises s) id in
              {| userCache := cache;
                 dbQueue := q;
                 inFlightFetches := <[id := fetchPromise]> (inFlightFetches s);
                 suspended := suspended s ++
                   [{| w_request := req; w_id := id; w_promise := fetchPromise |}];
                 promises := S (promises s);
                 responses := responses s |}
          end
      end
  end.

(** What the caller receives for a settled fetch. *)
Definition answer (settled : attempt User) : response User :=
  match settled with
  | Failed err => Rejected err
  | Fetched None => NotFound
  | Fetched (Some user) => FromDatabase user
  end.

(** The handler from [await fetchPromise] to its end, once the promise
    is settled. *)
Definition wake (settled : attempt User) (now : Z)
    (s : Server User) (w : waiter) : Server User :=
  let inFlight := base.delete (w_id w) (inFlightFetches s) in
  let cache :=
    match settled with
    | Failed _ => userCache s
    | Fetched None => userCache s
    | Fetched (Some user) =>
        let '(present, cache) := Cache.has (userCache s) (w_id w) now in
        if present then cache else Cache.set cache (w_id w) user now
    end in
  {| userCache := cache; dbQueue := dbQueue s;
     inFlightFetches := inFlight; suspended := suspended s;
     promises := promises s;
     responses := responses s ++
       [Build_reply (w_request w) (Some (w_promise w)) (answer settled)] |}.

Definition awaits (p : nat) (w : waiter) : bool :=
  bool_decide (w_promise w = p).

(** The queue's timer fires: the job is finished and its promise settled;
    the handlers awaiting that promise go on, in the order they
    suspended, before anything else runs. *)
Definition timer (s : Server User) (now : Z) : Server User :=
  match Queue.resume mockUsers (dbQueue s) with
  | (None, _) => s
  | (Some (job, settled), q) =>
      fold_left (wake settled now)
        (List.filter (awaits (promise job)) (suspended s))
        {| userCache := userCache s; dbQueue := q;
           inFlightFetches := inFlightFetches s;
           suspended :=
             List.filter (fun w => negb (awaits (promise job) w)) (suspended s);
           promises := promises s;
           responses := responses s |}
  end.

(** What happens to the server, one atomic block of the event loop each:
    [Request req id now] is a [GET /users/:id] that the middleware let
    through, numbered [req], whose [:id] converts to the integer [id];
    [Timer now] is the firing of the queue's 200 ms timer. [now] is the
    clock reading of the cache operations of the block. *)
Inductive event :=
  | Request (req : nat) (id : Z) (now : Z)
  | Timer (now : Z).

Definition step (s : Server User) (e : event) : Server User :=
  match e with
  | Request req id now => arrive s req id now
  | Timer now => timer s now
  end.

Definition run (s : Server User) (evs : list event) : Server User :=
  fold_left step evs s.
End Handler.
End Handler.


(** ** Vocabulary of the statements about the cache *)

Section CacheVocabulary.
Context {K V : Type} `{EqDecision K} {key_class : JsKey K}.

(** An entry is live at [now] when its expiry lies strictly ahead. *)
Definition live (now : Z) (ke : K * CacheEntry V) : bool :=
  now <? expiresAt ke.2.

(** The keys of a [Map] are pairwise distinct. *)
Definition distinct_keys (c : LRUCache K V) : Prop :=
  NoDup (JsMap.keys (map c)).

(** No operation of the sequence is a [set] of [key]. *)
Definition no_set (key : K) (ops : list (op K V)) : Prop :=
  Forall (fun o => match o with OpSet k _ _ => k <> key | _ => True end) ops.

(** The keys of the map are in the order of their stamps, oldest first, and
    no stamp lies in the future. *)
Definition by_recency (g : recency K) (m : list (K * CacheEntry V)) : Prop :=
  StronglySorted (fun a b => (stamp g a < stamp g b)%nat) (JsMap.keys m)
  /\ Forall (fun k => (stamp g k <= tick g)%nat) (JsMap.keys m).

(** The keys of the map are in the order of the clock readings of their
    last touches, and no reading is later than [T]. *)
Definition by_clock (g : recency K) (m : list (K * CacheEntry V)) (T : Z)
  : Prop :=
  StronglySorted (fun a b => seen g a <= seen g b) (JsMap.keys m)
  /\ Forall (fun k => seen g k <= T) (JsMap.keys m).

(** No key of the map is the value [undefined]. *)
Definition keys_defined (m : list (K * CacheEntry V)) : Prop :=
  Forall (fun k => is_undefined k = false) (JsMap.keys m).

(** No operation of the sequence is a [set] of the key [undefined]. *)
Definition sets_defined_keys (ops : list (op K V)) : Prop :=
  Forall
    (fun o => match o with OpSet k _ _ => is_undefined k = false | _ => True end)
    ops.
End CacheVocabulary.

(** ** Concrete caches used as examples *)

(** Capacity 2: [A], [B], [C] are inserted in that order, then [get(A)],
    then [set(C)]. *)
Definition recency_example : LRUCache string nat :=
  Trace.run (Cache.create 2 60000)
    [OpSet "A"%string 1%nat 0; OpSet "B"%string 2%nat 1;
     OpSet "C"%string 3%nat 2; OpGet "A"%string 3;
     OpSet "C"%string 3%nat 4].

(** A cache of capacity 2 after three insertions. *)
Definition three_inserts : list (op Z string) :=
  [OpSet 1 "one"%string 0; OpSet 2 "two"%string 10; OpSet 3 "three"%string 20].

Definition small_cache : LRUCache Z string :=
  Trace.run (Cache.create 2 1000) three_inserts.

(** A cache of capacity 1.5 after two insertions. *)
Definition fractional_cache : LRUCache Z string :=
  Trace.run (Cache.create (Num (3 # 2)) 1000)
    [OpSet 1 "one"%string 0; OpSet 2 "two"%string 10].

(** A cache of capacity 1 whose keys are numbers or [undefined]: the key
    [undefined] is inserted first, then two numbers. *)
Definition undefined_first : list (op (option Z) string) :=
  [OpSet None "none"%string 0; OpSet (Some 1) "one"%string 10;
   OpSet (Some 2) "two"%string 20].

Definition undefined_key_cache : LRUCache (option Z) string :=
  Trace.run (Cache.create 1 1000) undefined_first.

(** ** Vocabulary of the statements about the rate limiter *)

(** The sequences kept for [ip] agree with the granted readings [A] on
    every window that ends at or after [tl]. *)
Definition tracks (m : gmap string RateLimitState) (ip : string)
    (A : list Z) (tl : Z) : Prop :=
  forall now, tl <= now ->
    List.filter (fun t => now - t <=? 60000) (last60s (Limiter.state_of m ip))
    = List.filter (fun t => now - t <=? 60000) A
    /\ List.filter (fun t => now - t <=? 10000) (last10s (Limiter.state_of m ip))
      = List.filter (fun t => now - t <=? 10000) A.

(** Requests of one identity at the given clock readings. *)
Definition from_ip (ip : string) (ts : list Z) : list (string * Z) :=
  List.map (fun t => (ip, t)) ts.

(** The checks of one identity in a row, on its state alone. *)
Fixpoint checks (state : RateLimitState) (ts : list Z)
  : list verdict * RateLimitState :=
  match ts with
  | [] => ([], state)
  | now :: ts' =>
      let r := Limiter.check_spec state now in
      let r' := checks r.2 ts' in
      (r.1 :: r'.1, r'.2)
  end.

(** No identity has more recorded readings than the ceilings allow. *)
Definition within_ceilings (m : gmap string RateLimitState) : Prop :=
  forall ip,
    (length (last60s (Limiter.state_of m ip)) <= 10)%nat
    /\ (length (last10s (Limiter.state_of m ip)) <= 5)%nat.

(** Ten requests, one every three seconds. *)
Definition steady_schedule : list Z :=
  [0; 3000; 6000; 9000; 12000; 15000; 18000; 21000; 24000; 27000].

(** Five requests within two seconds. *)
Definition burst_schedule : list Z := [0; 500; 1000; 1500; 2000].

(** ** Vocabulary of the statements about the queue and the handler *)

(** The log of pushed jobs is the finished jobs, then the job being
    executed, then the waiting jobs; the worker is either busy with exactly
    one job or idle with an empty queue. *)
Definition queue_ok (q : DbQueue) : Prop :=
  enqueued q = executed q ++ awaiting q ++ queue q
  /\ ((processing q = true /\ exists job, awaiting q = [job])
      \/ (processing q = false /\ awaiting q = [] /\ queue q = [])).

(** The jobs of the [Enqueue] events, in order. *)
Definition jobs_of (evs : list Queue.event) : list DbJob :=
  flat_map
    (fun e => match e with Queue.Enqueue job => [job] | Queue.Fire => [] end)
    evs.

(** The job a suspended handler waits for. *)
Definition job_of (w : waiter) : DbJob :=
  {| userId := w_id w; promise := w_promise w |}.

Section ServerVocabulary.
Context {User : Type}.

(** What a suspended handler sends once its fetch is settled. *)
Definition reply_to (settled : attempt User) (w : waiter) : reply User :=
  Build_reply (w_request w) (Some (w_promise w)) (Handler.answer settled).

Definition pending_jobs (s : Server User) : list DbJob :=
  Queue.pending (dbQueue s).

(** The state of the server is coherent: the queue is in order; pending
    jobs carry distinct promises created earlier; the registry holds
    exactly the pending jobs; every suspended handler waits for a pending
    job and every pending job has a handler waiting for it; a promise that
    has been answered is no longer pending, and answers for the same
    promise are equal. *)
Definition server_ok (s : Server User) : Prop :=
  queue_ok (dbQueue s)
  /\ NoDup (promise <$> pending_jobs s)
  /\ Forall (fun job => (promise job < promises s)%nat) (pending_jobs s)
  /\ (forall id p,
        inFlightFetches s !! id = Some p
        <-> {| userId := id; promise := p |} ∈ pending_jobs s)
  /\ Forall (fun w => job_of w ∈ pending_jobs s) (suspended s)
  /\ Forall (fun job => exists w, w ∈ suspended s /\ job_of w = job)
       (pending_jobs s)
  /\ Forall (fun r => forall p, r_awaited r = Some p ->
                (p < promises s)%nat /\ p ∉ promise <$> pending_jobs s)
       (responses s)
  /\ (forall r1 r2 p,
        r1 ∈ responses s -> r2 ∈ responses s ->
        r_awaited r1 = Some p -> r_awaited r2 = Some p ->
        r_answer r1 = r_answer r2).

(** The requests of a batch of lookups of one user id. *)
Definition lookups (id : Z) (arrivals : list (nat * Z)) : list Handler.event :=
  List.map (fun a => Handler.Request a.1 id a.2) arrivals.

Definition waiters_of (id : Z) (p : nat) (arrivals : list (nat * Z))
  : list waiter :=
  List.map (fun a => {| w_request := a.1; w_id := id; w_promise := p |}) arrivals.
End ServerVocabulary.

(** The users of the README, for examples. *)
Definition readme_users (id : Z) : attempt string :=
  if id =? 1 then Fetched (Some "John Doe"%string)
  else if id =? 2 then Fetched (Some "Jane Smith"%string)
  else if id =? 3 then Fetched (Some "Alice Johnson"%string)
  else Fetched None.

(** A table whose lookup fails for user 2. *)
Definition faulty_users (id : Z) : attempt string :=
  if id =? 2 then Failed "lookup failed"%string else readme_users id.

(** Three jobs pushed on an empty queue, and the first one finished. *)
Definition job1 : DbJob := {| userId := 1; promise := 0 |}.
Definition job2 : DbJob := {| userId := 2; promise := 1 |}.
Definition job3 : DbJob := {| userId := 3; promise := 2 |}.

Definition three_jobs_one_done : list Queue.event :=
  [Queue.Enqueue job1; Queue.Enqueue job2; Queue.Enqueue job3; Queue.Fire].

(** ** Counting what the [get] calls of a sequence return *)

Section Tally.
Context {K V : Type} `{EqDecision K} {key_class : JsKey K}.

(** No operation of the sequence is a [set] or a [clear]. *)
Definition reads_only (ops : list (op K V)) : Prop :=
  Forall
    (fun o => match o with OpSet _ _ _ | OpClear => False | _ => True end) ops.

(** The numbers of [get] calls that returned a value and that returned
    nothing, counted from [(h, m)] and restarted from zero by a [clear]. *)
Fixpoint tally (c : LRUCache K V) (ops : list (op K V)) (h m : nat)
  : nat * nat :=
  match ops with
  | [] => (h, m)
  | o :: ops' =>
      let '(h', m') :=
        match o with
        | OpGet key now =>
            match (Cache.get c key now).1 with
            | Some _ => (S h, m)
            | None => (h, S m)
            end
        | OpClear => (0%nat, 0%nat)
        | _ => (h, m)
        end in
      tally (Trace.exec c o) ops' h' m'
  end.
End Tally.

(** ** [src/index.ts]: the other routes and the purge timer *)

Module Api.

(** The [User] of the absent module [mockUsers], as [POST /users] builds
    it. *)
Record User := { id : Z; name : string; email : string }.

(** [req.body as Partial<User>]: each field may be missing. *)
Record Body := {
  body_id : option Z;
  body_name : option string;
  body_email : option string
}.

(** [!id] of a number or [undefined]; [!name] of a string or
    [undefined]. *)
Definition falsy_number (x : option Z) : bool :=
  match x with
  | Some n => n =? 0
  | None => true
  end.

Definition falsy_string (x : option string) : bool :=
  match x with
  | Some s => bool_decide (s = EmptyString)
  | None => true
  end.

(** The table [mockUsers], which [POST /users] extends, and the rest of
    the server. *)
Record State := {
  mockUsers : gmap Z User;
  server : Server User
}.

(** [mockUsers[job.userId] ?? null] on the table as it is when the job is
    executed. *)
Definition lookupUser (table : gmap Z User) (userId : Z) : attempt User :=
  Fetched (table !! userId).

Inductive PostReply :=
  | InvalidPayload                 (* 400 *)
  | AlreadyExists                  (* 409 *)
  | Created (data : User).         (* 201 *)

Definition with_cache (s : Server User) (cache : LRUCache Z User)
  : Server User :=
  {| userCache := cache; dbQueue := dbQueue s;
     inFlightFetches := inFlightFetches s; suspended := suspended s;
     promises := promises s; responses := responses s |}.

(** [app.post("/users", ...)] *)
Definition postUsers (a : State) (body : Body) (now : Z)
  : PostReply * State :=
  if falsy_number (body_id body) || falsy_string (body_name body)
     || falsy_string (body_email body)
  then (InvalidPayload, a)
  else
    match body_id body, body_name body, body_email body with
    | Some id, Some name, Some email =>
        match mockUsers a !! id with
        | Some _ => (AlreadyExists, a)
        | None =>
            let newUser := {| id := id; name := name; email := email |} in
            let '(present, cache) :=
              Cache.has (userCache (server a)) id now in
            (Created newUser,
             {| mockUsers := <[id := newUser]> (mockUsers a);
                server :=
                  with_cache (server a)
                    (if present then cache
                     else Cache.set cache id newUser now) |})
        end
    | _, _, _ => (InvalidPayload, a)
    end.

(** [app.delete("/cache", ...)] *)
Definition deleteCache (a : State) : State :=
  {| mockUsers := mockUsers a;
     server := with_cache (server a) (Cache.clear (userCache (server a))) |}.

(** The callback of [setInterval(..., 10_000)]. *)
Definition purgeTick (a : State) (now : Z) : State :=
  {| mockUsers := mockUsers a;
     server :=
       with_cache (server a) (Cache.purgeStale (userCache (server a)) now) |}.

(** The cache part of the reply of [GET /cache-status]. *)
Record CacheStatus := {
  status_hits : nat;
  status_misses : nat;
  status_size : Z;
  ttlSeconds : Z
}.

Definition cacheStatus (a : State) : CacheStatus :=
  let stats := Cache.stats (userCache (server a)) in
  {| status_hits := hits stats; status_misses := misses stats;
     status_size := size stats; ttlSeconds := CACHE_TTL_MS / 1000 |}.

(** One atomic block of the event loop: a [GET /users/:id] that the
    middleware let through, the queue's timer, a [POST /users], a
    [DELETE /cache], or the purge timer. *)
Inductive event :=
  | GetUser (req : nat) (id : Z) (now : Z)
  | QueueTimer (now : Z)
  | PostUser (body : Body) (now : Z)
  | DeleteCache
  | PurgeTimer (now : Z).

Definition step (a : State) (e : event) : State :=
  match e with
  | GetUser req id now =>
      {| mockUsers := mockUsers a;
         server := Handler.arrive (server a) req id now |}
  | QueueTimer now =>
      {| mockUsers := mockUsers a;
         server := Handler.timer (lookupUser (mockUsers a)) (server a) now |}
  | PostUser body now => (postUsers a body now).2
  | DeleteCache => deleteCache a
  | PurgeTimer now => purgeTick a now
  end.

Definition run (a : State) (evs : list event) : State :=
  fold_left step evs a.

(** The server at start, over the table of the module [mockUsers]. *)
Definition init (table : gmap Z User) : State :=
  {| mockUsers := table; server := Handler.init |}.

(** How many of the events are [GET /users/:id] requests. *)
Definition gets (evs : list event) : nat :=
  length
    (List.filter
       (fun e => match e with GetUser _ _ _ => true | _ => false end) evs).

(** How many of the events are [GET /users/:id] requests with a valid
    id. *)
Definition valid_gets (evs : list event) : nat :=
  length
    (List.filter
       (fun e => match e with GetUser _ id _ => 0 <? id | _ => false end) evs).

(** Every cached user is the user the table holds for that id. *)
Definition cache_agrees (a : State) : Prop :=
  forall id entry,
    JsMap.get id (map (userCache (server a))) = Some entry ->
    mockUsers a !! id = Some (value entry).

End Api.

(** The users of the README as a table. *)
Definition readme_table : gmap Z Api.User :=
  <[1 := {| Api.id := 1; Api.name := "John Doe"%string;
            Api.email := "john@example.com"%string |}]>
  (<[2 := {| Api.id := 2; Api.name := "Jane Smith"%string;
             Api.email := "jane@example.com"%string |}]>
   (<[3 := {| Api.id := 3; Api.name := "Alice Johnson"%string;
              Api.email := "alice@example.com"%string |}]> ∅)).

Definition new_user_body : Api.Body :=
  {| Api.body_id := Some 4; Api.body_name := Some "New User"%string;
     Api.body_email := Some "test@example.com"%string |}.

Definition john : Api.User :=
  {| Api.id := 1; Api.name := "John Doe"%string;
     Api.email := "john@example.com"%string |}.

Definition new_user : Api.User :=
  {| Api.id := 4; Api.name := "New User"%string;
     Api.email := "test@example.com"%string |}.

(** User 4 is looked up, and created while the fetch is pending. *)
Definition post_during_fetch : Api.State :=
  Api.run (Api.init readme_table)
    [Api.GetUser 0 4 100; Api.PostUser new_user_body 150].

(** User 1 has been fetched and cached at time 300. *)
Definition john_cached : Server string :=
  Handler.run readme_users Handler.init
    (lookups 1 [(0%nat, 100)] ++ [Handler.Timer 300]).

(** A lookup of user 1 is waiting for its fetch. *)
Definition john_pending : Server string :=
  Handler.run readme_users Handler.init (lookups 1 [(0%nat, 100)]).

(** Reads of the small caches. *)
Definition three_reads : list (op Z string) :=
  [OpGet 2 1000; OpGet 9 1000; OpHas 3 1000].

Definition early_reads : list (op Z string) :=
  [OpGet 1 500; OpHas 1 600; OpPurgeStale 700].

(** ** Vocabulary of the statements about what stays cached *)

(** The events are [GET /users/:id] requests that arrive before [T]; no
    fetch completes among them. *)
Definition lookups_before (T : Z) (evs : list Handler.event) : Prop :=
  Forall
    (fun e => match e with
              | Handler.Request _ _ now => now < T
              | Handler.Timer _ => False
              end) evs.


(** Lookups of users 2 and 1 after user 1 was cached at time 300. *)
Definition later_lookups : list Handler.event :=
  [Handler.Request 1 2 400; Handler.Request 2 1 500].


(** * Properties *)

(** ** Facts about the ordered map *)

Section JsMapFacts.
Context {K V : Type} `{EqDecision K}.
Implicit Types (m : list (K * V)) (k : K) (v : V).

Lemma get_None_keys k m : JsMap.get k m = None <-> k ∉ JsMap.keys m.
Proof.
  unfold JsMap.keys. induction m as [|[k' v'] m IH]; simpl.
  - split; [intros _; apply not_elem_of_nil | done].
  - rewrite not_elem_of_cons. destruct (decide (k' = k)) as [->|Hne].
    + split; [done | intros [? _]; done].
    + rewrite IH. split; [intros ?; split; [congruence | done] | tauto].
Qed.

Lemma get_delete_eq k m : JsMap.get k (JsMap.delete k m) = None.
Proof.
  induction m as [|[k' v'] m IH]; simpl; [done |].
  destruct (decide (k' = k)); simpl; [done |]. by rewrite decide_False.
Qed.

Lemma get_delete_ne k k' m :
  k <> k' -> JsMap.get k' (JsMap.delete k m) = JsMap.get k' m.
Proof.
  intros Hne. induction m as [|[k0 v0] m IH]; simpl; [done |].
  destruct (decide (k0 = k)) as [->|Hk]; simpl.
  - by rewrite decide_False.
  - destruct (decide (k0 = k')); [done | apply IH].
Qed.

Lemma delete_absent k m : JsMap.get k m = None -> JsMap.delete k m = m.
Proof.
  induction m as [|[k' v'] m IH]; simpl; [done |].
  destruct (decide (k' = k)); [done |]. intros Hg. by rewrite IH.
Qed.

Lemma set_absent k v m : JsMap.get k m = None -> JsMap.set k v m = m ++ [(k, v)].
Proof.
  induction m as [|[k' v'] m IH]; simpl; [done |].
  destruct (decide (k' = k)); [done |]. intros Hg. by rewrite IH.
Qed.

Lemma get_app_absent k k' v m :
  JsMap.get k' (m ++ [(k, v)]) =
  match JsMap.get k' m with
  | Some v' => Some v'
  | None => if decide (k = k') then Some v else None
  end.
Proof.
  induction m as [|[k0 v0] m IH]; simpl; [done |].
  destruct (decide (k0 = k')); [done | apply IH].
Qed.

Lemma length_delete_le k m : (length (JsMap.delete k m) <= length m)%nat.
Proof.
  induction m as [|[k' v'] m IH]; simpl; [done |].
  destruct (decide (k' = k)); simpl; lia.
Qed.

Lemma length_delete_lt k m :
  JsMap.get k m <> None -> (length (JsMap.delete k m) < length m)%nat.
Proof.
  induction m as [|[k' v'] m IH]; simpl; [done |].
  destruct (decide (k' = k)); simpl.
  - intros _. pose proof (length_delete_le k m). lia.
  - intros Hg. specialize (IH Hg). lia.
Qed.

Lemma elem_of_keys_delete k k' m :
  k' ∈ JsMap.keys (JsMap.delete k m) <-> k' ∈ JsMap.keys m /\ k' <> k.
Proof.
  unfold JsMap.keys. induction m as [|[k0 v0] m IH]; simpl.
  - split; [intros Hin; by apply elem_of_nil in Hin | intros [Hin _]; by apply elem_of_nil in Hin].
  - destruct (decide (k0 = k)) as [->|Hne]; simpl.
    + rewrite IH, elem_of_cons. intuition congruence.
    + rewrite !elem_of_cons, IH. intuition congruence.
Qed.

Lemma NoDup_keys_delete k m :
  NoDup (JsMap.keys m) -> NoDup (JsMap.keys (JsMap.delete k m)).
Proof.
  unfold JsMap.keys. induction m as [|[k0 v0] m IH]; simpl; [done |].
  rewrite NoDup_cons. intros [Hnin Hnd].
  destruct (decide (k0 = k)); simpl; [by apply IH |].
  rewrite NoDup_cons. split; [| by apply IH].
  intros Hin. apply Hnin. by apply (elem_of_keys_delete k k0 m).
Qed.

Lemma NoDup_keys_append k v m :
  JsMap.get k m = None -> NoDup (JsMap.keys m) -> NoDup (JsMap.keys (m ++ [(k, v)])).
Proof.
  intros Hg Hnd. unfold JsMap.keys. rewrite fmap_app. simpl.
  apply NoDup_app. split; [done |]. split.
  - intros x Hx Hx'. apply list_elem_of_singleton in Hx' as ->.
    by apply get_None_keys in Hg.
  - apply NoDup_singleton.
Qed.

End JsMapFacts.

(** ** The cache *)

Section CacheFacts.
Context {K V : Type} `{EqDecision K}.
Implicit Types (c : LRUCache K V) (key : K) (now : Z).

Lemma delete_app key (a b : list (K * CacheEntry V)) :
  JsMap.delete key (a ++ b) = JsMap.delete key a ++ JsMap.delete key b.
Proof.
  induction a as [|[k0 v0] a IH]; simpl; [done |].
  destruct (decide (k0 = key)); simpl; by rewrite IH.
Qed.

Lemma delete_middle key (e : CacheEntry V) (a b : list (K * CacheEntry V)) :
  NoDup (JsMap.keys (a ++ (key, e) :: b)) ->
  JsMap.delete key (a ++ (key, e) :: b) = a ++ b.
Proof.
  unfold JsMap.keys. rewrite fmap_app, fmap_cons. simpl.
  intros Hnd. apply NoDup_app in Hnd as (_ & Hab & Hb).
  apply NoDup_cons in Hb as [Hb _].
  rewrite delete_app. simpl. rewrite decide_True by done.
  rewrite !delete_absent; [done | |].
  - by apply get_None_keys.
  - apply get_None_keys. intros Hin. apply (Hab key Hin), list_elem_of_here.
Qed.


Lemma purge_loop now (todo done : list (K * CacheEntry V)) :
  NoDup (JsMap.keys (done ++ todo)) ->
  fold_left
    (fun m (ke : K * CacheEntry V) =>
       if expiresAt ke.2 <=? now then JsMap.delete ke.1 m else m)
    todo (done ++ todo)
  = done ++ List.filter (live now) todo.
Proof.
  revert done. induction todo as [|[k e] todo IH]; intros done Hnd; simpl.
  - done.
  - unfold live at 1. simpl. destruct (Z.leb_spec (expiresAt e) now) as [Hle|Hgt].
    + replace (now <? expiresAt e) with false by (symmetry; apply Z.ltb_ge; lia).
      rewrite delete_middle by done. apply IH.
      revert Hnd. unfold JsMap.keys. rewrite !fmap_app, fmap_cons.
      rewrite !NoDup_app, NoDup_cons. intros (? & Hd & _ & ?).
      split; [done |]. split; [| done].
      intros x Hx Hx'. apply (Hd x Hx). by apply list_elem_of_further.
    + replace (now <? expiresAt e) with true by (symmetry; apply Z.ltb_lt; lia).
      rewrite (cons_middle _ done todo), app_assoc.
      rewrite IH; [by rewrite <- app_assoc |].
      by rewrite <- app_assoc.
Qed.


(** C10. [purgeStale()] keeps exactly the entries whose expiry lies
    strictly ahead, in their order, and removes the others (those with
    [expiresAt <= now]); the counters and the configuration are unchanged. *)
Theorem purgeStale_removes_exactly_the_expired c now :
  distinct_keys c ->
  let c' := Cache.purgeStale c now in
  map c' = List.filter (live now) (map c)
  /\ (forall key entry, (key, entry) ∈ map c' <->
        (key, entry) ∈ map c /\ ~ expiresAt entry <= now)
  /\ _hits c' = _hits c /\ _misses c' = _misses c
  /\ maxSize c' = maxSize c /\ ttlMs c' = ttlMs c.
Proof.
  intros Hnd c'.
  assert (Hm : map c' = List.filter (live now) (map c)).
  { unfold c', Cache.purgeStale. simpl. apply (purge_loop now (map c) []), Hnd. }
  split_and!; try done.
  intros key entry. rewrite Hm. split.
  - intros Hin. apply list_elem_of_In, filter_In in Hin as [Hin Hl].
    split; [by apply list_elem_of_In |].
    unfold live in Hl. simpl in Hl. apply Z.ltb_lt in Hl. lia.
  - intros [Hin Hl]. apply list_elem_of_In, filter_In.
    split; [by apply list_elem_of_In |]. unfold live. simpl. apply Z.ltb_lt. lia.
Qed.
End CacheFacts.

(** ** Sequences of operations on the cache *)

Section CacheRuns.
Context {K V : Type} `{EqDecision K} {key_class : JsKey K}.
Implicit Types (c : LRUCache K V) (key : K) (now : Z) (g : recency K)
  (m : list (K * CacheEntry V)).

Lemma get_delete_Some key k m (e : CacheEntry V) :
  JsMap.get key (JsMap.delete k m) = Some e -> JsMap.get key m = Some e.
Proof.
  destruct (decide (k = key)) as [->|Hne].
  - by rewrite get_delete_eq.
  - by rewrite get_delete_ne.
Qed.

Lemma get_purge_loop_Some key now (l m : list (K * CacheEntry V)) e :
  JsMap.get key
    (fold_left
       (fun m (ke : K * CacheEntry V) =>
          if expiresAt ke.2 <=? now then JsMap.delete ke.1 m else m) l m)
  = Some e ->
  JsMap.get key m = Some e.
Proof.
  revert m. induction l as [|[k e0] l IH]; intros m; simpl; [done |].
  intros Hg. apply IH in Hg. destruct (expiresAt e0 <=? now); [| done].
  by apply get_delete_Some in Hg.
Qed.

Lemma get_reinsert key k (e0 : CacheEntry V) m :
  JsMap.get k m = Some e0 ->
  JsMap.get key (JsMap.set k e0 (JsMap.delete k m)) = JsMap.get key m.
Proof.
  intros Hk. rewrite set_absent by apply get_delete_eq.
  rewrite get_app_absent. destruct (decide (k = key)) as [->|Hne].
  - by rewrite get_delete_eq, Hk.
  - rewrite get_delete_ne by done. by destruct (JsMap.get key m).
Qed.

(** Only a [set] of [key] creates or changes the entry of [key]. *)
Lemma exec_get_Some key c (o : op K V) e :
  match o with OpSet k _ _ => k <> key | _ => True end ->
  JsMap.get key (map (Trace.exec c o)) = Some e ->
  JsMap.get key (map c) = Some e.
Proof.
  destruct o as [k now|k val now|k now| |now]; simpl.
  - intros _. unfold Cache.get.
    destruct (JsMap.get k (map c)) as [e0|] eqn:Hk; simpl; [| done].
    destruct (expiresAt e0 <=? now); simpl.
    + apply get_delete_Some.
    + by rewrite get_reinsert.
  - intros Hne. unfold Cache.set. simpl.
    set (m1 := if JsMap.has k (map c) then _ else _).
    assert (Hm1 : forall e', JsMap.get key m1 = Some e' ->
                             JsMap.get key (map c) = Some e').
    { intros e'. unfold m1. destruct (JsMap.has k (map c)).
      - apply get_delete_Some.
      - destruct (size_ge (JsMap.size (map c)) (maxSize c)); [| done].
        destruct (JsMap.first_key (map c)) as [oldestKey|]; [| done].
        destruct (is_undefined oldestKey); [done | apply get_delete_Some]. }
    clearbody m1. intros Hg. apply Hm1.
    revert Hg. clear Hm1. induction m1 as [|[k0 v0] m1 IH]; simpl.
    + by rewrite decide_False.
    + destruct (decide (k0 = k)) as [->|Hk0]; simpl.
      * by rewrite !decide_False.
      * destruct (decide (k0 = key)); [done | apply IH].
  - intros _. unfold Cache.has.
    destruct (JsMap.get k (map c)) as [e0|] eqn:Hk; simpl; [| done].
    destruct (expiresAt e0 <=? now); simpl; [apply get_delete_Some | done].
  - done.
  - intros _. apply get_purge_loop_Some.
Qed.

Lemma run_get_Some key c (ops : list (op K V)) e :
  no_set key ops ->
  JsMap.get key (map (Trace.run c ops)) = Some e ->
  JsMap.get key (map c) = Some e.
Proof.
  unfold Trace.run, no_set. revert c.
  induction ops as [|o ops IH]; intros c Hns; simpl; [done |].
  apply Forall_cons in Hns as [Ho Hns].
  intros Hg. apply IH in Hg; [| done]. by apply exec_get_Some in Hg.
Qed.

Lemma get_set_same key (e : CacheEntry V) m :
  JsMap.get key (JsMap.set key e m) = Some e.
Proof.
  induction m as [|[k0 v0] m IH]; simpl.
  - by rewrite decide_True.
  - destruct (decide (k0 = key)); simpl; [by rewrite decide_True |].
    by rewrite decide_False.
Qed.

(** C2. After [set(key, value)] at time [t0], and whatever operations
    follow that are not a [set] of the same key, a [get(key)] at a time
    [now >= t0 + ttl] (the boundary included) returns nothing, counts one
    miss and no hit, and leaves the cache without an entry for the key. *)
Theorem get_at_or_after_expiry_misses c key (val : V) t0 (ops : list (op K V)) now :
  no_set key ops ->
  t0 + ttlMs c <= now ->
  let c1 := Trace.run (Cache.set c key val t0) ops in
  let r := Cache.get c1 key now in
  r.1 = None
  /\ _misses r.2 = S (_misses c1) /\ _hits r.2 = _hits c1
  /\ JsMap.get key (map r.2) = None
  /\ map r.2 = JsMap.delete key (map c1).
Proof.
  intros Hns Hle c1 r. unfold r, Cache.get.
  destruct (JsMap.get key (map c1)) as [e|] eqn:Hg; simpl.
  - apply run_get_Some in Hg; [| done].
    unfold Cache.set in Hg. simpl in Hg. rewrite get_set_same in Hg.
    injection Hg as <-. simpl.
    replace (t0 + ttlMs c <=? now) with true by (symmetry; apply Z.leb_le; lia).
    simpl. split_and!; try done. apply get_delete_eq.
  - split_and!; try done. by rewrite delete_absent.
Qed.
End CacheRuns.

(** ** The capacity test and the keys that are [undefined] *)

Lemma size_ge_int (size n : Z) : size_ge size n = (n <=? size).
Proof. unfold size_ge, of_int, Qle_bool. simpl. by rewrite !Z.mul_1_r. Qed.

(** Below a finite capacity there is room for one more entry under its
    ceiling. *)
Lemma size_ge_false (size : Z) (q : Q) :
  size_ge size (Num q) = false -> size + 1 <= Qceiling q.
Proof.
  intros Hge.
  assert (Hlt : (inject_Z size < q)%Q).
  { apply Qnot_le_lt. intros Hle. apply Qle_bool_iff in Hle.
    simpl in Hge. congruence. }
  assert (Hc : (inject_Z size < inject_Z (Qceiling q))%Q)
    by (eapply Qlt_le_trans; [exact Hlt | apply Qle_ceiling]).
  rewrite <- Zlt_Qlt in Hc. lia.
Qed.

Section KeyFacts.
Context {K V : Type} `{EqDecision K} {key_class : JsKey K}.
Implicit Types (c : LRUCache K V) (m : list (K * CacheEntry V)).

Lemma keys_defined_delete k m : keys_defined m -> keys_defined (JsMap.delete k m).
Proof.
  unfold keys_defined. rewrite !Forall_forall. intros Hm x Hx.
  apply elem_of_keys_delete in Hx as [Hx _]. by apply Hm.
Qed.

Lemma keys_defined_set k (e : CacheEntry V) m :
  keys_defined m -> is_undefined k = false -> keys_defined (JsMap.set k e m).
Proof.
  unfold keys_defined, JsMap.keys. intros Hm Hk.
  induction m as [|[k0 e0] m IH]; simpl.
  - by constructor.
  - apply Forall_cons in Hm as [Hk0 Hm].
    destruct (decide (k0 = k)); simpl; constructor; auto.
Qed.

Lemma keys_defined_lookup k (e : CacheEntry V) m :
  keys_defined m -> JsMap.get k m = Some e -> is_undefined k = false.
Proof.
  unfold keys_defined. rewrite Forall_forall. intros Hm Hg. apply Hm.
  destruct (decide (k ∈ JsMap.keys m)) as [|Hn]; [done |].
  apply get_None_keys in Hn. congruence.
Qed.

Lemma keys_defined_purge_loop now (l m : list (K * CacheEntry V)) :
  keys_defined m ->
  keys_defined
    (fold_left
       (fun m (ke : K * CacheEntry V) =>
          if expiresAt ke.2 <=? now then JsMap.delete ke.1 m else m) l m).
Proof.
  revert m. induction l as [|[k e0] l IH]; intros m Hm; simpl; [done |].
  apply IH. destruct (expiresAt e0 <=? now); [by apply keys_defined_delete | done].
Qed.

(** Where no key of the type is [undefined], every map has defined keys
    and every sequence sets defined keys. *)
Lemma all_keys_defined m :
  (forall k : K, is_undefined k = false) -> keys_defined m.
Proof. intros Hall. apply Forall_forall. intros k _. apply Hall. Qed.

Lemma all_sets_defined (ops : list (op K V)) :
  (forall k : K, is_undefined k = false) -> sets_defined_keys ops.
Proof.
  intros Hall. apply Forall_forall. intros [] _; auto.
Qed.

(** The key [undefined] enters the map only through a [set] of it. *)
Lemma exec_keys_defined c (o : op K V) :
  keys_defined (map c) -> sets_defined_keys [o] ->
  keys_defined (map (Trace.exec c o)).
Proof.
  intros Hm Ho. apply Forall_cons in Ho as [Ho _].
  destruct o as [k now|k val now|k now| |now]; simpl.
  - unfold Cache.get.
    destruct (JsMap.get k (map c)) as [e0|] eqn:Hk; simpl; [| done].
    destruct (expiresAt e0 <=? now); simpl.
    + by apply keys_defined_delete.
    + apply keys_defined_set; [by apply keys_defined_delete |].
      by apply (keys_defined_lookup k e0 (map c)).
  - unfold Cache.set. simpl. apply keys_defined_set; [| done].
    destruct (JsMap.has k (map c)); [by apply keys_defined_delete |].
    destruct (size_ge (JsMap.size (map c)) (maxSize c)); [| done].
    destruct (JsMap.first_key (map c)) as [oldestKey|]; [| done].
    destruct (is_undefined oldestKey); [done | by apply keys_defined_delete].
  - unfold Cache.has.
    destruct (JsMap.get k (map c)) as [e0|] eqn:Hk; simpl; [| done].
    destruct (expiresAt e0 <=? now); simpl; [by apply keys_defined_delete | done].
  - constructor.
  - by apply keys_defined_purge_loop.
Qed.

Lemma length_purge_loop now (l m : list (K * CacheEntry V)) :
  (length
     (fold_left
        (fun m (ke : K * CacheEntry V) =>
           if (expiresAt ke.2 <=? now)%Z then JsMap.delete ke.1 m else m) l m)
   <= length m)%nat.
Proof.
  revert m. induction l as [|[k e0] l IH]; intros m; simpl; [done |].
  etransitivity; [apply IH |].
  destruct (expiresAt e0 <=? now); [apply length_delete_le | done].
Qed.

(** The first key of a map with defined keys passes the test
    [oldestKey !== undefined]. *)
Lemma keys_defined_head k (e : CacheEntry V) m :
  keys_defined ((k, e) :: m) -> is_undefined k = false.
Proof. intros Hm. by apply Forall_cons in Hm as [Hk _]. Qed.

(** One operation on a cache of finite capacity [q] keeps the size within
    the ceiling of [q], and within one entry when that is less. *)
Lemma exec_size_bound (q : Q) c (o : op K V) :
  maxSize c = Num q -> keys_defined (map c) -> sets_defined_keys [o] ->
  JsMap.size (map c) <= Z.max 1 (Qceiling q) ->
  maxSize (Trace.exec c o) = Num q
  /\ JsMap.size (map (Trace.exec c o)) <= Z.max 1 (Qceiling q).
Proof.
  intros Hmax Hdef Ho Hsize.
  destruct o as [k now|k val now|k now| |now]; simpl.
  - unfold Cache.get.
    destruct (JsMap.get k (map c)) as [e0|] eqn:Hk; simpl; [| done].
    unfold JsMap.size in *.
    destruct (expiresAt e0 <=? now); simpl.
    + pose proof (length_delete_le k (map c)). split; [done | lia].
    + rewrite set_absent by apply get_delete_eq.
      assert (JsMap.get k (map c) <> None) as Hlt by (by rewrite Hk).
      apply length_delete_lt in Hlt. rewrite length_app. simpl.
      split; [done | lia].
  - unfold Cache.set, JsMap.has. simpl.
    destruct (JsMap.get k (map c)) as [e0|] eqn:Hk.
    + rewrite set_absent by apply get_delete_eq.
      assert (JsMap.get k (map c) <> None) as Hlt by (by rewrite Hk).
      apply length_delete_lt in Hlt. unfold JsMap.size in *.
      rewrite length_app. simpl. split; [done | lia].
    + rewrite Hmax.
      destruct (size_ge (JsMap.size (map c)) (Num q)) eqn:Hge.
      * destruct (map c) as [|[k0 e0] rest] eqn:Hm.
        -- unfold JsMap.size. simpl. split; [done | lia].
        -- simpl JsMap.first_key. cbv iota.
           rewrite (keys_defined_head k0 e0 rest Hdef).
           assert (Hk' : JsMap.get k (JsMap.delete k0 ((k0, e0) :: rest)) = None).
           { rewrite get_delete_ne; [done |]. intros ->.
             simpl in Hk. by rewrite decide_True in Hk. }
           rewrite set_absent by done.
           assert (JsMap.get k0 ((k0, e0) :: rest) <> None) as Hlt
             by (simpl; by rewrite decide_True).
           apply length_delete_lt in Hlt. unfold JsMap.size in *.
           rewrite length_app. simpl in *. split; [done | lia].
      * apply size_ge_false in Hge. rewrite set_absent by done.
        unfold JsMap.size in *. rewrite length_app. simpl.
        split; [done | lia].
  - unfold Cache.has.
    destruct (JsMap.get k (map c)) as [e0|] eqn:Hk; simpl; [| done].
    destruct (expiresAt e0 <=? now); simpl; [| done].
    pose proof (length_delete_le k (map c)). unfold JsMap.size in *.
    split; [done | lia].
  - unfold JsMap.size. simpl. split; [done | lia].
  - pose proof (length_purge_loop now (map c) (map c)). unfold JsMap.size in *.
    split; [done | lia].
Qed.

Lemma run_size_bound (q : Q) (ops : list (op K V)) c :
  maxSize c = Num q -> keys_defined (map c) -> sets_defined_keys ops ->
  JsMap.size (map c) <= Z.max 1 (Qceiling q) ->
  maxSize (Trace.run c ops) = Num q
  /\ JsMap.size (map (Trace.run c ops)) <= Z.max 1 (Qceiling q).
Proof.
  unfold Trace.run. revert c.
  induction ops as [|o ops IH]; intros c Hmax Hdef Hops Hsize; [done |].
  apply Forall_cons in Hops as [Ho Hops]. simpl.
  assert (Ho' : sets_defined_keys [o]) by (by constructor).
  destruct (exec_size_bound q c o Hmax Hdef Ho' Hsize) as [Hmax' Hsize'].
  apply IH; [done | by apply exec_keys_defined | done | done].
Qed.
End KeyFacts.

(** ** Capacity and recency order *)

Section CacheRecency.
Context {K V : Type} `{EqDecision K} {key_class : JsKey K}.
Implicit Types (c : LRUCache K V) (key : K) (now : Z) (g : recency K)
  (m : list (K * CacheEntry V)).

Lemma keys_app m (k : K) (e : CacheEntry V) :
  JsMap.keys (m ++ [(k, e)]) = JsMap.keys m ++ [k].
Proof. unfold JsMap.keys. by rewrite fmap_app. Qed.

Lemma by_recency_nil g : by_recency g ([] : list (K * CacheEntry V)).
Proof. split; constructor. Qed.

Lemma by_recency_delete g k m : by_recency g m -> by_recency g (JsMap.delete k m).
Proof.
  unfold by_recency. induction m as [|[k0 e0] m IH]; simpl; [done |].
  unfold JsMap.keys in *. simpl.
  rewrite StronglySorted_cons, Forall_cons. intros [[Hall Hss] [Hk0 Hle]].
  destruct (IH (conj Hss Hle)) as [IH1 IH2].
  destruct (decide (k0 = k)); simpl; [done |].
  rewrite StronglySorted_cons, Forall_cons. split_and!; try done.
  apply Forall_forall. intros x Hx.
  apply (elem_of_keys_delete k x m) in Hx as [Hx _].
  by apply (proj1 (Forall_forall _ _) Hall).
Qed.

Lemma by_recency_purge_loop g now (l m : list (K * CacheEntry V)) :
  by_recency g m ->
  by_recency g
    (fold_left
       (fun m (ke : K * CacheEntry V) =>
          if expiresAt ke.2 <=? now then JsMap.delete ke.1 m else m) l m).
Proof.
  revert m. induction l as [|[k e0] l IH]; intros m Hm; simpl; [done |].
  apply IH. destruct (expiresAt e0 <=? now); [by apply by_recency_delete | done].
Qed.

Lemma by_recency_untouched g m : by_recency g m -> by_recency (Trace.note g None) m.
Proof.
  unfold by_recency, Trace.note. simpl. intros [Hss Hle]. split; [done |].
  eapply Forall_impl; [exact Hle |]. simpl. intros; lia.
Qed.

Lemma sorted_by_equal_stamps (f f' : K -> nat) (l : list K) :
  (forall a, a ∈ l -> f a = f' a) ->
  StronglySorted (fun a b => (f a < f b)%nat) l ->
  StronglySorted (fun a b => (f' a < f' b)%nat) l.
Proof.
  induction l as [|a l IH]; intros Heq Hss; [constructor |].
  apply StronglySorted_cons in Hss as [Hall Hss].
  apply StronglySorted_cons. split.
  - apply Forall_forall. intros b Hb.
    rewrite <- (Heq a), <- (Heq b);
      [| by apply list_elem_of_further | apply list_elem_of_here].
    by apply (proj1 (Forall_forall _ _) Hall).
  - apply IH; [| done]. intros b Hb. apply Heq. by apply list_elem_of_further.
Qed.

(** Touching [k] gives it the newest stamp and puts it last. *)
Lemma by_recency_touch g k now (e : CacheEntry V) m :
  by_recency g m -> JsMap.get k m = None ->
  by_recency (Trace.note g (Some (k, now))) (m ++ [(k, e)]).
Proof.
  unfold by_recency. rewrite keys_app. intros [Hss Hle] Hk.
  apply get_None_keys in Hk.
  assert (Hold : forall a, a ∈ JsMap.keys m ->
            stamp (Trace.note g (Some (k, now))) a = stamp g a).
  { intros a Ha. simpl. rewrite decide_False; [done |]. by intros ->. }
  split.
  - apply StronglySorted_app. split_and!.
    + intros a b Ha Hb. apply list_elem_of_singleton in Hb as ->.
      rewrite (Hold a Ha). simpl. rewrite decide_True by done.
      apply (proj1 (Forall_forall _ _) Hle) in Ha. lia.
    + eapply sorted_by_equal_stamps; [| exact Hss]. intros a Ha. by rewrite Hold.
    + repeat constructor.
  - apply Forall_app. split.
    + apply Forall_forall. intros a Ha. rewrite (Hold a Ha).
      apply (proj1 (Forall_forall _ _) Hle) in Ha. simpl. lia.
    + constructor; [| constructor]. simpl. by rewrite decide_True.
Qed.

Lemma by_recency_head g k (e : CacheEntry V) rest :
  by_recency g ((k, e) :: rest) ->
  Forall (fun k' => (stamp g k < stamp g k')%nat) (JsMap.keys rest)
  /\ JsMap.get k rest = None.
Proof.
  unfold by_recency, JsMap.keys. simpl.
  rewrite StronglySorted_cons. intros [[Hall _] _]. split; [done |].
  apply get_None_keys. intros Hin.
  apply (proj1 (Forall_forall _ _) Hall) in Hin. lia.
Qed.

Lemma by_clock_nil g T : by_clock g ([] : list (K * CacheEntry V)) T.
Proof. split; constructor. Qed.

Lemma by_clock_later g m T T' : T <= T' -> by_clock g m T -> by_clock g m T'.
Proof.
  intros Hle [Hss Hall]. split; [done |].
  eapply Forall_impl; [exact Hall |]. simpl. intros; lia.
Qed.

Lemma by_clock_delete g k m T : by_clock g m T -> by_clock g (JsMap.delete k m) T.
Proof.
  unfold by_clock. induction m as [|[k0 e0] m IH]; simpl; [done |].
  unfold JsMap.keys in *. simpl.
  rewrite StronglySorted_cons, Forall_cons. intros [[Hall Hss] [Hk0 Hle]].
  destruct (IH (conj Hss Hle)) as [IH1 IH2].
  destruct (decide (k0 = k)); simpl; [done |].
  rewrite StronglySorted_cons, Forall_cons. split_and!; try done.
  apply Forall_forall. intros x Hx.
  apply (elem_of_keys_delete k x m) in Hx as [Hx _].
  by apply (proj1 (Forall_forall _ _) Hall).
Qed.

Lemma by_clock_purge_loop g now T (l m : list (K * CacheEntry V)) :
  by_clock g m T ->
  by_clock g
    (fold_left
       (fun m (ke : K * CacheEntry V) =>
          if expiresAt ke.2 <=? now then JsMap.delete ke.1 m else m) l m) T.
Proof.
  revert m. induction l as [|[k e0] l IH]; intros m Hm; simpl; [done |].
  apply IH. destruct (expiresAt e0 <=? now); [by apply by_clock_delete | done].
Qed.

Lemma by_clock_untouched g m T : by_clock g m T -> by_clock (Trace.note g None) m T.
Proof. done. Qed.

Lemma sorted_by_equal_readings (f f' : K -> Z) (l : list K) :
  (forall a, a ∈ l -> f a = f' a) ->
  StronglySorted (fun a b => f a <= f b) l ->
  StronglySorted (fun a b => f' a <= f' b) l.
Proof.
  induction l as [|a l IH]; intros Heq Hss; [constructor |].
  apply StronglySorted_cons in Hss as [Hall Hss].
  apply StronglySorted_cons. split.
  - apply Forall_forall. intros b Hb.
    rewrite <- (Heq a), <- (Heq b);
      [| by apply list_elem_of_further | apply list_elem_of_here].
    by apply (proj1 (Forall_forall _ _) Hall).
  - apply IH; [| done]. intros b Hb. apply Heq. by apply list_elem_of_further.
Qed.

(** Touching [k] at a reading not before [T] puts it last in clock order
    too. *)
Lemma by_clock_touch g k now T (e : CacheEntry V) m :
  by_clock g m T -> JsMap.get k m = None -> T <= now ->
  by_clock (Trace.note g (Some (k, now))) (m ++ [(k, e)]) now.
Proof.
  unfold by_clock. rewrite keys_app. intros [Hss Hle] Hk HT.
  apply get_None_keys in Hk.
  assert (Hold : forall a, a ∈ JsMap.keys m ->
            seen (Trace.note g (Some (k, now))) a = seen g a).
  { intros a Ha. simpl. rewrite decide_False; [done |]. by intros ->. }
  split.
  - apply StronglySorted_app. split_and!.
    + intros a b Ha Hb. apply list_elem_of_singleton in Hb as ->.
      rewrite (Hold a Ha). simpl. rewrite decide_True by done.
      apply (proj1 (Forall_forall _ _) Hle) in Ha. lia.
    + eapply sorted_by_equal_readings; [| exact Hss]. intros a Ha. by rewrite Hold.
    + repeat constructor.
  - apply Forall_app. split.
    + apply Forall_forall. intros a Ha. rewrite (Hold a Ha).
      apply (proj1 (Forall_forall _ _) Hle) in Ha. lia.
    + constructor; [| constructor]. simpl. by rewrite decide_True.
Qed.

Lemma by_clock_head g k (e : CacheEntry V) rest T :
  by_clock g ((k, e) :: rest) T ->
  Forall (fun k' => seen g k <= seen g k') (JsMap.keys rest).
Proof.
  unfold by_clock, JsMap.keys. simpl.
  rewrite StronglySorted_cons. by intros [[Hall _] _].
Qed.

(** One operation at a reading not before [T] keeps the clock order. *)
Lemma exec_by_clock c g (o : op K V) T :
  by_clock g (map c) T ->
  (forall now, Trace.clock o = Some now -> T <= now) ->
  by_clock (Trace.note g (Trace.touched c o)) (map (Trace.exec c o))
    (default T (Trace.clock o)).
Proof.
  intros Hclk HT.
  destruct o as [k now|k val now|k now| |now]; simpl;
    try (specialize (HT now eq_refl)).
  - unfold Cache.get.
    destruct (JsMap.get k (map c)) as [e0|] eqn:Hk; simpl.
    + destruct (expiresAt e0 <=? now); simpl.
      * by apply by_clock_untouched, by_clock_delete, (by_clock_later g _ T).
      * rewrite set_absent by apply get_delete_eq.
        apply (by_clock_touch g k now T); [| apply get_delete_eq | done].
        by apply by_clock_delete.
    + by apply by_clock_untouched, (by_clock_later g _ T).
  - unfold Cache.set, JsMap.has. simpl.
    destruct (JsMap.get k (map c)) as [e0|] eqn:Hk.
    + rewrite set_absent by apply get_delete_eq.
      apply (by_clock_touch g k now T); [| apply get_delete_eq | done].
      by apply by_clock_delete.
    + destruct (size_ge (JsMap.size (map c)) (maxSize c));
        [| rewrite set_absent by done; by apply (by_clock_touch g k now T)].
      destruct (map c) as [|[k0 e0] rest] eqn:Hm.
      { simpl. by apply (by_clock_touch g k now T _ []). }
      simpl JsMap.first_key. cbv iota.
      destruct (is_undefined k0).
      { rewrite set_absent by done. by apply (by_clock_touch g k now T). }
      assert (Hk' : JsMap.get k (JsMap.delete k0 ((k0, e0) :: rest)) = None).
      { rewrite get_delete_ne; [done |]. intros ->.
        simpl in Hk. by rewrite decide_True in Hk. }
      rewrite set_absent by done.
      apply (by_clock_touch g k now T); [| done | done].
      by apply by_clock_delete.
  - unfold Cache.has.
    destruct (JsMap.get k (map c)) as [e0|] eqn:Hk; simpl.
    + destruct (expiresAt e0 <=? now); simpl.
      * by apply by_clock_untouched, by_clock_delete, (by_clock_later g _ T).
      * by apply by_clock_untouched, (by_clock_later g _ T).
    + by apply by_clock_untouched, (by_clock_later g _ T).
  - apply by_clock_nil.
  - by apply by_clock_untouched, by_clock_purge_loop, (by_clock_later g _ T).
Qed.

Lemma run_traced_by_clock (ops : list (op K V)) c g T :
  by_clock g (map c) T -> monotone (T :: Trace.readings ops) ->
  exists T', by_clock (Trace.run_traced c g ops).2
               (map (Trace.run_traced c g ops).1) T'.
Proof.
  revert c g T. induction ops as [|o ops IH]; intros c g T Hclk Hm.
  - by exists T.
  - simpl. destruct (Trace.clock o) as [now|] eqn:Hclock.
    + assert (Hr : Trace.readings (o :: ops) = now :: Trace.readings ops)
        by (unfold Trace.readings; simpl; by rewrite Hclock).
      rewrite Hr in Hm. destruct Hm as [Hall Hm].
      apply Forall_cons in Hall as [HT _].
      apply (IH _ _ now); [| done].
      pose proof (exec_by_clock c g o T Hclk) as Hstep.
      rewrite Hclock in Hstep. apply Hstep. by intros ? [= <-].
    + assert (Hr : Trace.readings (o :: ops) = Trace.readings ops)
        by (unfold Trace.readings; simpl; by rewrite Hclock).
      rewrite Hr in Hm. apply (IH _ _ T); [| done].
      pose proof (exec_by_clock c g o T Hclk) as Hstep.
      rewrite Hclock in Hstep. apply Hstep. by intros ? [=].
Qed.

Lemma monotone_from_hd (ts : list Z) (d : Z) : monotone ts -> monotone (hd d ts :: ts).
Proof.
  destruct ts as [|t ts]; simpl; [done |].
  intros [Hall Hm]. split; [| done]. constructor; [lia | done].
Qed.

(** One operation keeps the configuration, the bound on the size and the
    recency order. *)
Lemma exec_invariant (M : Z) c g (o : op K V) :
  0 < M -> maxSize c = M ->
  JsMap.size (map c) <= M -> by_recency g (map c) ->
  keys_defined (map c) ->
  maxSize (Trace.exec c o) = M
  /\ ttlMs (Trace.exec c o) = ttlMs c
  /\ JsMap.size (map (Trace.exec c o)) <= M
  /\ by_recency (Trace.note g (Trace.touched c o)) (map (Trace.exec c o)).
Proof.
  intros HM Hmax Hsize Hrec Hdef. unfold JsMap.size in *.
  destruct o as [k now|k val now|k now| |now]; simpl.
  - unfold Cache.get.
    destruct (JsMap.get k (map c)) as [e0|] eqn:Hk; simpl.
    + destruct (expiresAt e0 <=? now); simpl.
      * pose proof (length_delete_le k (map c)).
        split_and!; [done | done | lia |].
        by apply by_recency_untouched, by_recency_delete.
      * rewrite set_absent by apply get_delete_eq.
        assert (JsMap.get k (map c) <> None) as Hlt by (by rewrite Hk).
        apply length_delete_lt in Hlt.
        split_and!; [done | done | rewrite length_app; simpl; lia |].
        apply by_recency_touch; [by apply by_recency_delete | apply get_delete_eq].
    + split_and!; [done | done | lia | by apply by_recency_untouched].
  - unfold Cache.set, JsMap.has. simpl.
    destruct (JsMap.get k (map c)) as [e0|] eqn:Hk.
    + rewrite set_absent by apply get_delete_eq.
      assert (JsMap.get k (map c) <> None) as Hlt by (by rewrite Hk).
      apply length_delete_lt in Hlt.
      split_and!; [done | done | rewrite length_app; simpl; lia |].
      apply by_recency_touch; [by apply by_recency_delete | apply get_delete_eq].
    + rewrite Hmax, size_ge_int.
      destruct (Z.leb_spec M (JsMap.size (map c))) as [Hfull|Hroom];
        unfold JsMap.size in *.
      * destruct (map c) as [|[k0 e0] rest] eqn:Hm; simpl in *; [lia |].
        rewrite (keys_defined_head k0 e0 rest Hdef).
        destruct (decide (k0 = k)) as [->|Hne]; [done |].
        assert (Hk' : JsMap.get k (JsMap.delete k0 ((k0, e0) :: rest)) = None).
        { by rewrite get_delete_ne; [simpl; rewrite decide_False |]. }
        simpl in Hk'. rewrite decide_True in Hk' |- * by done.
        rewrite set_absent by done.
        pose proof (length_delete_le k0 rest).
        split_and!; [done | done | rewrite length_app; simpl; lia |].
        apply by_recency_touch; [| done].
        apply (by_recency_delete g k0) in Hrec. simpl in Hrec.
        by rewrite decide_True in Hrec.
      * rewrite set_absent by done.
        split_and!; [done | done | rewrite length_app; simpl; lia |].
        by apply by_recency_touch.
  - unfold Cache.has.
    destruct (JsMap.get k (map c)) as [e0|] eqn:Hk; simpl.
    + destruct (expiresAt e0 <=? now); simpl.
      * pose proof (length_delete_le k (map c)).
        split_and!; [done | done | lia |].
        by apply by_recency_untouched, by_recency_delete.
      * split_and!; [done | done | lia | by apply by_recency_untouched].
    + split_and!; [done | done | lia | by apply by_recency_untouched].
  - split_and!; [done | done | lia |].
    apply by_recency_untouched, by_recency_nil.
  - pose proof (length_purge_loop now (map c) (map c)).
    split_and!; [done | done | lia |].
    by apply by_recency_untouched, by_recency_purge_loop.
Qed.

Lemma run_traced_invariant (M : Z) (ops : list (op K V)) c g :
  0 < M -> maxSize c = M ->
  JsMap.size (map c) <= M -> by_recency g (map c) ->
  keys_defined (map c) -> sets_defined_keys ops ->
  let cg := Trace.run_traced c g ops in
  maxSize cg.1 = M /\ ttlMs cg.1 = ttlMs c
  /\ JsMap.size (map cg.1) <= M /\ by_recency cg.2 (map cg.1)
  /\ keys_defined (map cg.1).
Proof.
  intros HM. revert c g.
  induction ops as [|o ops IH]; intros c g Hmax Hsize Hrec Hdef Hops; simpl;
    [done |].
  apply Forall_cons in Hops as [Ho Hops].
  assert (Ho' : sets_defined_keys [o]) by (by constructor).
  destruct (exec_invariant M c g o HM Hmax Hsize Hrec Hdef) as (H1 & H2 & H3 & H4).
  destruct (IH _ _ H1 H3 H4 (exec_keys_defined c o Hdef Ho') Hops)
    as (? & Httl & ? & ? & ?).
  split_and!; try done. by rewrite <- H2.
Qed.

Lemma run_traced_fst (ops : list (op K V)) c g :
  (Trace.run_traced c g ops).1 = Trace.run c ops.
Proof.
  unfold Trace.run. revert c g.
  induction ops as [|o ops IH]; intros c g; simpl; [done | apply IH].
Qed.

(** C1, as amended. A cache built with a capacity that is a positive
    integer never holds more entries than the capacity, whatever operations
    are applied to it, as long as the key [undefined] is never set. When
    [set] meets a key that has no entry while the cache is full, the entry
    that leaves is the first of the map, whose last touch (a [set] of it or
    a [get] that found it live) is older than the last touch of every other
    entry; the others keep their order and the new entry is put last.
    Touches are numbered by the position of the operation in the sequence;
    with a clock that does not run backwards the clock reading of the last
    touch of the evicted entry is the least one, and among entries touched
    at the same reading the one touched by the earlier operation leaves. *)
Theorem capacity_bound_and_lru_eviction (capacity ttl : Z) (ops : list (op K V)) :
  0 < capacity -> sets_defined_keys ops ->
  let cg := Trace.run_traced (Cache.create capacity ttl) Trace.fresh ops in
  cg.1 = Trace.run (Cache.create capacity ttl) ops
  /\ JsMap.size (map cg.1) <= capacity
  /\ forall key (val : V) now,
       JsMap.has key (map cg.1) = false ->
       capacity <= JsMap.size (map cg.1) ->
       exists oldestKey entry rest,
         map cg.1 = (oldestKey, entry) :: rest
         /\ map (Cache.set cg.1 key val now)
            = rest ++ [(key, {| value := val; expiresAt := now + ttl |})]
         /\ JsMap.get oldestKey (map (Cache.set cg.1 key val now)) = None
         /\ Forall (fun k => (stamp cg.2 oldestKey < stamp cg.2 k)%nat)
              (JsMap.keys rest)
         /\ (monotone (Trace.readings ops) ->
             Forall (fun k => seen cg.2 oldestKey <= seen cg.2 k)
               (JsMap.keys rest)).
Proof.
  intros Hpos Hops cg.
  destruct (run_traced_invariant capacity ops (Cache.create capacity ttl)
              Trace.fresh Hpos eq_refl) as (Hmax & Httl & Hsize & Hrec & Hdef).
  { unfold JsMap.size. simpl. lia. }
  { apply by_recency_nil. }
  { constructor. }
  { done. }
  fold cg in Hmax, Httl, Hsize, Hrec, Hdef. simpl in Httl.
  split; [apply run_traced_fst |]. split; [done |].
  intros key val now Habsent Hfull.
  unfold JsMap.has in Habsent.
  destruct (JsMap.get key (map cg.1)) as [|] eqn:Hkey; [done |].
  destruct (map cg.1) as [|[oldestKey entry] rest] eqn:Hm.
  { unfold JsMap.size in Hfull. simpl in Hfull. lia. }
  destruct (by_recency_head _ _ _ _ Hrec) as [Hold Hnd].
  exists oldestKey, entry, rest. split; [done |].
  assert (Hne : oldestKey <> key).
  { intros ->. simpl in Hkey. by rewrite decide_True in Hkey. }
  assert (Hrest : JsMap.get key rest = None).
  { simpl in Hkey. by rewrite decide_False in Hkey. }
  assert (Hset : map (Cache.set cg.1 key val now)
                 = rest ++ [(key, {| value := val; expiresAt := now + ttl |})]).
  { unfold Cache.set, JsMap.has. simpl. rewrite Hm, Hkey, Hmax, Httl, size_ge_int.
    replace (capacity <=? JsMap.size ((oldestKey, entry) :: rest)) with true
      by (symmetry; apply Z.leb_le; done).
    simpl. rewrite (keys_defined_head oldestKey entry rest Hdef).
    rewrite decide_True by done.
    rewrite (delete_absent oldestKey rest Hnd). by rewrite set_absent. }
  split; [done |]. split_and!; [| done |].
  - rewrite Hset, get_app_absent, Hnd. by rewrite decide_False.
  - intros Hmono.
    destruct (run_traced_by_clock ops (Cache.create capacity ttl) Trace.fresh
                (hd 0 (Trace.readings ops))) as [T' Hclk].
    { apply by_clock_nil. }
    { by apply monotone_from_hd. }
    fold cg in Hclk. rewrite Hm in Hclk. by apply by_clock_head in Hclk.
Qed.
End CacheRecency.

(** ** The recency scenario and the constructor *)

Section CacheScenario.
Context {K V : Type} `{EqDecision K} {key_class : JsKey K}.

Ltac eval_op :=
  unfold Cache.set, Cache.get, JsMap.has, Cache.with_map, Cache.hit,
    Cache.miss;
  rewrite ?size_ge_int; unfold JsMap.size;
  simpl;
  do 4 (rewrite ?decide_True, ?decide_False by done; simpl).

(** C6, as amended. Capacity 2: after [set(A)], [set(B)], a [get(A)]
    issued before the entry of [A] expires and then [set(C)] for a third
    key, the entry of [B] is the one evicted and the map holds [A] then
    [C]. When [C] is also inserted before the [get], that insertion
    already evicts [A]: the [get(A)] misses and the map ends as [B] then
    [C]. The key to evict is not the value [undefined], which [set] never
    evicts. *)
Theorem recency_update (ttl : Z) (A B C : K) (vA vB vC vC' : V)
    (tA tB tC tg tC' : Z) :
  A <> B -> A <> C -> B <> C ->
  (tg < tA + ttl -> is_undefined B = false ->
   let c2 := Trace.run (Cache.create 2 ttl) [OpSet A vA tA; OpSet B vB tB] in
   let c := Trace.run c2 [OpGet A tg; OpSet C vC tC] in
   (Cache.get c2 A tg).1 = Some vA
   /\ JsMap.get B (map c) = None
   /\ map c = [(A, {| value := vA; expiresAt := tA + ttl |});
               (C, {| value := vC; expiresAt := tC + ttl |})])
  /\
  (is_undefined A = false ->
   let c3 := Trace.run (Cache.create 2 ttl)
               [OpSet A vA tA; OpSet B vB tB; OpSet C vC tC] in
   let c := Trace.run c3 [OpGet A tg; OpSet C vC' tC'] in
   (Cache.get c3 A tg).1 = None
   /\ JsMap.get A (map c) = None
   /\ map c = [(B, {| value := vB; expiresAt := tB + ttl |});
               (C, {| value := vC'; expiresAt := tC' + ttl |})]).
Proof.
  intros HAB HAC HBC.
  assert (HBA : B <> A) by congruence.
  assert (HCA : C <> A) by congruence.
  assert (HCB : C <> B) by congruence.
  set (eA := {| value := vA; expiresAt := tA + ttl |}).
  set (eB := {| value := vB; expiresAt := tB + ttl |}).
  assert (H1 : Cache.set (Cache.create 2 ttl) A vA tA
               = Build_LRUCache 2 ttl [(A, eA)] 0 0) by done.
  assert (H2 : Cache.set (Build_LRUCache 2 ttl [(A, eA)] 0 0) B vB tB
               = Build_LRUCache 2 ttl [(A, eA); (B, eB)] 0 0) by (by eval_op).
  split.
  - intros Hlive HuB c2 c.
    assert (Hleb : (tA + ttl <=? tg) = false) by (apply Z.leb_gt; lia).
    assert (Hc2 : c2 = Build_LRUCache 2 ttl [(A, eA); (B, eB)] 0 0).
    { unfold c2, Trace.run. simpl. by rewrite H1, H2. }
    assert (H3 : Cache.get c2 A tg
                 = (Some vA, Build_LRUCache 2 ttl [(B, eB); (A, eA)] 1 0)).
    { rewrite Hc2. eval_op. rewrite Hleb. by eval_op. }
    assert (Hc : c = Build_LRUCache 2 ttl
                   [(A, eA); (C, {| value := vC; expiresAt := tC + ttl |})] 1 0).
    { unfold c, Trace.run. simpl. rewrite H3. eval_op. rewrite HuB. by eval_op. }
    rewrite H3, Hc. simpl. split_and!; try done.
    by rewrite !decide_False.
  - intros HuA c3 c.
    assert (Hc3 : c3 = Build_LRUCache 2 ttl
                    [(B, eB); (C, {| value := vC; expiresAt := tC + ttl |})] 0 0).
    { unfold c3, Trace.run. simpl. rewrite H1, H2. eval_op. rewrite HuA.
      by eval_op. }
    assert (H3 : Cache.get c3 A tg
                 = (None, Build_LRUCache 2 ttl
                     [(B, eB); (C, {| value := vC; expiresAt := tC + ttl |})] 0 1)).
    { rewrite Hc3. by eval_op. }
    assert (Hc : c = Build_LRUCache 2 ttl
                   [(B, eB); (C, {| value := vC'; expiresAt := tC' + ttl |})] 0 1).
    { unfold c, Trace.run. simpl. rewrite H3. by eval_op. }
    rewrite H3, Hc. simpl. split_and!; try done.
    by rewrite !decide_False.
Qed.

End CacheScenario.

(** C6, as stated: on the cache of capacity 2, after [A], [B], [C] were
    inserted, then [get(A)], then [set(C)], it is not the case that [B] is
    gone while [A] and [C] remain. *)
Lemma recency_example_keeps_B_not_A :
  ~ (JsMap.has "B"%string (map recency_example) = false
     /\ JsMap.has "A"%string (map recency_example) = true
     /\ JsMap.has "C"%string (map recency_example) = true).
Proof. vm_compute. intros [HB _]. discriminate HB. Qed.

Lemma recency_update_witness :
  ("A"%string <> "B"%string /\ "A"%string <> "C"%string
   /\ "B"%string <> "C"%string /\ 3 < 0 + 60000
   /\ is_undefined "B"%string = false)
  /\ map (Trace.run
            (Trace.run (Cache.create 2 60000)
               [OpSet "A"%string 1%nat 0; OpSet "B"%string 2%nat 1])
            [OpGet "A"%string 3; OpSet "C"%string 3%nat 4])
     = [("A"%string, {| value := 1%nat; expiresAt := 0 + 60000 |});
        ("C"%string, {| value := 3%nat; expiresAt := 4 + 60000 |})].
Proof.
  assert (H1 : "A"%string <> "B"%string) by discriminate.
  assert (H2 : "A"%string <> "C"%string) by discriminate.
  assert (H3 : "B"%string <> "C"%string) by discriminate.
  assert (H4 : 3 < 0 + 60000) by lia.
  assert (H5 : is_undefined "B"%string = false) by reflexivity.
  split; [done |].
  destruct (recency_update (V := nat) 60000 "A"%string "B"%string "C"%string
              1%nat 2%nat 3%nat 3%nat 0 1 4 3 4 H1 H2 H3) as [Hlive _].
  exact (proj2 (proj2 (Hlive H4 H5))).
Defined.


(** ** Reachable caches have distinct keys *)

Section CacheWellFormed.
Context {K V : Type} `{EqDecision K} {key_class : JsKey K}.
Implicit Types (c : LRUCache K V) (m : list (K * CacheEntry V)).

Lemma NoDup_keys_purge_loop now (l m : list (K * CacheEntry V)) :
  NoDup (JsMap.keys m) ->
  NoDup (JsMap.keys
    (fold_left
       (fun m (ke : K * CacheEntry V) =>
          if expiresAt ke.2 <=? now then JsMap.delete ke.1 m else m) l m)).
Proof.
  revert m. induction l as [|[k e0] l IH]; intros m Hm; simpl; [done |].
  apply IH. destruct (expiresAt e0 <=? now); [by apply NoDup_keys_delete | done].
Qed.

Lemma NoDup_keys_reinsert (k : K) (e : CacheEntry V) m :
  NoDup (JsMap.keys m) ->
  NoDup (JsMap.keys (JsMap.set k e (JsMap.delete k m))).
Proof.
  intros Hnd. rewrite set_absent by apply get_delete_eq.
  apply NoDup_keys_append; [apply get_delete_eq | by apply NoDup_keys_delete].
Qed.

Lemma exec_distinct_keys c (o : op K V) :
  distinct_keys c -> distinct_keys (Trace.exec c o).
Proof.
  unfold distinct_keys. intros Hnd.
  destruct o as [k now|k val now|k now| |now]; simpl.
  - unfold Cache.get. destruct (JsMap.get k (map c)) as [e0|]; simpl; [| done].
    destruct (expiresAt e0 <=? now); simpl;
      [by apply NoDup_keys_delete | by apply NoDup_keys_reinsert].
  - unfold Cache.set, JsMap.has. simpl.
    destruct (JsMap.get k (map c)) as [e0|] eqn:Hk;
      [by apply NoDup_keys_reinsert |].
    destruct (size_ge (JsMap.size (map c)) (maxSize c)).
    + destruct (JsMap.first_key (map c)) as [oldestKey|].
      * destruct (is_undefined oldestKey);
          [rewrite set_absent by done; by apply NoDup_keys_append |].
        destruct (decide (oldestKey = k)) as [->|Hne].
        -- by apply NoDup_keys_reinsert.
        -- rewrite set_absent by (by rewrite get_delete_ne).
           apply NoDup_keys_append; [by rewrite get_delete_ne |].
           by apply NoDup_keys_delete.
      * rewrite set_absent by done. by apply NoDup_keys_append.
    + rewrite set_absent by done. by apply NoDup_keys_append.
  - unfold Cache.has. destruct (JsMap.get k (map c)) as [e0|]; simpl; [| done].
    destruct (expiresAt e0 <=? now); simpl; [by apply NoDup_keys_delete | done].
  - constructor.
  - by apply NoDup_keys_purge_loop.
Qed.

(** Every cache reached from a new one by the operations of the class has
    pairwise distinct keys. *)
Lemma reachable_distinct_keys (options_maxSize : number) (options_ttlMs : Z)
    (ops : list (op K V)) :
  distinct_keys (Trace.run (Cache.create options_maxSize options_ttlMs) ops).
Proof.
  unfold Trace.run.
  assert (H0 : distinct_keys (Cache.create (K := K) (V := V)
                                options_maxSize options_ttlMs)) by constructor.
  revert H0. generalize (Cache.create (K := K) (V := V)
                           options_maxSize options_ttlMs).
  induction ops as [|o ops IH]; intros c Hc; simpl; [done |].
  by apply IH, exec_distinct_keys.
Qed.
End CacheWellFormed.

(** Witnesses for the statements about the cache. *)

Lemma small_cache_distinct_keys : distinct_keys small_cache.
Proof. apply reachable_distinct_keys. Qed.

Lemma capacity_bound_and_lru_eviction_witness :
  (0 < 2 /\ sets_defined_keys three_inserts
   /\ JsMap.has 9 (map small_cache) = false
   /\ 2 <= JsMap.size (map small_cache))
  /\ JsMap.size (map small_cache) <= 2
  /\ map (Cache.set small_cache 9 "nine"%string 30)
     = [(3, {| value := "three"%string; expiresAt := 20 + 1000 |});
        (9, {| value := "nine"%string; expiresAt := 30 + 1000 |})]
  /\ JsMap.get 2 (map (Cache.set small_cache 9 "nine"%string 30)) = None.
Proof.
  assert (Hpos : 0 < 2) by lia.
  assert (Hops : sets_defined_keys three_inserts) by (repeat constructor).
  assert (Habsent : JsMap.has 9 (map small_cache) = false) by reflexivity.
  assert (Hfull : 2 <= JsMap.size (map small_cache)) by (change (2 <= 2); lia).
  split; [done |].
  destruct (capacity_bound_and_lru_eviction (K := Z) (V := string)
              2 1000 three_inserts Hpos Hops) as (Heq & Hsize & Hevict).
  fold small_cache in Heq. rewrite Heq in Hsize, Hevict.
  split; [exact Hsize |].
  destruct (Hevict 9 "nine"%string 30 Habsent Hfull)
    as (oldestKey & entry & rest & Hmap & Hset & Hgone & _).
  injection Hmap as <- <- <-.
  split; [exact Hset | exact Hgone].
Defined.

(** C1, as stated: a positive maximum size does not bound the number of
    entries. A cache of capacity 1.5 holds two entries after two
    insertions. A cache of capacity 1 in which the key [undefined] was
    inserted first never evicts: after two more insertions it holds three
    entries. *)
Lemma positive_capacity_is_exceeded :
  ~ (positive (Num (3 # 2)) ->
     at_most (JsMap.size (map fractional_cache)) (Num (3 # 2)))
  /\ ~ (positive 1 ->
        at_most (JsMap.size (map undefined_key_cache)) 1).
Proof.
  split; intros Hbound.
  - assert (Hpos : positive (Num (3 # 2))) by reflexivity.
    apply Hbound in Hpos. vm_compute in Hpos. by apply Hpos.
  - assert (Hpos : positive 1) by reflexivity.
    apply Hbound in Hpos. vm_compute in Hpos. by apply Hpos.
Qed.

Lemma get_at_or_after_expiry_misses_witness :
  (no_set 1 [OpGet 1 500; OpSet 2 "two"%string 600; OpPurgeStale 700]
   /\ 0 + ttlMs (Cache.create (K := Z) (V := string) 2 1000) <= 1000)
  /\ (Cache.get
        (Trace.run (Cache.set (Cache.create 2 1000) 1 "one"%string 0)
           [OpGet 1 500; OpSet 2 "two"%string 600; OpPurgeStale 700])
        1 1000).1 = None.
Proof.
  assert (Hns : no_set 1 [OpGet 1 500; OpSet 2 "two"%string 600;
                          OpPurgeStale 700]).
  { unfold no_set. repeat constructor. discriminate. }
  assert (Hle : 0 + ttlMs (Cache.create (K := Z) (V := string) 2 1000) <= 1000)
    by (simpl; lia).
  split; [done |].
  exact (proj1 (get_at_or_after_expiry_misses
                  (Cache.create 2 1000) 1 "one"%string 0 _ 1000 Hns Hle)).
Defined.


Lemma purgeStale_removes_exactly_the_expired_witness :
  distinct_keys small_cache
  /\ map (Cache.purgeStale small_cache 1010)
     = List.filter (live 1010) (map small_cache).
Proof.
  split; [exact small_cache_distinct_keys |].
  exact (proj1 (purgeStale_removes_exactly_the_expired small_cache 1010
                  small_cache_distinct_keys)).
Defined.

(** ** The rate limiter *)

Section LimiterFacts.
Implicit Types (m : gmap string RateLimitState) (ip : string) (now : Z)
  (ts A : list Z) (reqs : list (string * Z)).

Lemma prune_is_prune_spec window now ts :
  List.filter (fun t => now - t <=? window) ts = Limiter.prune_spec window now ts.
Proof.
  unfold Limiter.prune_spec. apply filter_ext. intros t.
  destruct (Z.leb_spec (now - t) window), (Z.ltb_spec t (now - window));
    simpl; try done; lia.
Qed.

Lemma rateLimiter_is_check_spec m ip now :
  Limiter.rateLimiter m ip now
  = ((Limiter.check_spec (Limiter.state_of m ip) now).1,
     <[ip := (Limiter.check_spec (Limiter.state_of m ip) now).2]> m).
Proof.
  unfold Limiter.rateLimiter, Limiter.check_spec, Limiter.state_of.
  rewrite <- !prune_is_prune_spec.
  set (st := match m !! ip with Some state => state | None => _ end).
  set (l60 := List.filter _ (last60s st)). set (l10 := List.filter _ (last10s st)).
  unfold MAX_PER_MINUTE, BURST_PER_10_SECONDS.
  destruct (Nat.leb_spec 10 (length l60)) as [H60|H60];
    destruct (Nat.leb_spec 5 (length l10)) as [H10|H10]; cbn [orb].
  - rewrite bool_decide_eq_true_2 by (by left). done.
  - rewrite bool_decide_eq_true_2 by (by left). done.
  - rewrite bool_decide_eq_true_2 by (by right). done.
  - rewrite bool_decide_eq_false_2 by lia. done.
Qed.

Lemma state_of_rateLimiter_same m ip now :
  Limiter.state_of (Limiter.rateLimiter m ip now).2 ip
  = (Limiter.check_spec (Limiter.state_of m ip) now).2.
Proof.
  rewrite rateLimiter_is_check_spec. simpl.
  unfold Limiter.state_of at 1. by rewrite lookup_insert_eq.
Qed.

Lemma lookup_rateLimiter_other m ip ip' now :
  ip <> ip' -> (Limiter.rateLimiter m ip now).2 !! ip' = m !! ip'.
Proof.
  intros Hne. rewrite rateLimiter_is_check_spec. simpl.
  by rewrite lookup_insert_ne.
Qed.

Lemma filter_window_twice (window tl now : Z) ts :
  tl <= now ->
  List.filter (fun t => now - t <=? window)
    (List.filter (fun t => tl - t <=? window) ts)
  = List.filter (fun t => now - t <=? window) ts.
Proof.
  intros Hle. induction ts as [|t ts IH]; simpl; [done |].
  destruct (Z.leb_spec (tl - t) window) as [Hin|Hout]; simpl.
  - by rewrite IH.
  - rewrite IH.
    by replace (now - t <=? window) with false by (symmetry; apply Z.leb_gt; lia).
Qed.

Lemma serve_cons m ip now reqs :
  Limiter.serve m ((ip, now) :: reqs)
  = ((Limiter.rateLimiter m ip now).1
       :: (Limiter.serve (Limiter.rateLimiter m ip now).2 reqs).1,
     (Limiter.serve (Limiter.rateLimiter m ip now).2 reqs).2).
Proof.
  simpl. destruct (Limiter.rateLimiter m ip now) as [v m']. simpl.
  by destruct (Limiter.serve m' reqs).
Qed.

Lemma granted_cons m ip ip' now reqs :
  Limiter.granted m ip ((ip', now) :: reqs)
  = (match (Limiter.rateLimiter m ip' now).1 with
     | Next => if decide (ip' = ip) then [now] else []
     | TooManyRequests => []
     end) ++ Limiter.granted (Limiter.rateLimiter m ip' now).2 ip reqs.
Proof.
  simpl. destruct (Limiter.rateLimiter m ip' now) as [[|] m']; simpl; [| done].
  by destruct (decide (ip' = ip)).
Qed.

Lemma tracks_fresh ip tl : tracks ∅ ip [] tl.
Proof. intros now _. unfold Limiter.state_of. by rewrite lookup_empty. Qed.

Lemma tracks_later m ip A tl tl' : tl <= tl' -> tracks m ip A tl -> tracks m ip A tl'.
Proof. intros Hle Ht now Hnow. apply Ht. lia. Qed.

Lemma tracks_other m ip ip' A tl now :
  ip' <> ip -> tracks m ip A tl -> tracks (Limiter.rateLimiter m ip' now).2 ip A tl.
Proof.
  intros Hne Ht now' Hnow'. unfold Limiter.state_of.
  rewrite lookup_rateLimiter_other by done. by apply Ht.
Qed.

(** One request of [ip] at a reading [now] not before [tl]. *)
Lemma tracks_step m ip A tl now :
  tracks m ip A tl -> tl <= now ->
  ((Limiter.rateLimiter m ip now).1 = TooManyRequests <->
     (10 <= Limiter.within 60000 now A \/ 5 <= Limiter.within 10000 now A)%nat)
  /\ tracks (Limiter.rateLimiter m ip now).2 ip
       (A ++ match (Limiter.rateLimiter m ip now).1 with
             | Next => [now]
             | TooManyRequests => []
             end) now.
Proof.
  intros Ht Hle. destruct (Ht now Hle) as [H60 H10].
  unfold tracks. rewrite state_of_rateLimiter_same.
  rewrite rateLimiter_is_check_spec. simpl.
  unfold Limiter.check_spec, Limiter.within.
  rewrite <- !prune_is_prune_spec, H60, H10.
  set (l60 := List.filter _ A). set (l10 := List.filter (fun t => now - t <=? 10000) A).
  destruct (bool_decide (10 <= length l60 ∨ 5 <= length l10)%nat) eqn:Hd; simpl.
  - apply bool_decide_eq_true in Hd. split; [done |].
    intros now' Hnow'. rewrite app_nil_r. unfold l60, l10.
    by rewrite !filter_window_twice.
  - apply bool_decide_eq_false in Hd. split; [done |].
    intros now' Hnow'. unfold l60, l10.
    by rewrite !List.filter_app, !filter_window_twice.
Qed.

Lemma last_cons (a d : Z) ts : List.last (a :: ts) d = List.last ts a.
Proof.
  revert a d. induction ts as [|b ts IH]; intros a d; [done |].
  change (List.last (a :: b :: ts) d) with (List.last (b :: ts) d).
  by rewrite !IH.
Qed.

Lemma monotone_app_last ts now tl :
  monotone (tl :: ts ++ [now]) -> List.last ts tl <= now.
Proof.
  revert tl. induction ts as [|t ts IH]; intros tl.
  - simpl. intros [Hall _]. by apply Forall_inv in Hall.
  - rewrite last_cons. intros [_ Hm]. by apply IH.
Qed.

Lemma serve_tracks reqs m ip A tl :
  tracks m ip A tl -> monotone (tl :: reqs.*2) ->
  tracks (Limiter.serve m reqs).2 ip (A ++ Limiter.granted m ip reqs)
    (List.last reqs.*2 tl).
Proof.
  revert m A tl. induction reqs as [|[ip' now] reqs IH]; intros m A tl Ht Hm.
  - simpl. by rewrite app_nil_r.
  - rewrite serve_cons, granted_cons. simpl snd.
    rewrite fmap_cons in Hm |- *. simpl in Hm. destruct Hm as [Hall Hm].
    assert (Hle : tl <= now) by (by apply Forall_inv in Hall).
    simpl fst. rewrite last_cons, app_assoc. apply IH; [| done].
    destruct (decide (ip' = ip)) as [->|Hne].
    + destruct (tracks_step m ip A tl now Ht Hle) as [_ Hstep].
      by destruct (Limiter.rateLimiter m ip now).1.
    + apply tracks_other; [done |].
      replace (A ++ _) with A.
      * by apply (tracks_later m ip A tl now).
      * destruct (Limiter.rateLimiter m ip' now).1; by rewrite app_nil_r.
Qed.
End LimiterFacts.

Section LimiterRuns.
Implicit Types (m : gmap string RateLimitState) (ip : string) (now : Z)
  (ts A : list Z) (reqs : list (string * Z)).

Lemma check_spec_within_ceilings (st : RateLimitState) now :
  (length (last60s st) <= 10)%nat -> (length (last10s st) <= 5)%nat ->
  (length (last60s (Limiter.check_spec st now).2) <= 10)%nat
  /\ (length (last10s (Limiter.check_spec st now).2) <= 5)%nat.
Proof.
  intros H60 H10. unfold Limiter.check_spec, Limiter.prune_spec.
  set (l60 := List.filter _ (last60s st)). set (l10 := List.filter _ (last10s st)).
  assert (length l60 <= length (last60s st))%nat by apply filter_length_le.
  assert (length l10 <= length (last10s st))%nat by apply filter_length_le.
  destruct (bool_decide (10 <= length l60 ∨ 5 <= length l10)%nat) eqn:Hd; simpl.
  - lia.
  - apply bool_decide_eq_false in Hd. rewrite !length_app. simpl. lia.
Qed.

Lemma rateLimiter_within_ceilings m ip now :
  within_ceilings m -> within_ceilings (Limiter.rateLimiter m ip now).2.
Proof.
  intros Hm ip'. destruct (decide (ip = ip')) as [<-|Hne].
  - rewrite state_of_rateLimiter_same.
    apply check_spec_within_ceilings; apply Hm.
  - unfold Limiter.state_of. rewrite lookup_rateLimiter_other by done. apply Hm.
Qed.

Lemma serve_within_ceilings reqs m :
  within_ceilings m -> within_ceilings (Limiter.serve m reqs).2.
Proof.
  revert m. induction reqs as [|[ip now] reqs IH]; intros m Hm; [done |].
  rewrite serve_cons. simpl. by apply IH, rateLimiter_within_ceilings.
Qed.

Lemma within_ceilings_empty : within_ceilings ∅.
Proof.
  intros ip. unfold Limiter.state_of. rewrite lookup_empty. simpl. lia.
Qed.

Lemma snd_from_ip ip ts : (from_ip ip ts).*2 = ts.
Proof.
  unfold from_ip. induction ts as [|t ts IH]; [done |].
  simpl. f_equal. exact IH.
Qed.

Lemma monotone_app_l ts ts' : monotone (ts ++ ts') -> monotone ts.
Proof.
  induction ts as [|t ts IH]; simpl; [done |].
  intros [Hall Hm]. split; [| by apply IH].
  by apply Forall_app in Hall as [? _].
Qed.

Lemma monotone_hd ts now :
  monotone (ts ++ [now]) -> monotone (hd now ts :: ts ++ [now]).
Proof.
  destruct ts as [|t ts]; simpl.
  - intros _. split; [| done]. constructor; [lia | constructor].
  - intros [Hall Hm]. split; [| done]. constructor; [lia | done].
Qed.

Lemma monotone_hd_le ts now t :
  monotone (ts ++ [now]) -> t ∈ ts -> hd now ts <= t /\ t <= now.
Proof.
  induction ts as [|t0 ts IH]; simpl.
  - intros _ Hin. by apply elem_of_nil in Hin.
  - intros [Hall Hm] Hin. apply Forall_app in Hall as [Hts Hnow].
    apply Forall_inv in Hnow. apply elem_of_cons in Hin as [->|Hin].
    + lia.
    + apply (proj1 (Forall_forall _ _) Hts) in Hin as Hle.
      destruct (IH Hm Hin) as [_ ?]. lia.
Qed.

Lemma within_all (window now : Z) ts :
  (forall t, t ∈ ts -> now - t <= window) ->
  Limiter.within window now ts = length ts.
Proof.
  unfold Limiter.within. induction ts as [|t ts IH]; intros Hall; simpl; [done |].
  replace (now - t <=? window) with true
    by (symmetry; apply Z.leb_le, Hall, list_elem_of_here).
  simpl. rewrite IH; [done |]. intros t' Ht'. by apply Hall, list_elem_of_further.
Qed.

Lemma serve_from_ip ts m ip :
  (Limiter.serve m (from_ip ip ts)).1 = (checks (Limiter.state_of m ip) ts).1.
Proof.
  revert m. induction ts as [|t ts IH]; intros m; [done |].
  unfold from_ip in *. simpl List.map. rewrite serve_cons. simpl.
  rewrite IH, state_of_rateLimiter_same. by rewrite rateLimiter_is_check_spec.
Qed.

Lemma granted_all_next ts m ip :
  (Limiter.serve m (from_ip ip ts)).1 = replicate (length ts) Next ->
  Limiter.granted m ip (from_ip ip ts) = ts.
Proof.
  revert m. induction ts as [|t ts IH]; intros m; [done |].
  unfold from_ip in *. simpl List.map. rewrite serve_cons, granted_cons. simpl.
  intros [= Hv Hvs]. rewrite Hv, decide_True by done. simpl. by rewrite IH.
Qed.

Lemma checks_cons (st : RateLimitState) t ts :
  checks st (t :: ts)
  = ((Limiter.check_spec st t).1 :: (checks (Limiter.check_spec st t).2 ts).1,
     (checks (Limiter.check_spec st t).2 ts).2).
Proof. reflexivity. Qed.

Lemma check_spec_room (st : RateLimitState) now :
  (length (last60s st) < 10)%nat -> (length (last10s st) < 5)%nat ->
  (Limiter.check_spec st now).1 = Next
  /\ (length (last60s (Limiter.check_spec st now).2) <= S (length (last60s st)))%nat
  /\ (length (last10s (Limiter.check_spec st now).2) <= S (length (last10s st)))%nat.
Proof.
  intros H60 H10. unfold Limiter.check_spec, Limiter.prune_spec.
  set (l60 := List.filter _ (last60s st)). set (l10 := List.filter _ (last10s st)).
  assert (length l60 <= length (last60s st))%nat by apply filter_length_le.
  assert (length l10 <= length (last10s st))%nat by apply filter_length_le.
  rewrite bool_decide_eq_false_2 by lia. simpl.
  rewrite !length_app. simpl. split_and!; [done | lia | lia].
Qed.

(** While the sequences are short enough, every check lets through. *)
Lemma checks_all_next ts (st : RateLimitState) :
  (length (last60s st) + length ts <= 10)%nat ->
  (length (last10s st) + length ts <= 5)%nat ->
  (checks st ts).1 = replicate (length ts) Next.
Proof.
  revert st. induction ts as [|t ts IH]; intros st H60 H10; [done |].
  rewrite checks_cons. simpl in *.
  destruct (check_spec_room st t) as (-> & ? & ?); [lia | lia |].
  f_equal. apply IH; lia.
Qed.

(** The verdict on a request, from the granted requests before it. *)
Lemma verdict_from_history reqs ip now :
  monotone (reqs.*2 ++ [now]) ->
  ((Limiter.rateLimiter (Limiter.serve ∅ reqs).2 ip now).1 = TooManyRequests <->
     (10 <= Limiter.within 60000 now (Limiter.granted ∅ ip reqs)
      \/ 5 <= Limiter.within 10000 now (Limiter.granted ∅ ip reqs))%nat)
  /\ (Limiter.within 60000 now (Limiter.granted ∅ ip reqs) <= 10)%nat
  /\ (Limiter.within 10000 now (Limiter.granted ∅ ip reqs) <= 5)%nat.
Proof.
  intros Hm. apply monotone_hd in Hm.
  assert (Hm' : monotone (hd now reqs.*2 :: reqs.*2)).
  { apply (monotone_app_l _ [now]). by rewrite <- app_comm_cons. }
  pose proof (serve_tracks reqs ∅ ip [] _ (tracks_fresh ip _) Hm') as Ht.
  simpl in Ht. apply monotone_app_last in Hm.
  split; [by apply (tracks_step _ _ _ _ _ Ht Hm) |].
  destruct (Ht now Hm) as [H60 H10].
  destruct (serve_within_ceilings reqs ∅ within_ceilings_empty ip) as [B60 B10].
  unfold Limiter.within. rewrite <- H60, <- H10. split.
  - etransitivity; [apply filter_length_le | done].
  - etransitivity; [apply filter_length_le | done].
Qed.

(** C3. The middleware prunes both sequences of the identity to the
    readings not strictly older than [now] minus the window (60 s and
    10 s), refuses exactly when the pruned 60 s sequence has at least 10
    readings or the pruned 10 s sequence at least 5, and otherwise appends
    [now] to both and lets the request through; other identities are not
    affected. With a clock that does not run backwards, a request is
    refused exactly when 10 granted requests of the identity lie in the
    last 60 s or 5 in the last 10 s, so never more than 10 (5) granted
    requests lie in a 60 s (10 s) window. After ten granted requests
    within 60 s the eleventh is refused; one request every three seconds
    is granted ten times, the eleventh is refused 60 s after the first and
    granted one millisecond later. The first five requests of an identity
    are granted, and a sixth within 10 s of the first is refused although
    only five requests lie in the 60 s window. *)
Theorem dual_window_rate_limit :
  (forall m ip now,
     Limiter.rateLimiter m ip now
     = ((Limiter.check_spec (Limiter.state_of m ip) now).1,
        <[ip := (Limiter.check_spec (Limiter.state_of m ip) now).2]> m))
  /\ (forall m ip ip' now,
        ip <> ip' -> (Limiter.rateLimiter m ip now).2 !! ip' = m !! ip')
  /\ (forall reqs ip now,
        monotone (reqs.*2 ++ [now]) ->
        ((Limiter.rateLimiter (Limiter.serve ∅ reqs).2 ip now).1 = TooManyRequests
         <-> (10 <= Limiter.within 60000 now (Limiter.granted ∅ ip reqs)
              \/ 5 <= Limiter.within 10000 now (Limiter.granted ∅ ip reqs))%nat)
        /\ (Limiter.within 60000 now (Limiter.granted ∅ ip reqs) <= 10)%nat
        /\ (Limiter.within 10000 now (Limiter.granted ∅ ip reqs) <= 5)%nat)
  /\ (forall ip ts now,
        length ts = 10%nat ->
        (Limiter.serve ∅ (from_ip ip ts)).1 = replicate 10 Next ->
        monotone (ts ++ [now]) ->
        now - hd now ts <= 60000 ->
        (Limiter.rateLimiter (Limiter.serve ∅ (from_ip ip ts)).2 ip now).1
        = TooManyRequests)
  /\ (forall ip,
        (Limiter.serve ∅ (from_ip ip (steady_schedule ++ [60000; 60001]))).1
        = replicate 10 Next ++ [TooManyRequests; Next])
  /\ (forall ip ts now,
        length ts = 5%nat ->
        monotone (ts ++ [now]) ->
        now - hd now ts <= 10000 ->
        (Limiter.serve ∅ (from_ip ip ts)).1 = replicate 5 Next
        /\ (Limiter.rateLimiter (Limiter.serve ∅ (from_ip ip ts)).2 ip now).1
           = TooManyRequests
        /\ Limiter.within 60000 now (Limiter.granted ∅ ip (from_ip ip ts))
           = 5%nat).
Proof.
  split_and!.
  - apply rateLimiter_is_check_spec.
  - apply lookup_rateLimiter_other.
  - apply verdict_from_history.
  - intros ip ts now Hlen Hall Hm Hwin.
    rewrite <- Hlen in Hall. apply granted_all_next in Hall.
    apply verdict_from_history; [by rewrite snd_from_ip |].
    left. rewrite Hall, within_all; [lia |].
    intros t Ht. destruct (monotone_hd_le ts now t Hm Ht). lia.
  - intros ip. rewrite serve_from_ip.
    unfold Limiter.state_of. rewrite lookup_empty. by vm_compute.
  - intros ip ts now Hlen Hm Hwin.
    assert (Hall : (Limiter.serve ∅ (from_ip ip ts)).1 = replicate 5 Next).
    { rewrite serve_from_ip, <- Hlen. apply checks_all_next;
        unfold Limiter.state_of; rewrite lookup_empty; simpl; lia. }
    assert (Hg : Limiter.granted ∅ ip (from_ip ip ts) = ts).
    { apply granted_all_next. by rewrite Hlen. }
    assert (Hin : forall window, 10000 <= window ->
              Limiter.within window now ts = 5%nat).
    { intros window Hw. rewrite within_all; [done |].
      intros t Ht. destruct (monotone_hd_le ts now t Hm Ht). lia. }
    split_and!; [done | | rewrite Hg; apply Hin; lia].
    apply verdict_from_history; [by rewrite snd_from_ip |].
    right. rewrite Hg, Hin; lia.
Qed.
End LimiterRuns.

(** ** The database queue *)

Section QueueFacts.
Context {User : Type}.
Variable mockUsers : Z -> attempt User.
Implicit Types (q : DbQueue) (job : DbJob).

Lemma queue_ok_empty : queue_ok Queue.empty.
Proof. split; [done |]. by right. Qed.

Lemma enqueue_ok q job :
  queue_ok q ->
  queue_ok (Queue.enqueue q job)
  /\ Queue.pending (Queue.enqueue q job) = Queue.pending q ++ [job]
  /\ enqueued (Queue.enqueue q job) = enqueued q ++ [job]
  /\ executed (Queue.enqueue q job) = executed q.
Proof.
  intros [Hlog [[Hp [j Hj]]|(Hp & Ha & Hq)]];
    unfold Queue.enqueue, Queue.processNext, Queue.pending, queue_ok; simpl;
    rewrite Hp.
  - simpl. rewrite Hlog, Hj. split_and!; try done.
    + by rewrite <- !app_assoc.
    + left. split; [done |]. by exists j.
  - rewrite Hq, Ha. simpl. rewrite Hlog, Ha, Hq. split_and!; try done.
    + by rewrite !app_nil_r.
    + left. split; [done |]. by exists job.
Qed.

Lemma resume_busy q job :
  queue_ok q -> awaiting q = [job] ->
  (Queue.resume mockUsers q).1 = Some (job, mockUsers (userId job))
  /\ queue_ok (Queue.resume mockUsers q).2
  /\ Queue.pending (Queue.resume mockUsers q).2 = queue q
  /\ enqueued (Queue.resume mockUsers q).2 = enqueued q
  /\ executed (Queue.resume mockUsers q).2 = executed q ++ [job].
Proof.
  intros [Hlog Hstate] Hj.
  destruct Hstate as [[Hp _]|(_ & Ha & _)]; [| by rewrite Ha in Hj].
  unfold Queue.resume, Queue.pending, queue_ok. rewrite Hj.
  rewrite Hj in Hlog. simpl in Hlog.
  destruct (queue q) as [|next rest] eqn:Hq; simpl.
  - split_and!; try done.
    + by rewrite Hlog, app_nil_r.
    + by right.
  - split_and!; try done.
    + rewrite Hlog. by rewrite <- app_assoc.
    + left. split; [done |]. by exists next.
Qed.

Lemma resume_idle q :
  awaiting q = [] -> Queue.resume mockUsers q = (None, q).
Proof. intros Ha. unfold Queue.resume. by rewrite Ha. Qed.

Lemma step_ok q (e : Queue.event) :
  queue_ok q -> queue_ok (Queue.step mockUsers q e).
Proof.
  intros Hq. destruct e as [job|]; simpl.
  - by apply enqueue_ok.
  - pose proof Hq as [_ [[_ [j Hj]]|(_ & Ha & _)]].
    + by apply (resume_busy q j).
    + by rewrite resume_idle.
Qed.

Lemma run_ok (evs : list Queue.event) q :
  queue_ok q -> queue_ok (Queue.run mockUsers q evs).
Proof.
  unfold Queue.run. revert q.
  induction evs as [|e evs IH]; intros q Hq; simpl; [done |].
  by apply IH, step_ok.
Qed.

Lemma run_enqueued (evs : list Queue.event) q :
  queue_ok q ->
  enqueued (Queue.run mockUsers q evs) = enqueued q ++ jobs_of evs.
Proof.
  unfold Queue.run. revert q.
  induction evs as [|e evs IH]; intros q Hq; simpl.
  - by rewrite app_nil_r.
  - rewrite IH by (by apply step_ok). destruct e as [job|]; simpl.
    + destruct (enqueue_ok q job Hq) as (_ & _ & -> & _).
      by rewrite <- app_assoc.
    + pose proof Hq as [_ [[_ [j Hj]]|(_ & Ha & _)]].
      * by destruct (resume_busy q j Hq Hj) as (_ & _ & _ & -> & _).
      * by rewrite resume_idle.
Qed.

(** As many timers as there are pending jobs finish them all. *)
Lemma drain (n : nat) q :
  queue_ok q -> length (Queue.pending q) = n ->
  let q' := Queue.run mockUsers q (replicate n Queue.Fire) in
  executed q' = enqueued q /\ Queue.pending q' = [] /\ processing q' = false.
Proof.
  revert q. induction n as [|n IH]; intros q Hq Hlen.
  - simpl. destruct Hq as [Hlog [[Hp [j Hj]]|(Hp & Ha & Hq)]].
    + unfold Queue.pending in Hlen. rewrite Hj in Hlen. done.
    + unfold Queue.pending. rewrite Hlog, Ha, Hq. by rewrite !app_nil_r.
  - pose proof Hq as [_ [[_ [j Hj]]|(_ & Ha & Hq0)]].
    + pose proof (resume_busy q j Hq Hj) as (_ & Hok & Hpend & Henq & _).
      unfold Queue.pending in Hlen. rewrite Hj in Hlen. simpl in Hlen.
      specialize (IH (Queue.resume mockUsers q).2 Hok).
      rewrite Hpend, Henq in IH. apply IH. lia.
    + unfold Queue.pending in Hlen. rewrite Ha, Hq0 in Hlen. done.
Qed.

(** C5. Whatever is enqueued and whenever the timer fires, the jobs
    finished so far, followed by the job in execution and the jobs still
    queued, are the enqueued jobs in their order of arrival: jobs are
    executed in that order and none is skipped. At most one job is in
    execution at a time. What happens to a job, a value, not found or a
    failure, is reported and the loop goes on with the job behind it; as
    many timers as there are pending jobs finish them all, whatever the
    lookups yield. *)
Theorem fetch_queue_is_fifo (evs : list Queue.event) :
  let q := Queue.run mockUsers Queue.empty evs in
  enqueued q = jobs_of evs
  /\ enqueued q = executed q ++ awaiting q ++ queue q
  /\ (length (awaiting q) <= 1)%nat
  /\ (forall job err,
        awaiting q = [job] -> mockUsers (userId job) = Failed err ->
        (Queue.resume mockUsers q).1 = Some (job, Failed err)
        /\ executed (Queue.resume mockUsers q).2 = executed q ++ [job]
        /\ Queue.pending (Queue.resume mockUsers q).2 = queue q
        /\ awaiting (Queue.resume mockUsers q).2 = take 1 (queue q))
  /\ (let q' := Queue.run mockUsers q
                  (replicate (length (Queue.pending q)) Queue.Fire) in
      executed q' = jobs_of evs /\ Queue.pending q' = []
      /\ processing q' = false).
Proof.
  intros q.
  assert (Hq : queue_ok q) by apply run_ok, queue_ok_empty.
  assert (Henq : enqueued q = jobs_of evs)
    by (unfold q; by rewrite run_enqueued by apply queue_ok_empty).
  split_and!.
  - done.
  - apply Hq.
  - destruct Hq as [_ [[_ [j ->]]|(_ & -> & _)]]; simpl; lia.
  - intros job err Hj Herr.
    destruct (resume_busy q job Hq Hj) as (H1 & _ & H3 & _ & H5).
    rewrite Herr in H1. split_and!; try done.
    unfold Queue.resume. rewrite Hj. by destruct (queue q).
  - rewrite <- Henq. by apply drain.
Qed.
End QueueFacts.

(** ** The handler and the registry of fetches in flight *)

Section ServerFacts.
Context {User : Type}.
Variable mockUsers : Z -> attempt User.
Implicit Types (s : Server User) (w : waiter) (job : DbJob).

Lemma arrive_unfold s req id now :
  Handler.arrive s req id now =
  if id <=? 0 then
    {| userCache := userCache s; dbQueue := dbQueue s;
       inFlightFetches := inFlightFetches s; suspended := suspended s;
       promises := promises s;
       responses := responses s ++ [Build_reply req None BadRequest] |}
  else
    let '(cached, cache) := Cache.get (userCache s) id now in
    match cached with
    | Some user =>
        {| userCache := cache; dbQueue := dbQueue s;
           inFlightFetches := inFlightFetches s; suspended := suspended s;
           promises := promises s;
           responses := responses s ++ [Build_reply req None (FromCache user)] |}
    | None =>
        match inFlightFetches s !! id with
        | Some fetchPromise =>
            {| userCache := cache; dbQueue := dbQueue s;
               inFlightFetches := inFlightFetches s;
               suspended := suspended s ++
                 [{| w_request := req; w_id := id; w_promise := fetchPromise |}];
               promises := promises s;
               responses := responses s |}
        | None =>
            let fetchPromise := promises s in
            {| userCache := cache;
               dbQueue := Queue.enqueue (dbQueue s)
                 {| userId := id; promise := fetchPromise |};
               inFlightFetches := <[id := fetchPromise]> (inFlightFetches s);
               suspended := suspended s ++
                 [{| w_request := req; w_id := id; w_promise := fetchPromise |}];
               promises := S (promises s);
               responses := responses s |}
        end
    end.
Proof. unfold Handler.arrive, Handler.parseUserId. by destruct (id <=? 0). Qed.

Lemma fold_wake settled now (W : list waiter) s :
  dbQueue (fold_left (Handler.wake settled now) W s) = dbQueue s
  /\ suspended (fold_left (Handler.wake settled now) W s) = suspended s
  /\ promises (fold_left (Handler.wake settled now) W s) = promises s
  /\ responses (fold_left (Handler.wake settled now) W s)
     = responses s ++ List.map (reply_to settled) W
  /\ inFlightFetches (fold_left (Handler.wake settled now) W s)
     = fold_left (fun m w => base.delete (w_id w) m) W (inFlightFetches s).
Proof.
  revert s. induction W as [|w W IH]; intros s; simpl.
  - by rewrite app_nil_r.
  - destruct (IH (Handler.wake settled now s w)) as (H1 & H2 & H3 & H4 & H5).
    rewrite H1, H2, H3, H4, H5. simpl. by rewrite <- app_assoc.
Qed.

Lemma fold_delete_same (id : Z) (W : list waiter) (m : gmap Z nat) :
  W <> [] -> Forall (fun w => w_id w = id) W ->
  fold_left (fun m w => base.delete (w_id w) m) W m = base.delete id m.
Proof.
  revert m. induction W as [|w W IH]; intros m Hne Hall; [done |].
  apply Forall_cons in Hall as [Hw Hall]. simpl. rewrite Hw.
  destruct W as [|w' W]; [done |].
  rewrite IH by done. apply delete_delete_eq.
Qed.

Lemma job_of_inj_promise s w job :
  server_ok s -> w ∈ suspended s -> job ∈ pending_jobs s ->
  w_promise w = promise job -> job_of w = job.
Proof.
  intros (_ & Hnd & _ & _ & Hw & _) Hin Hjob Hp.
  apply (proj1 (Forall_forall _ _) Hw) in Hin.
  apply list_elem_of_lookup in Hin as [i Hi].
  apply list_elem_of_lookup in Hjob as [i' Hi'].
  assert (i = i') as <-.
  { eapply NoDup_lookup; [exact Hnd | |].
    - rewrite list_lookup_fmap, Hi. done.
    - rewrite list_lookup_fmap, Hi'. simpl. by rewrite <- Hp. }
  congruence.
Qed.

Lemma timer_idle s now :
  awaiting (dbQueue s) = [] -> Handler.timer mockUsers s now = s.
Proof. intros Ha. unfold Handler.timer. by rewrite resume_idle. Qed.

(** What the timer does when a job is in execution. *)
Lemma timer_busy s now job :
  server_ok s -> awaiting (dbQueue s) = [job] ->
  dbQueue (Handler.timer mockUsers s now) = (Queue.resume mockUsers (dbQueue s)).2
  /\ pending_jobs s = job :: pending_jobs (Handler.timer mockUsers s now)
  /\ suspended (Handler.timer mockUsers s now)
     = List.filter (fun w => negb (Handler.awaits (promise job) w)) (suspended s)
  /\ promises (Handler.timer mockUsers s now) = promises s
  /\ responses (Handler.timer mockUsers s now)
     = responses s ++
       List.map (reply_to (mockUsers (userId job)))
         (List.filter (Handler.awaits (promise job)) (suspended s))
  /\ inFlightFetches (Handler.timer mockUsers s now)
     = base.delete (userId job) (inFlightFetches s)
  /\ Forall (fun w => job_of w = job)
       (List.filter (Handler.awaits (promise job)) (suspended s))
  /\ List.filter (Handler.awaits (promise job)) (suspended s) <> [].
Proof.
  intros Hok Hj. pose proof Hok as (Hq & Hnd & Hlt & Hreg & Hw & Hhas & _).
  destruct (resume_busy mockUsers (dbQueue s) job Hq Hj)
    as (Hres & _ & Hpend & _ & _).
  assert (Hjob : job ∈ pending_jobs s).
  { unfold pending_jobs, Queue.pending. rewrite Hj. apply list_elem_of_here. }
  assert (HW : Forall (fun w => job_of w = job)
                 (List.filter (Handler.awaits (promise job)) (suspended s))).
  { apply Forall_forall. intros w Hin.
    apply list_elem_of_In, filter_In in Hin as [Hin Haw].
    apply list_elem_of_In in Hin. apply bool_decide_eq_true in Haw.
    by apply (job_of_inj_promise s). }
  assert (HWne : List.filter (Handler.awaits (promise job)) (suspended s) <> []).
  { apply (proj1 (Forall_forall _ _) Hhas) in Hjob as (w & Hin & Hw').
    intros Hnil. assert (Hin' : In w (List.filter (Handler.awaits (promise job))
                                        (suspended s))).
    { apply filter_In. split; [by apply list_elem_of_In |].
      apply bool_decide_eq_true. by rewrite <- Hw'. }
    by rewrite Hnil in Hin'. }
  unfold Handler.timer.
  destruct (Queue.resume mockUsers (dbQueue s)) as [done q'] eqn:Hr.
  simpl in Hres, Hpend. subst done.
  match goal with |- context [fold_left ?f ?W ?s0] =>
    destruct (fold_wake (mockUsers (userId job)) now W s0)
      as (H1 & H2 & H3 & H4 & H5) end.
  simpl in H1, H2, H3, H4, H5. rewrite H1, H2, H3, H4, H5.
  split_and!; try done.
  - unfold pending_jobs at 1, Queue.pending at 1. rewrite Hj. simpl.
    unfold pending_jobs. by rewrite H1, Hpend.
  - apply fold_delete_same; [done |].
    eapply Forall_impl; [exact HW |]. by intros w <-.
Qed.
Lemma reply_to_in (settled : attempt User) (W : list waiter) (r : reply User) :
  r ∈ List.map (reply_to settled) W ->
  exists w, w ∈ W /\ r = reply_to settled w.
Proof.
  intros Hin. apply list_elem_of_In, in_map_iff in Hin as (w & <- & Hw).
  exists w. split; [by apply list_elem_of_In | done].
Qed.

Lemma timer_ok s now : server_ok s -> server_ok (Handler.timer mockUsers s now).
Proof.
  intros Hok.
  pose proof Hok as (Hq & Hnd & Hlt & Hreg & Hw & Hhas & Hans & Hsame).
  pose proof Hq as [_ [[_ [job Hj]]|(_ & Ha & _)]]; [| by rewrite timer_idle].
  destruct (timer_busy s now job Hok Hj)
    as (Eq & Epend & Esusp & Eprom & Eresp & Ereg & HW & _).
  set (s' := Handler.timer mockUsers s now) in *.
  rewrite Epend in Hnd, Hlt, Hreg, Hw, Hhas, Hans.
  rewrite fmap_cons in Hnd, Hans. apply NoDup_cons in Hnd as [Hfresh Hnd].
  apply Forall_cons in Hlt as [Hjlt Hlt].
  apply Forall_cons in Hhas as [_ Hhas].
  assert (Hjob : inFlightFetches s !! userId job = Some (promise job)).
  { apply Hreg. destruct job. apply list_elem_of_here. }
  unfold server_ok. rewrite Eq, Esusp, Eprom, Eresp, Ereg.
  split_and!.
  - by destruct (resume_busy mockUsers (dbQueue s) job Hq Hj) as (_ & ? & _).
  - done.
  - done.
  - intros id p. rewrite lookup_delete_Some, Hreg, elem_of_cons. split.
    + intros [Hne [Heq|Hin]]; [| done]. subst job. done.
    + intros Hin. split; [| by right]. intros Hid.
      assert (Hp : inFlightFetches s !! id = Some p)
        by (apply Hreg; by apply list_elem_of_further).
      rewrite <- Hid, Hjob in Hp. injection Hp as <-.
      apply Hfresh. apply list_elem_of_fmap. exists job. split; [done |].
      destruct job. simpl in *. by subst id.
  - apply Forall_forall. intros w Hin.
    apply list_elem_of_In, filter_In in Hin as [Hin Haw].
    apply list_elem_of_In in Hin.
    apply (proj1 (Forall_forall _ _) Hw) in Hin.
    apply elem_of_cons in Hin as [Heq|Hin]; [| done].
    apply negb_true_iff, bool_decide_eq_false in Haw.
    exfalso. apply Haw. by rewrite <- Heq.
  - apply Forall_forall. intros j' Hj'.
    destruct (proj1 (Forall_forall _ _) Hhas j' Hj') as (w & Hin & Hwj).
    exists w. split; [| done].
    apply list_elem_of_In, filter_In. split; [by apply list_elem_of_In |].
    apply negb_true_iff, bool_decide_eq_false. intros Hp.
    apply Hfresh. rewrite <- Hp, <- Hwj in *.
    apply list_elem_of_fmap. by exists (job_of w).
  - apply Forall_app. split.
    + eapply Forall_impl; [exact Hans |]. intros r Hr p Hp.
      destruct (Hr p Hp) as [? Hnin]. split; [done |].
      intros Hin. apply Hnin. by apply list_elem_of_further.
    + apply Forall_forall. intros r Hr p Hp.
      apply reply_to_in in Hr as (w & Hin & ->). simpl in Hp.
      injection Hp as <-.
      apply (proj1 (Forall_forall _ _) HW) in Hin. rewrite <- Hin in *.
      done.
  - intros r1 r2 p Hr1 Hr2 Hp1 Hp2.
    apply elem_of_app in Hr1 as [Hr1|Hr1], Hr2 as [Hr2|Hr2].
    + by apply (Hsame r1 r2 p).
    + exfalso. apply reply_to_in in Hr2 as (w & Hin & ->).
      simpl in Hp2. injection Hp2 as <-.
      apply (proj1 (Forall_forall _ _) HW) in Hin.
      destruct (proj1 (Forall_forall _ _) Hans r1 Hr1 _ Hp1) as [_ Hnin].
      apply Hnin. rewrite <- Hin. apply list_elem_of_here.
    + exfalso. apply reply_to_in in Hr1 as (w & Hin & ->).
      simpl in Hp1. injection Hp1 as <-.
      apply (proj1 (Forall_forall _ _) HW) in Hin.
      destruct (proj1 (Forall_forall _ _) Hans r2 Hr2 _ Hp2) as [_ Hnin].
      apply Hnin. rewrite <- Hin. apply list_elem_of_here.
    + apply reply_to_in in Hr1 as (w1 & _ & ->).
      by apply reply_to_in in Hr2 as (w2 & _ & ->).
Qed.
(** Steps that leave the queue, the registry and the promises alone, add
    handlers waiting for pending jobs and send replies that awaited
    nothing. *)
Lemma server_ok_frame s s' (extra : list waiter) (news : list (reply User)) :
  server_ok s ->
  dbQueue s' = dbQueue s -> inFlightFetches s' = inFlightFetches s ->
  promises s' = promises s ->
  suspended s' = suspended s ++ extra ->
  Forall (fun w => job_of w ∈ pending_jobs s) extra ->
  responses s' = responses s ++ news ->
  Forall (fun r => r_awaited r = None) news ->
  server_ok s'.
Proof.
  intros (Hq & Hnd & Hlt & Hreg & Hw & Hhas & Hans & Hsame)
    Eq Ereg Eprom Esusp Hextra Eresp Hnews.
  assert (Epend : pending_jobs s' = pending_jobs s)
    by (unfold pending_jobs; by rewrite Eq).
  unfold server_ok. rewrite Epend, Eq, Ereg, Eprom, Esusp, Eresp.
  split_and!; try done.
  - by apply Forall_app.
  - eapply Forall_impl; [exact Hhas |]. intros job (w & Hin & Hjob).
    exists w. split; [| done]. apply elem_of_app. by left.
  - apply Forall_app. split; [done |].
    eapply Forall_impl; [exact Hnews |]. intros r Hr p Hp. congruence.
  - intros r1 r2 p Hr1 Hr2 Hp1 Hp2.
    apply elem_of_app in Hr1 as [Hr1|Hr1], Hr2 as [Hr2|Hr2].
    + by apply (Hsame r1 r2 p).
    + apply (proj1 (Forall_forall _ _) Hnews) in Hr2. congruence.
    + apply (proj1 (Forall_forall _ _) Hnews) in Hr1. congruence.
    + apply (proj1 (Forall_forall _ _) Hnews) in Hr1. congruence.
Qed.

(** A lookup that misses the cache while no fetch of its id is in flight:
    one job is pushed for a new promise. *)
Lemma arrive_new_fetch s req id now cache :
  server_ok s -> (id <=? 0) = false ->
  Cache.get (userCache s) id now = (None, cache) ->
  inFlightFetches s !! id = None ->
  Handler.arrive s req id now
  = {| userCache := cache;
       dbQueue := Queue.enqueue (dbQueue s) {| userId := id; promise := promises s |};
       inFlightFetches := <[id := promises s]> (inFlightFetches s);
       suspended := suspended s ++
         [{| w_request := req; w_id := id; w_promise := promises s |}];
       promises := S (promises s);
       responses := responses s |}
  /\ pending_jobs (Handler.arrive s req id now)
     = pending_jobs s ++ [{| userId := id; promise := promises s |}]
  /\ server_ok (Handler.arrive s req id now).
Proof.
  intros (Hq & Hnd & Hlt & Hreg & Hw & Hhas & Hans & Hsame) Hid Hget Hnone.
  rewrite arrive_unfold. rewrite Hid, Hget, Hnone. cbv zeta.
  set (job := {| userId := id; promise := promises s |}).
  destruct (enqueue_ok (dbQueue s) job Hq) as (Hq' & Hpend & _).
  split; [done |]. split; [done |].
  unfold server_ok, pending_jobs. simpl. rewrite Hpend.
  fold (pending_jobs s).
  assert (Hfresh : promises s ∉ promise <$> pending_jobs s).
  { intros Hin. apply list_elem_of_fmap in Hin as (j & Hj & Hin).
    apply (proj1 (Forall_forall _ _) Hlt) in Hin. lia. }
  split_and!.
  - done.
  - rewrite fmap_app. apply NoDup_app. split_and!; [done | | apply NoDup_singleton].
    intros p Hp Hp'. apply list_elem_of_singleton in Hp'. by subst p.
  - apply Forall_app. split.
    + eapply Forall_impl; [exact Hlt |]. simpl. intros; lia.
    + constructor; [simpl; lia | constructor].
  - intros id' p. rewrite elem_of_app, list_elem_of_singleton.
    destruct (decide (id = id')) as [<-|Hne].
    + rewrite lookup_insert_eq. split.
      * intros [= <-]. by right.
      * intros [Hin|[= <-]]; [| done].
        apply Hreg in Hin. congruence.
    + rewrite lookup_insert_ne by done. rewrite Hreg. split.
      * by left.
      * intros [Hin|[= -> _]]; done.
  - apply Forall_app. split.
    + eapply Forall_impl; [exact Hw |]. intros w Hin. apply elem_of_app. by left.
    + constructor; [| constructor]. apply elem_of_app. right.
      apply list_elem_of_here.
  - apply Forall_app. split.
    + eapply Forall_impl; [exact Hhas |]. intros j (w & Hin & Hj).
      exists w. split; [| done]. apply elem_of_app. by left.
    + constructor; [| constructor].
      exists {| w_request := req; w_id := id; w_promise := promises s |}.
      split; [| done]. apply elem_of_app. right. apply list_elem_of_here.
  - eapply Forall_impl; [exact Hans |]. intros r Hr p Hp.
    destruct (Hr p Hp) as [Hlt' Hnin]. split; [lia |].
    rewrite fmap_app. intros Hin. apply elem_of_app in Hin as [Hin|Hin]; [done |].
    apply list_elem_of_singleton in Hin. simpl in Hin. lia.
  - done.
Qed.

Lemma arrive_ok s req id now :
  server_ok s -> server_ok (Handler.arrive s req id now).
Proof.
  intros Hok. destruct (id <=? 0) eqn:Hid.
  - rewrite arrive_unfold. rewrite Hid.
    eapply (server_ok_frame s _ [] [_]); try done.
    + simpl. by rewrite app_nil_r.
    + by constructor.
  - destruct (Cache.get (userCache s) id now) as [[user|] cache] eqn:Hget.
    + rewrite arrive_unfold. rewrite Hid, Hget.
      eapply (server_ok_frame s _ [] [_]); try done.
      * simpl. by rewrite app_nil_r.
      * by constructor.
    + destruct (inFlightFetches s !! id) as [p|] eqn:Hreg.
      * rewrite arrive_unfold. rewrite Hid, Hget, Hreg.
        eapply (server_ok_frame s _ [_] []); try done.
        -- constructor; [| constructor]. unfold job_of. simpl.
           by apply Hok.
        -- simpl. by rewrite app_nil_r.
      * by apply (arrive_new_fetch s req id now cache).
Qed.

Lemma step_server_ok s (e : Handler.event) :
  server_ok s -> server_ok (Handler.step mockUsers s e).
Proof.
  intros Hok. destruct e as [req id now|now]; simpl.
  - by apply arrive_ok.
  - by apply timer_ok.
Qed.

Lemma run_server_ok (evs : list Handler.event) s :
  server_ok s -> server_ok (Handler.run mockUsers s evs).
Proof.
  unfold Handler.run. revert s.
  induction evs as [|e evs IH]; intros s Hok; simpl; [done |].
  by apply IH, step_server_ok.
Qed.

Lemma init_ok : server_ok (Handler.init (User := User)).
Proof.
  unfold server_ok, pending_jobs. simpl. split_and!; try done.
  - apply queue_ok_empty.
  - constructor.
  - intros id p. rewrite lookup_empty. split; [done |].
    intros Hin. by apply elem_of_nil in Hin.
  - intros r1 r2 p Hr1. by apply elem_of_nil in Hr1.
Qed.
(** A lookup that misses the cache while a fetch of its id is in flight
    attaches to that fetch. *)
Lemma arrive_attach s req id now p :
  0 < id -> (Cache.get (userCache s) id now).1 = None ->
  inFlightFetches s !! id = Some p ->
  dbQueue (Handler.arrive s req id now) = dbQueue s
  /\ inFlightFetches (Handler.arrive s req id now) = inFlightFetches s
  /\ promises (Handler.arrive s req id now) = promises s
  /\ suspended (Handler.arrive s req id now)
     = suspended s ++ [{| w_request := req; w_id := id; w_promise := p |}]
  /\ responses (Handler.arrive s req id now) = responses s
  /\ userCache (Handler.arrive s req id now) = (Cache.get (userCache s) id now).2.
Proof.
  intros Hid Hmiss Hreg. rewrite arrive_unfold.
  replace (id <=? 0) with false by (symmetry; apply Z.leb_gt; lia).
  destruct (Cache.get (userCache s) id now) as [cached cache].
  simpl in Hmiss. subst cached. by rewrite Hreg.
Qed.

Lemma get_absent_misses (c : LRUCache Z User) id now :
  JsMap.get id (map c) = None ->
  Cache.get c id now = (None, Cache.miss c).
Proof. intros Hg. unfold Cache.get. by rewrite Hg. Qed.

Lemma lookups_attach (arrivals : list (nat * Z)) s id p :
  0 < id -> JsMap.get id (map (userCache s)) = None ->
  inFlightFetches s !! id = Some p ->
  dbQueue (Handler.run mockUsers s (lookups id arrivals)) = dbQueue s
  /\ inFlightFetches (Handler.run mockUsers s (lookups id arrivals))
     = inFlightFetches s
  /\ promises (Handler.run mockUsers s (lookups id arrivals)) = promises s
  /\ suspended (Handler.run mockUsers s (lookups id arrivals))
     = suspended s ++ waiters_of id p arrivals
  /\ responses (Handler.run mockUsers s (lookups id arrivals)) = responses s
  /\ map (userCache (Handler.run mockUsers s (lookups id arrivals)))
     = map (userCache s).
Proof.
  intros Hid. unfold Handler.run. revert s.
  induction arrivals as [|[req now] arrivals IH]; intros s Habs Hreg; simpl.
  - by rewrite app_nil_r.
  - destruct (arrive_attach s req id now p Hid) as (E1 & E2 & E3 & E4 & E5 & E6);
      [by rewrite get_absent_misses | done |].
    rewrite get_absent_misses in E6 by done. simpl in E6.
    destruct (IH (Handler.arrive s req id now)) as (F1 & F2 & F3 & F4 & F5 & F6).
    { by rewrite E6. }
    { by rewrite E2. }
    rewrite F1, F2, F3, F4, F5, F6, E1, E2, E3, E4, E5, E6.
    split_and!; try done. by rewrite <- app_assoc.
Qed.

(** [N] lookups of an id that is neither cached nor in flight: the first
    pushes the one job, the others attach to it. *)
Lemma lookups_single_job s id (first : nat * Z) (rest : list (nat * Z)) :
  server_ok s -> 0 < id ->
  JsMap.get id (map (userCache s)) = None ->
  inFlightFetches s !! id = None ->
  enqueued (dbQueue (Handler.run mockUsers s (lookups id (first :: rest))))
  = enqueued (dbQueue s) ++ [{| userId := id; promise := promises s |}]
  /\ pending_jobs (Handler.run mockUsers s (lookups id (first :: rest)))
     = pending_jobs s ++ [{| userId := id; promise := promises s |}]
  /\ suspended (Handler.run mockUsers s (lookups id (first :: rest)))
     = suspended s ++ waiters_of id (promises s) (first :: rest)
  /\ inFlightFetches (Handler.run mockUsers s (lookups id (first :: rest))) !! id
     = Some (promises s)
  /\ responses (Handler.run mockUsers s (lookups id (first :: rest)))
     = responses s
  /\ server_ok (Handler.run mockUsers s (lookups id (first :: rest))).
Proof.
  intros Hok Hid Habs Hnone. destruct first as [req now].
  assert (Hleb : (id <=? 0) = false) by (apply Z.leb_gt; lia).
  destruct (arrive_new_fetch s req id now _ Hok Hleb
              (get_absent_misses _ id now Habs) Hnone) as (Es1 & Hpend & Hok1).
  change (Handler.run mockUsers s (lookups id ((req, now) :: rest)))
    with (Handler.run mockUsers (Handler.arrive s req id now) (lookups id rest)).
  set (s1 := Handler.arrive s req id now) in *.
  destruct (lookups_attach rest s1 id (promises s) Hid)
    as (F1 & F2 & F3 & F4 & F5 & F6).
  { by rewrite Es1. }
  { rewrite Es1. simpl. by rewrite lookup_insert_eq. }
  split_and!.
  - rewrite F1, Es1. simpl.
    by destruct (enqueue_ok (dbQueue s) {| userId := id; promise := promises s |})
      as (_ & _ & -> & _); [apply Hok |].
  - unfold pending_jobs in *. by rewrite F1.
  - rewrite F4, Es1. simpl. by rewrite <- app_assoc.
  - rewrite F2, Es1. simpl. by rewrite lookup_insert_eq.
  - by rewrite F5, Es1.
  - by apply run_server_ok.
Qed.

Lemma step_responses_mono s (e : Handler.event) (r : reply User) :
  r ∈ responses s -> r ∈ responses (Handler.step mockUsers s e).
Proof.
  intros Hr. destruct e as [req id now|now]; simpl.
  - rewrite arrive_unfold. destruct (id <=? 0); simpl.
    + apply elem_of_app. by left.
    + destruct (Cache.get (userCache s) id now) as [[user|] cache]; simpl.
      * apply elem_of_app. by left.
      * by destruct (inFlightFetches s !! id).
  - unfold Handler.timer.
    destruct (Queue.resume mockUsers (dbQueue s)) as [[[job settled]|] q']; [| done].
    match goal with |- context [fold_left ?f ?W ?s0] =>
      destruct (fold_wake settled now W s0) as (_ & _ & _ & -> & _) end.
    simpl. apply elem_of_app. by left.
Qed.

Lemma run_responses_mono (evs : list Handler.event) s (r : reply User) :
  r ∈ responses s -> r ∈ responses (Handler.run mockUsers s evs).
Proof.
  unfold Handler.run. revert s.
  induction evs as [|e evs IH]; intros s Hr; simpl; [done |].
  by apply IH, step_responses_mono.
Qed.

(** As many timers as there are pending jobs answer every suspended
    handler, each with the outcome of the lookup of its own id. *)
Lemma timers_answer_all (nows : list Z) s :
  server_ok s -> length nows = length (pending_jobs s) ->
  suspended (Handler.run mockUsers s (List.map Handler.Timer nows)) = []
  /\ pending_jobs (Handler.run mockUsers s (List.map Handler.Timer nows)) = []
  /\ (forall w, w ∈ suspended s ->
        reply_to (mockUsers (w_id w)) w
        ∈ responses (Handler.run mockUsers s (List.map Handler.Timer nows))).
Proof.
  revert s. induction nows as [|now nows IH]; intros s Hok Hlen.
  - simpl in *. symmetry in Hlen. apply length_zero_iff_nil in Hlen.
    pose proof Hok as (_ & _ & _ & _ & Hw & _). rewrite Hlen in Hw.
    assert (Hnil : suspended s = []).
    { destruct (suspended s) as [|w ws]; [done |].
      apply Forall_cons in Hw as [Hin _]. by apply elem_of_nil in Hin. }
    split_and!; try done. intros w Hin. rewrite Hnil in Hin.
    by apply elem_of_nil in Hin.
  - pose proof Hok as (Hq & _).
    pose proof Hq as [_ [[_ [job Hj]]|(_ & Ha & Hq0)]].
    2:{ unfold pending_jobs, Queue.pending in Hlen. by rewrite Ha, Hq0 in Hlen. }
    destruct (timer_busy s now job Hok Hj)
      as (_ & Epend & Esusp & _ & Eresp & _ & HW & _).
    change (Handler.run mockUsers s (List.map Handler.Timer (now :: nows)))
      with (Handler.run mockUsers (Handler.timer mockUsers s now)
              (List.map Handler.Timer nows)).
    set (s1 := Handler.timer mockUsers s now) in *.
    destruct (IH s1) as (H1 & H2 & H3).
    { by apply timer_ok. }
    { rewrite Epend in Hlen. simpl in Hlen. lia. }
    split_and!; try done. intros w Hin.
    destruct (Handler.awaits (promise job) w) eqn:Haw.
    + apply run_responses_mono. rewrite Eresp. apply elem_of_app. right.
      assert (Hin' : In w (List.filter (Handler.awaits (promise job)) (suspended s))).
      { apply filter_In. split; [by apply list_elem_of_In | done]. }
      apply list_elem_of_In in Hin' as Hin''.
      apply (proj1 (Forall_forall _ _) HW) in Hin''.
      assert (Hid : w_id w = userId job) by (by rewrite <- Hin'').
      rewrite Hid. apply list_elem_of_In, in_map_iff. by exists w.
    + apply H3. rewrite Esusp. apply list_elem_of_In, filter_In.
      split; [by apply list_elem_of_In | by rewrite Haw].
Qed.

Lemma run_app (evs evs' : list Handler.event) s :
  Handler.run mockUsers s (evs ++ evs')
  = Handler.run mockUsers (Handler.run mockUsers s evs) evs'.
Proof. unfold Handler.run. apply fold_left_app. Qed.

(** [N] lookups of an id neither cached nor in flight, then the timers of
    all pending jobs: every one of the [N] callers receives the outcome of
    the one lookup. *)
Lemma lookups_answered s id (first : nat * Z) (rest : list (nat * Z))
    (nows : list Z) :
  server_ok s -> 0 < id ->
  JsMap.get id (map (userCache s)) = None ->
  inFlightFetches s !! id = None ->
  length nows = S (length (pending_jobs s)) ->
  forall a, a ∈ first :: rest ->
    Build_reply a.1 (Some (promises s)) (Handler.answer (mockUsers id))
    ∈ responses (Handler.run mockUsers s
                   (lookups id (first :: rest) ++ List.map Handler.Timer nows)).
Proof.
  intros Hok Hid Habs Hnone Hlen a Ha. rewrite run_app.
  destruct (lookups_single_job s id first rest Hok Hid Habs Hnone)
    as (_ & Hpend & Hsusp & _ & _ & Hok').
  destruct (timers_answer_all nows _ Hok') as (_ & _ & Hall).
  { rewrite Hpend, length_app. simpl. lia. }
  apply (Hall {| w_request := a.1; w_id := id; w_promise := promises s |}).
  rewrite Hsusp. apply elem_of_app. right. unfold waiters_of.
  apply list_elem_of_In, in_map_iff. exists a. split; [done |].
  by apply list_elem_of_In.
Qed.

Lemma pending_distinct_ids s : server_ok s -> NoDup (userId <$> pending_jobs s).
Proof.
  intros (_ & Hnd & _ & Hreg & _).
  apply NoDup_fmap_2_strong; [| by apply NoDup_fmap_1 in Hnd].
  intros [id p] [id' p'] Hin Hin' Heq. simpl in Heq. subst id'.
  apply Hreg in Hin, Hin'. congruence.
Qed.
Lemma exec_keeps_absent (c : LRUCache Z User) (o : op Z User) (id : Z) :
  match o with OpSet k _ _ => k <> id | _ => True end ->
  JsMap.get id (map c) = None ->
  JsMap.get id (map (Trace.exec c o)) = None.
Proof.
  intros Ho Habs. destruct (JsMap.get id (map (Trace.exec c o))) eqn:E; [| done].
  apply exec_get_Some in E; [congruence | done].
Qed.

Lemma wake_cache_unchanged settled now s w :
  (forall user, settled <> Fetched (Some user)) ->
  userCache (Handler.wake settled now s w) = userCache s.
Proof. intros Hs. destruct settled as [[user|]|err]; simpl; [by destruct (Hs user) | done | done]. Qed.

Lemma fold_wake_cache_unchanged settled now (W : list waiter) s :
  (forall user, settled <> Fetched (Some user)) ->
  userCache (fold_left (Handler.wake settled now) W s) = userCache s.
Proof.
  intros Hs. revert s. induction W as [|w W IH]; intros s; simpl; [done |].
  by rewrite IH, wake_cache_unchanged.
Qed.

Lemma wake_keeps_absent (id : Z) settled now s w :
  ((exists user, settled = Fetched (Some user)) -> w_id w <> id) ->
  JsMap.get id (map (userCache s)) = None ->
  JsMap.get id (map (userCache (Handler.wake settled now s w))) = None.
Proof.
  intros Hne Habs. destruct settled as [[user|]|err]; simpl; [| done | done].
  assert (Hid : w_id w <> id) by (apply Hne; by exists user).
  pose proof (exec_keeps_absent (userCache s) (OpHas (w_id w) now) id I Habs) as H1.
  simpl in H1. destruct (Cache.has (userCache s) (w_id w) now) as [present cache].
  simpl in H1. destruct present; [done |].
  by apply (exec_keeps_absent cache (OpSet (w_id w) user now) id).
Qed.

Lemma fold_wake_keeps_absent (id : Z) settled now (W : list waiter) s :
  Forall (fun w => (exists user, settled = Fetched (Some user)) -> w_id w <> id) W ->
  JsMap.get id (map (userCache s)) = None ->
  JsMap.get id (map (userCache (fold_left (Handler.wake settled now) W s))) = None.
Proof.
  revert s. induction W as [|w W IH]; intros s Hall Habs; simpl; [done |].
  apply Forall_cons in Hall as [Hw Hall]. apply IH; [done |].
  by apply wake_keeps_absent.
Qed.

Lemma arrive_keeps_absent (id : Z) s req id' now :
  JsMap.get id (map (userCache s)) = None ->
  JsMap.get id (map (userCache (Handler.arrive s req id' now))) = None.
Proof.
  intros Habs.
  pose proof (exec_keeps_absent (userCache s) (OpGet id' now) id I Habs) as H1.
  simpl in H1. rewrite arrive_unfold. destruct (id' <=? 0); [done |].
  destruct (Cache.get (userCache s) id' now) as [[user|] cache]; simpl in *;
    [done |]. by destruct (inFlightFetches s !! id').
Qed.

Lemma timer_keeps_absent (id : Z) s now :
  server_ok s -> mockUsers id = Fetched None ->
  JsMap.get id (map (userCache s)) = None ->
  JsMap.get id (map (userCache (Handler.timer mockUsers s now))) = None.
Proof.
  intros Hok Hnull Habs. pose proof Hok as (Hq & _).
  pose proof Hq as [_ [[_ [job Hj]]|(_ & Ha & _)]]; [| by rewrite timer_idle].
  destruct (timer_busy s now job Hok Hj) as (_ & _ & _ & _ & _ & _ & HW & _).
  destruct (resume_busy mockUsers (dbQueue s) job Hq Hj) as (Hres & _).
  unfold Handler.timer.
  destruct (Queue.resume mockUsers (dbQueue s)) as [done q']. simpl in Hres.
  subst done. apply fold_wake_keeps_absent; [| done].
  eapply Forall_impl; [exact HW |]. intros w Hw [user Huser] Hid.
  rewrite <- Hw in Huser. simpl in Huser. congruence.
Qed.

Lemma run_keeps_absent (id : Z) (evs : list Handler.event) s :
  server_ok s -> mockUsers id = Fetched None ->
  JsMap.get id (map (userCache s)) = None ->
  JsMap.get id (map (userCache (Handler.run mockUsers s evs))) = None.
Proof.
  intros Hok Hnull. unfold Handler.run. revert s Hok.
  induction evs as [|e evs IH]; intros s Hok Habs; simpl; [done |].
  apply IH; [by apply step_server_ok |]. destruct e as [req id' now|now]; simpl.
  - by apply arrive_keeps_absent.
  - by apply timer_keeps_absent.
Qed.

(** C4. A lookup that misses the cache while a fetch of its id is
    registered pushes no job: it suspends on the registered promise. So,
    for [N >= 1] lookups of an id that is neither cached nor in flight,
    arriving before the fetch completes, exactly one job for the id is
    pushed on the queue, by the first lookup, and all [N] handlers wait for
    its promise. Once the timers of the pending jobs have fired, each of
    the [N] callers has received the same answer, the outcome of that one
    lookup: the user, not found, or the failure. In every reachable state
    the pending jobs are for distinct ids, and replies that awaited the same
    promise carry the same answer. *)
Theorem single_flight :
  (forall (s : Server User) req id now p,
     0 < id -> (Cache.get (userCache s) id now).1 = None ->
     inFlightFetches s !! id = Some p ->
     dbQueue (Handler.arrive s req id now) = dbQueue s
     /\ inFlightFetches (Handler.arrive s req id now) = inFlightFetches s
     /\ suspended (Handler.arrive s req id now)
        = suspended s ++ [{| w_request := req; w_id := id; w_promise := p |}]
     /\ responses (Handler.arrive s req id now) = responses s)
  /\ (forall (s : Server User) id first rest,
        server_ok s -> 0 < id ->
        JsMap.get id (map (userCache s)) = None ->
        inFlightFetches s !! id = None ->
        let s' := Handler.run mockUsers s (lookups id (first :: rest)) in
        enqueued (dbQueue s')
        = enqueued (dbQueue s) ++ [{| userId := id; promise := promises s |}]
        /\ pending_jobs s'
           = pending_jobs s ++ [{| userId := id; promise := promises s |}]
        /\ suspended s'
           = suspended s ++ waiters_of id (promises s) (first :: rest)
        /\ inFlightFetches s' !! id = Some (promises s)
        /\ responses s' = responses s)
  /\ (forall (s : Server User) id first rest nows,
        server_ok s -> 0 < id ->
        JsMap.get id (map (userCache s)) = None ->
        inFlightFetches s !! id = None ->
        length nows = S (length (pending_jobs s)) ->
        let s' := Handler.run mockUsers s
                    (lookups id (first :: rest) ++ List.map Handler.Timer nows) in
        (forall a, a ∈ first :: rest ->
           Build_reply a.1 (Some (promises s)) (Handler.answer (mockUsers id))
           ∈ responses s')
        /\ suspended s' = [] /\ pending_jobs s' = [])
  /\ (forall evs,
        let s := Handler.run mockUsers Handler.init evs in
        NoDup (userId <$> pending_jobs s)
        /\ forall r1 r2 p,
             r1 ∈ responses s -> r2 ∈ responses s ->
             r_awaited r1 = Some p -> r_awaited r2 = Some p ->
             r_answer r1 = r_answer r2).
Proof.
  split_and!.
  - intros s req id now p Hid Hmiss Hreg.
    destruct (arrive_attach s req id now p Hid Hmiss Hreg)
      as (? & ? & ? & ? & ? & ?). done.
  - intros s id first rest Hok Hid Habs Hnone s'.
    destruct (lookups_single_job s id first rest Hok Hid Habs Hnone)
      as (? & ? & ? & ? & ? & ?). done.
  - intros s id first rest nows Hok Hid Habs Hnone Hlen s'.
    split; [by apply lookups_answered |].
    unfold s'. rewrite run_app.
    destruct (lookups_single_job s id first rest Hok Hid Habs Hnone)
      as (_ & Hpend & _ & _ & _ & Hok').
    destruct (timers_answer_all nows _ Hok') as (? & ? & _); [| done].
    rewrite Hpend, length_app. simpl. lia.
  - intros evs s.
    assert (Hok : server_ok s) by apply run_server_ok, init_ok.
    split; [by apply pending_distinct_ids | apply Hok].
Qed.

(** C9. When the job in execution finds no user for its id, the timer
    step leaves the cache as it was and sends the not-found reply to every
    handler that awaited the job. An id for which the table has no user is
    never in the cache, whatever requests and timers occur; a lookup of
    such an id is answered with not found. *)
Theorem not_found_is_not_cached :
  (forall (s : Server User) now job others,
     awaiting (dbQueue s) = job :: others ->
     mockUsers (userId job) = Fetched None ->
     userCache (Handler.timer mockUsers s now) = userCache s
     /\ responses (Handler.timer mockUsers s now)
        = responses s ++
          List.map
            (fun w => Build_reply (w_request w) (Some (w_promise w)) NotFound)
            (List.filter (Handler.awaits (promise job)) (suspended s)))
  /\ (forall (s : Server User) evs id,
        server_ok s -> mockUsers id = Fetched None ->
        JsMap.get id (map (userCache s)) = None ->
        JsMap.get id (map (userCache (Handler.run mockUsers s evs))) = None)
  /\ (forall evs id,
        mockUsers id = Fetched None ->
        JsMap.get id
          (map (userCache (Handler.run mockUsers Handler.init evs))) = None)
  /\ (forall (s : Server User) id first rest nows,
        server_ok s -> 0 < id ->
        JsMap.get id (map (userCache s)) = None ->
        inFlightFetches s !! id = None ->
        mockUsers id = Fetched None ->
        length nows = S (length (pending_jobs s)) ->
        let s' := Handler.run mockUsers s
                    (lookups id (first :: rest) ++ List.map Handler.Timer nows) in
        (forall a, a ∈ first :: rest ->
           Build_reply a.1 (Some (promises s)) NotFound ∈ responses s')
        /\ JsMap.get id (map (userCache s')) = None).
Proof.
  split_and!.
  - intros s now job others Hj Hnull. unfold Handler.timer, Queue.resume.
    rewrite Hj, Hnull.
    match goal with |- context [fold_left ?f ?W ?s0] =>
      destruct (fold_wake (Fetched None) now W s0) as (_ & _ & _ & -> & _);
      rewrite (fold_wake_cache_unchanged (Fetched None) now W s0) by done
    end.
    by destruct (queue (dbQueue s)).
  - intros s evs id Hok Hnull Habs. by apply run_keeps_absent.
  - intros evs id Hnull. apply run_keeps_absent; [apply init_ok | done | done].
  - intros s id first rest nows Hok Hid Habs Hnone Hnull Hlen s'. split.
    + intros a Ha.
      pose proof (lookups_answered s id first rest nows Hok Hid Habs Hnone
                    Hlen a Ha) as Hr.
      by rewrite Hnull in Hr.
    + by apply run_keeps_absent.
Qed.
End ServerFacts.

(** ** Instances of the statements on concrete inputs *)

Lemma dual_window_rate_limit_witness :
  (length burst_schedule = 5%nat
   /\ monotone (burst_schedule ++ [2500])
   /\ 2500 - hd 2500 burst_schedule <= 10000)
  /\ (Limiter.rateLimiter
        (Limiter.serve ∅ (from_ip "10.0.0.1"%string burst_schedule)).2
        "10.0.0.1"%string 2500).1 = TooManyRequests.
Proof.
  assert (Hlen : length burst_schedule = 5%nat) by reflexivity.
  assert (Hmono : monotone (burst_schedule ++ [2500])).
  { simpl. repeat split; repeat (apply Forall_cons; split; [lia |]);
      try apply Forall_nil; done. }
  assert (Hwin : 2500 - hd 2500 burst_schedule <= 10000) by (simpl; lia).
  split; [done |].
  destruct dual_window_rate_limit as (_ & _ & _ & _ & _ & Hburst).
  exact (proj1 (proj2 (Hburst "10.0.0.1"%string burst_schedule 2500
                         Hlen Hmono Hwin))).
Defined.

Lemma fetch_queue_is_fifo_witness :
  (awaiting (Queue.run faulty_users Queue.empty three_jobs_one_done) = [job2]
   /\ faulty_users (userId job2) = Failed "lookup failed"%string)
  /\ executed
       (Queue.resume faulty_users
          (Queue.run faulty_users Queue.empty three_jobs_one_done)).2
     = executed (Queue.run faulty_users Queue.empty three_jobs_one_done)
       ++ [job2].
Proof.
  assert (Hj : awaiting (Queue.run faulty_users Queue.empty three_jobs_one_done)
               = [job2]) by reflexivity.
  assert (Hf : faulty_users (userId job2) = Failed "lookup failed"%string)
    by reflexivity.
  split; [done |].
  destruct (fetch_queue_is_fifo faulty_users three_jobs_one_done)
    as (_ & _ & _ & Hfail & _).
  exact (proj1 (proj2 (Hfail job2 "lookup failed"%string Hj Hf))).
Defined.

Lemma single_flight_witness :
  (server_ok (Handler.init (User := string)) /\ 0 < 1
   /\ JsMap.get 1 (map (userCache (Handler.init (User := string)))) = None
   /\ inFlightFetches (Handler.init (User := string)) !! 1 = None
   /\ length [300] = S (length (pending_jobs (Handler.init (User := string))))
   /\ (1%nat, 105) ∈ [(0%nat, 100); (1%nat, 105); (2%nat, 110)])
  /\ Build_reply 1 (Some 0%nat) (Handler.answer (readme_users 1))
     ∈ responses
         (Handler.run readme_users Handler.init
            (lookups 1 [(0%nat, 100); (1%nat, 105); (2%nat, 110)]
             ++ List.map Handler.Timer [300])).
Proof.
  assert (Hok : server_ok (Handler.init (User := string))) by apply init_ok.
  assert (Hid : 0 < 1) by lia.
  assert (Habs : JsMap.get 1 (map (userCache (Handler.init (User := string))))
                 = None) by reflexivity.
  assert (Hnone : inFlightFetches (Handler.init (User := string)) !! 1 = None)
    by reflexivity.
  assert (Hlen : length [300]
                 = S (length (pending_jobs (Handler.init (User := string)))))
    by reflexivity.
  assert (Hin : (1%nat, 105) ∈ [(0%nat, 100); (1%nat, 105); (2%nat, 110)])
    by (apply list_elem_of_further, list_elem_of_here).
  split; [done |].
  destruct (single_flight readme_users) as (_ & _ & Hall & _).
  exact (proj1 (Hall Handler.init 1 (0%nat, 100)
                  [(1%nat, 105); (2%nat, 110)] [300]
                  Hok Hid Habs Hnone Hlen) (1%nat, 105) Hin).
Defined.

Lemma not_found_is_not_cached_witness :
  (server_ok (Handler.init (User := string)) /\ 0 < 42
   /\ JsMap.get 42 (map (userCache (Handler.init (User := string)))) = None
   /\ inFlightFetches (Handler.init (User := string)) !! 42 = None
   /\ readme_users 42 = Fetched None
   /\ length [300] = S (length (pending_jobs (Handler.init (User := string)))))
  /\ JsMap.get 42
       (map (userCache
               (Handler.run readme_users Handler.init
                  (lookups 42 [(0%nat, 100); (1%nat, 101)]
                   ++ List.map Handler.Timer [300])))) = None.
Proof.
  assert (Hok : server_ok (Handler.init (User := string))) by apply init_ok.
  assert (Hid : 0 < 42) by lia.
  assert (Habs : JsMap.get 42 (map (userCache (Handler.init (User := string))))
                 = None) by reflexivity.
  assert (Hnone : inFlightFetches (Handler.init (User := string)) !! 42 = None)
    by reflexivity.
  assert (Hnull : readme_users 42 = Fetched None) by reflexivity.
  assert (Hlen : length [300]
                 = S (length (pending_jobs (Handler.init (User := string)))))
    by reflexivity.
  split; [done |].
  destruct (not_found_is_not_cached readme_users) as (_ & _ & _ & Hend).
  exact (proj2 (Hend Handler.init 42 (0%nat, 100) [(1%nat, 101)] [300]
                  Hok Hid Habs Hnone Hnull Hlen)).
Defined.

(** ** The model at work *)

Example small_cache_map :
  map small_cache
  = [(2, {| value := "two"%string; expiresAt := 1010 |});
     (3, {| value := "three"%string; expiresAt := 1020 |})].
Proof. reflexivity. Qed.

Example recency_example_keys :
  JsMap.keys (map recency_example) = ["B"%string; "C"%string]
  /\ Cache.stats recency_example = {| hits := 0; misses := 1; size := 2 |}.
Proof. split; reflexivity. Qed.

Example burst_then_refused_then_granted :
  (Limiter.serve ∅
     (from_ip "10.0.0.1"%string (burst_schedule ++ [2500; 10000; 10001]))).1
  = [Next; Next; Next; Next; Next; TooManyRequests; TooManyRequests; Next].
Proof. by vm_compute. Qed.

Example other_identity_not_limited :
  (Limiter.serve ∅
     (from_ip "10.0.0.1"%string burst_schedule
      ++ [("10.0.0.1"%string, 2500); ("10.0.0.2"%string, 2500)])).1
  = [Next; Next; Next; Next; Next; TooManyRequests; Next].
Proof. by vm_compute. Qed.

Example three_jobs_in_order :
  executed
    (Queue.run faulty_users Queue.empty
       (three_jobs_one_done ++ [Queue.Fire; Queue.Fire]))
  = [job1; job2; job3].
Proof. reflexivity. Qed.

Example three_lookups_one_fetch :
  let s := Handler.run readme_users Handler.init
             (lookups 1 [(0%nat, 100); (1%nat, 105); (2%nat, 110)]
              ++ [Handler.Timer 300; Handler.Request 3 1 400]) in
  enqueued (dbQueue s) = [{| userId := 1; promise := 0 |}]
  /\ List.map r_answer (responses s)
     = [FromDatabase "John Doe"%string; FromDatabase "John Doe"%string;
        FromDatabase "John Doe"%string; FromCache "John Doe"%string]
  /\ Cache.stats (userCache s) = {| hits := 1; misses := 3; size := 1 |}.
Proof. by vm_compute. Qed.

Example unknown_user_not_cached :
  let s := Handler.run readme_users Handler.init
             (lookups 42 [(0%nat, 100); (1%nat, 101)]
              ++ [Handler.Timer 300; Handler.Request 2 42 400]) in
  List.map r_answer (responses s) = [NotFound; NotFound]
  /\ map (userCache s) = []
  /\ enqueued (dbQueue s)
     = [{| userId := 42; promise := 0 |}; {| userId := 42; promise := 1 |}].
Proof. by vm_compute. Qed.

(** * Further properties of the cache *)

Section CacheMore.
Context {K V : Type} `{EqDecision K} {key_class : JsKey K}.
Implicit Types (c : LRUCache K V) (key : K) (now : Z)
  (m : list (K * CacheEntry V)).


Lemma get_filter_kept key (f : K * CacheEntry V -> bool) m e :
  JsMap.get key m = Some e -> f (key, e) = true ->
  JsMap.get key (List.filter f m) = Some e.
Proof.
  induction m as [|[k0 e0] m IH]; simpl; [done |].
  destruct (decide (k0 = key)) as [->|Hne].
  - intros [= ->] Hf. rewrite Hf. simpl. by rewrite decide_True.
  - intros Hg Hf. destruct (f (k0, e0)); simpl; [| by apply IH].
    rewrite decide_False by done. by apply IH.
Qed.


Lemma map_purgeStale c now :
  distinct_keys c ->
  map (Cache.purgeStale c now) = List.filter (live now) (map c).
Proof. intros Hnd. apply (purge_loop now (map c) []), Hnd. Qed.

(** X1. [clear()] empties the cache and puts both counters back to zero,
    keeping the configuration; whatever was cached before, the next
    [get] or [has] of any key finds nothing, and that [get] is the first
    miss counted. *)
Theorem clear_forgets_everything c key now :
  Cache.stats (Cache.clear c) = {| hits := 0; misses := 0; size := 0 |}
  /\ maxSize (Cache.clear c) = maxSize c /\ ttlMs (Cache.clear c) = ttlMs c
  /\ (Cache.get (Cache.clear c) key now).1 = None
  /\ Cache.stats (Cache.get (Cache.clear c) key now).2
     = {| hits := 0; misses := 1; size := 0 |}
  /\ Cache.has (Cache.clear c) key now = (false, Cache.clear c).
Proof. by split_and!. Qed.

Lemma tally_step c (o : op K V) (ops : list (op K V)) (h m : nat) :
  tally c (o :: ops) h m
  = tally (Trace.exec c o) ops
      (match o with
       | OpGet key now =>
           match (Cache.get c key now).1 with Some _ => S h | None => h end
       | OpClear => 0%nat
       | _ => h
       end)
      (match o with
       | OpGet key now =>
           match (Cache.get c key now).1 with Some _ => m | None => S m end
       | OpClear => 0%nat
       | _ => m
       end).
Proof.
  simpl. destruct o as [k now|k val now|k now| |now]; try done.
  by destruct (Cache.get c k now).1.
Qed.

Lemma exec_counters c (o : op K V) :
  _hits (Trace.exec c o)
  = (match o with
     | OpGet key now =>
         match (Cache.get c key now).1 with
         | Some _ => S (_hits c)
         | None => _hits c
         end
     | OpClear => 0%nat
     | _ => _hits c
     end)
  /\ _misses (Trace.exec c o)
     = (match o with
        | OpGet key now =>
            match (Cache.get c key now).1 with
            | Some _ => _misses c
            | None => S (_misses c)
            end
        | OpClear => 0%nat
        | _ => _misses c
        end).
Proof.
  destruct o as [k now|k val now|k now| |now]; simpl; try done.
  - unfold Cache.get. destruct (JsMap.get k (map c)) as [e|]; simpl; [| done].
    by destruct (expiresAt e <=? now).
  - unfold Cache.has. destruct (JsMap.get k (map c)) as [e|]; simpl; [| done].
    by destruct (expiresAt e <=? now).
Qed.

(** X2. The counters count the [get] calls and nothing else: after any
    sequence of operations, [_hits] and [_misses] are the numbers of [get]
    calls since the last [clear] (or since the start, on top of the earlier
    counts) that returned a value and that returned nothing. [set], [has]
    and [purgeStale] never change them, so without a [clear] the two
    counters grow together by the number of [get] calls. *)
Theorem counters_count_gets c (ops : list (op K V)) :
  (_hits (Trace.run c ops), _misses (Trace.run c ops))
  = tally c ops (_hits c) (_misses c)
  /\ (Forall (fun o => o <> OpClear) ops ->
      (_hits (Trace.run c ops) + _misses (Trace.run c ops)
       = _hits c + _misses c
         + length (List.filter
                     (fun o => match o with OpGet _ _ => true | _ => false end)
                     ops))%nat).
Proof.
  split.
  - unfold Trace.run. revert c. induction ops as [|o ops IH]; intros c; [done |].
    rewrite tally_step. simpl fold_left. rewrite IH.
    by destruct (exec_counters c o) as [-> ->].
  - unfold Trace.run. revert c. induction ops as [|o ops IH]; intros c Hall.
    + simpl. lia.
    + apply Forall_cons in Hall as [Ho Hall]. simpl fold_left.
      rewrite (IH _ Hall). destruct (exec_counters c o) as [-> ->].
      destruct o as [k now|k val now|k now| |now]; simpl; try lia; [| done].
      destruct (Cache.get c k now).1; simpl; lia.
Qed.

(** The entry of [key] survives a [get] of any key made before the entry
    expires. *)
Lemma get_keeps_live_entry c key (e : CacheEntry V) k now :
  JsMap.get key (map c) = Some e -> now < expiresAt e ->
  JsMap.get key (map (Cache.get c k now).2) = Some e.
Proof.
  intros Hg Hnow. unfold Cache.get.
  destruct (JsMap.get k (map c)) as [e0|] eqn:Hk; simpl; [| done].
  destruct (Z.leb_spec (expiresAt e0) now) as [Hexp|Hlive]; simpl.
  - rewrite get_delete_ne; [done |]. intros ->. rewrite Hg in Hk.
    injection Hk as <-. lia.
  - by rewrite get_reinsert.
Qed.

(** The entry of [key] survives an operation that is neither a [set] nor
    a [clear] and reads the clock before the entry expires. *)
Lemma exec_keeps_live_entry c key (e : CacheEntry V) (o : op K V) :
  distinct_keys c -> JsMap.get key (map c) = Some e ->
  match o with OpSet _ _ _ | OpClear => False | _ => True end ->
  (forall t, Trace.clock o = Some t -> t < expiresAt e) ->
  JsMap.get key (map (Trace.exec c o)) = Some e.
Proof.
  intros Hnd Hg Ho Ht.
  destruct o as [k now|k val now|k now| |now]; simpl in *; try done;
    specialize (Ht now eq_refl).
  - unfold Cache.get.
    destruct (JsMap.get k (map c)) as [e0|] eqn:Hk; simpl; [| done].
    destruct (Z.leb_spec (expiresAt e0) now) as [Hexp|Hlive]; simpl.
    + rewrite get_delete_ne; [done |]. intros ->. rewrite Hg in Hk.
      injection Hk as <-. lia.
    + by rewrite get_reinsert.
  - unfold Cache.has.
    destruct (JsMap.get k (map c)) as [e0|] eqn:Hk; simpl; [| done].
    destruct (Z.leb_spec (expiresAt e0) now) as [Hexp|Hlive]; simpl; [| done].
    rewrite get_delete_ne; [done |]. intros ->. rewrite Hg in Hk.
    injection Hk as <-. lia.
  - change (JsMap.get key (map (Cache.purgeStale c now)) = Some e).
    rewrite map_purgeStale by done.
    apply get_filter_kept; [done |]. unfold live. simpl. apply Z.ltb_lt. lia.
Qed.

(** X3. What was written is read back until it expires: after
    [set(key, value)] at [t0], and after any [get], [has] and [purgeStale]
    calls (of any keys) made before [t0 + ttl], a [get(key)] before
    [t0 + ttl] returns [value] and counts a hit. *)
Theorem written_value_is_read_until_expiry c key (val : V) t0
    (ops : list (op K V)) now :
  distinct_keys c ->
  reads_only ops ->
  Forall (fun o => forall t, Trace.clock o = Some t -> t < t0 + ttlMs c) ops ->
  now < t0 + ttlMs c ->
  let c1 := Trace.run (Cache.set c key val t0) ops in
  (Cache.get c1 key now).1 = Some val
  /\ _hits (Cache.get c1 key now).2 = S (_hits c1)
  /\ _misses (Cache.get c1 key now).2 = _misses c1.
Proof.
  intros Hnd Hro Hclk Hnow c1.
  set (e := {| value := val; expiresAt := t0 + ttlMs c |}).
  assert (Hinv : distinct_keys c1 /\ JsMap.get key (map c1) = Some e).
  { unfold c1, Trace.run.
    assert (H0 : distinct_keys (Cache.set c key val t0)
                 /\ JsMap.get key (map (Cache.set c key val t0)) = Some e).
    { split; [apply (exec_distinct_keys c (OpSet key val t0) Hnd) |].
      unfold Cache.set. simpl. apply get_set_same. }
    revert H0. generalize (Cache.set c key val t0). unfold reads_only in Hro.
    induction ops as [|o ops IH]; intros c0 [Hd Hg]; [done |].
    apply Forall_cons in Hro as [Ho Hro]. apply Forall_cons in Hclk as [Ht Hclk].
    simpl. apply IH; [done | done |]. split.
    - by apply exec_distinct_keys.
    - by apply exec_keeps_live_entry. }
  destruct Hinv as [_ Hg]. unfold Cache.get. rewrite Hg. simpl.
  replace (t0 + ttlMs c <=? now) with false by (symmetry; apply Z.leb_gt; lia).
  done.
Qed.

(** X4. [set] of a key that has an entry never evicts: the other entries
    stay, with their values, expiries and order, also when the cache is
    full; the entry of the key takes the new value and a fresh expiry and
    moves to the most recent end; the size and the counters are
    unchanged. *)
Theorem set_of_present_key_evicts_nothing c key (val : V) now :
  distinct_keys c ->
  JsMap.get key (map c) <> None ->
  let c' := Cache.set c key val now in
  map c' = JsMap.delete key (map c)
           ++ [(key, {| value := val; expiresAt := now + ttlMs c |})]
  /\ (forall k, k <> key -> JsMap.get k (map c') = JsMap.get k (map c))
  /\ JsMap.size (map c') = JsMap.size (map c)
  /\ _hits c' = _hits c /\ _misses c' = _misses c.
Proof.
  intros Hnd Hpresent c'.
  assert (Hm : map c' = JsMap.delete key (map c)
                 ++ [(key, {| value := val; expiresAt := now + ttlMs c |})]).
  { unfold c', Cache.set, JsMap.has. simpl.
    destruct (JsMap.get key (map c)); [| done].
    by rewrite set_absent by apply get_delete_eq. }
  split_and!; try done.
  - intros k Hk. rewrite Hm, get_app_absent, get_delete_ne by done.
    rewrite decide_False by done. by destruct (JsMap.get k (map c)).
  - rewrite Hm. unfold JsMap.size. rewrite length_app. simpl.
    assert (length (JsMap.delete key (map c)) = pred (length (map c))) as ->.
    { clear Hm c'. unfold distinct_keys, JsMap.keys in Hnd.
      induction (map c) as [|[k0 e0] m IH]; [done |].
      simpl in *. apply NoDup_cons in Hnd as [Hnin Hnd].
      destruct (decide (k0 = key)) as [->|Hne].
      - rewrite delete_absent; [done |]. by apply get_None_keys.
      - simpl. rewrite IH by done.
        destruct m as [|p m]; [| done]. simpl in Hpresent. done. }
    destruct (map c); [done |]. simpl. lia.
Qed.

Lemma get_live_entry c key now (e : CacheEntry V) :
  JsMap.get key (map c) = Some e -> now < expiresAt e ->
  Cache.get c key now
  = (Some (value e),
     Cache.hit (Cache.with_map c (JsMap.delete key (map c) ++ [(key, e)]))).
Proof.
  intros Hg Hlive. unfold Cache.get. rewrite Hg.
  replace (expiresAt e <=? now) with false by (symmetry; apply Z.leb_gt; lia).
  by rewrite set_absent by apply get_delete_eq.
Qed.

(** X5. A [get] that finds a live entry returns its value, counts one
    hit, and only moves the entry to the most recent end: every entry,
    the one read included, keeps its value and its expiry, so reading
    does not prolong the life of an entry. *)
Theorem get_hit_moves_entry_and_keeps_expiry c key now (e : CacheEntry V) :
  JsMap.get key (map c) = Some e -> now < expiresAt e ->
  let r := Cache.get c key now in
  r.1 = Some (value e)
  /\ map r.2 = JsMap.delete key (map c) ++ [(key, e)]
  /\ (forall k, JsMap.get k (map r.2) = JsMap.get k (map c))
  /\ _hits r.2 = S (_hits c) /\ _misses r.2 = _misses c.
Proof.
  intros Hg Hlive r. unfold r. rewrite (get_live_entry c key now e Hg Hlive).
  simpl. split_and!; try done.
  intros k. rewrite <- (get_reinsert k key e (map c) Hg).
  by rewrite set_absent by apply get_delete_eq.
Qed.


(** X7. Whatever finite capacity the cache was built with, a fraction,
    zero and the negative numbers included, it never holds more than
    [max(1, ceiling(capacity))] entries, as long as the key [undefined] is
    never set: below the capacity an insertion leaves the size within its
    ceiling, and at or above it every insertion of a new key first evicts
    the oldest entry. With a capacity of at most one the cache holds at most
    one entry. *)
Theorem size_bound_for_any_capacity (capacity : Q) (ttl : Z)
    (ops : list (op K V)) :
  sets_defined_keys ops ->
  JsMap.size (map (Trace.run (Cache.create (Num capacity) ttl) ops))
  <= Z.max 1 (Qceiling capacity)
  /\ ((capacity <= 1)%Q ->
      JsMap.size (map (Trace.run (Cache.create (Num capacity) ttl) ops)) <= 1).
Proof.
  intros Hops.
  destruct (run_size_bound capacity ops
              (Cache.create (K := K) (V := V) (Num capacity) ttl) eq_refl)
    as [_ Hb].
  { constructor. }
  { done. }
  { unfold JsMap.size. simpl. lia. }
  split; [done |]. intros Hcap.
  apply Qceiling_resp_le in Hcap. change (Qceiling 1) with 1 in Hcap. lia.
Qed.

(** X26. A capacity that is [NaN] or [Infinity] bounds nothing: the test
    [size >= maxSize] is never true, so a [set] of a key that has no entry
    evicts nothing and appends the new entry, whatever the size of the
    map. *)
Theorem unbounded_capacity_never_evicts c key (val : V) now :
  maxSize c = NaN \/ maxSize c = Infinity ->
  JsMap.has key (map c) = false ->
  map (Cache.set c key val now)
  = map c ++ [(key, {| value := val; expiresAt := now + ttlMs c |})]
  /\ JsMap.size (map (Cache.set c key val now)) = JsMap.size (map c) + 1.
Proof.
  intros Hmax Habsent.
  assert (Hm : map (Cache.set c key val now)
               = map c ++ [(key, {| value := val; expiresAt := now + ttlMs c |})]).
  { unfold Cache.set. rewrite Habsent. simpl.
    unfold JsMap.has in Habsent.
    destruct (JsMap.get key (map c)) eqn:Hg; [done |].
    destruct Hmax as [-> | ->]; simpl; by rewrite set_absent. }
  split; [done |]. rewrite Hm. unfold JsMap.size. rewrite length_app. simpl. lia.
Qed.

(** X27. An entry whose key is the value [undefined] is never evicted:
    when the oldest key of the map is [undefined], a [set] of a key that
    has no entry deletes nothing, also when the cache is full, and appends
    the new entry; the map grows beyond the capacity. *)
Theorem undefined_oldest_key_blocks_eviction c oldestKey key (val : V) now :
  JsMap.first_key (map c) = Some oldestKey ->
  is_undefined oldestKey = true ->
  JsMap.has key (map c) = false ->
  map (Cache.set c key val now)
  = map c ++ [(key, {| value := val; expiresAt := now + ttlMs c |})]
  /\ JsMap.size (map (Cache.set c key val now)) = JsMap.size (map c) + 1.
Proof.
  intros Hfirst Hundef Habsent.
  assert (Hm : map (Cache.set c key val now)
               = map c ++ [(key, {| value := val; expiresAt := now + ttlMs c |})]).
  { unfold Cache.set. rewrite Habsent, Hfirst, Hundef. simpl.
    unfold JsMap.has in Habsent.
    destruct (JsMap.get key (map c)) eqn:Hg; [done |].
    destruct (size_ge (JsMap.size (map c)) (maxSize c)); by rewrite set_absent. }
  split; [done |]. rewrite Hm. unfold JsMap.size. rewrite length_app. simpl. lia.
Qed.
End CacheMore.

(** * Further properties of the rate limiter *)

Section LimiterMore.
Implicit Types (m : gmap string RateLimitState) (ip : string) (now : Z)
  (ts A : list Z) (reqs : list (string * Z)).

Lemma Forall_filter_window (window now : Z) ts :
  Forall (fun t => now - t <= window)
    (List.filter (fun t => now - t <=? window) ts).
Proof.
  apply Forall_forall. intros t Hin.
  apply list_elem_of_In, filter_In in Hin as [_ Hle]. by apply Z.leb_le.
Qed.

(** X8. After a check at [now], granted or refused, every reading kept
    for the identity lies within its window: none in the 60 s sequence is
    older than [now - 60 s], none in the 10 s sequence older than
    [now - 10 s]. *)
Theorem kept_readings_lie_within_their_windows m ip now :
  Forall (fun t => now - t <= 60000)
    (last60s (Limiter.state_of (Limiter.rateLimiter m ip now).2 ip))
  /\ Forall (fun t => now - t <= 10000)
       (last10s (Limiter.state_of (Limiter.rateLimiter m ip now).2 ip)).
Proof.
  rewrite state_of_rateLimiter_same.
  unfold Limiter.check_spec. rewrite <- !prune_is_prune_spec.
  destruct (bool_decide _); simpl.
  - split; apply Forall_filter_window.
  - split; (apply Forall_app; split; [apply Forall_filter_window |]);
      (constructor; [lia | constructor]).
Qed.

Lemma check_spec_short_in_long (st : RateLimitState) now :
  (forall t, t ∈ last10s st -> t ∈ last60s st) ->
  forall t, t ∈ last10s (Limiter.check_spec st now).2 ->
            t ∈ last60s (Limiter.check_spec st now).2.
Proof.
  intros Hin t. unfold Limiter.check_spec. rewrite <- !prune_is_prune_spec.
  assert (Hf : t ∈ List.filter (fun t => now - t <=? 10000) (last10s st) ->
               t ∈ List.filter (fun t => now - t <=? 60000) (last60s st)).
  { intros Ht. apply list_elem_of_In, filter_In in Ht as [Ht Hle].
    apply list_elem_of_In, filter_In. split.
    - by apply list_elem_of_In, Hin, list_elem_of_In.
    - apply Z.leb_le in Hle. apply Z.leb_le. lia. }
  destruct (bool_decide _); simpl; [done |].
  rewrite !elem_of_app. intros [Ht|Ht]; [left; by apply Hf | by right].
Qed.

(** X9. In every state the limiter reaches, an identity has at most 10
    readings in its 60 s sequence and at most 5 in its 10 s sequence, and
    every reading of the 10 s sequence is also in the 60 s sequence. *)
Theorem limiter_state_stays_bounded reqs ip :
  let st := Limiter.state_of (Limiter.serve ∅ reqs).2 ip in
  (length (last60s st) <= 10)%nat
  /\ (length (last10s st) <= 5)%nat
  /\ (forall t, t ∈ last10s st -> t ∈ last60s st).
Proof.
  intros st.
  destruct (serve_within_ceilings reqs ∅ within_ceilings_empty ip) as [H60 H10].
  split; [done |]. split; [done |]. unfold st. clear.
  assert (H0 : forall ip t, t ∈ last10s (Limiter.state_of ∅ ip) ->
                            t ∈ last60s (Limiter.state_of ∅ ip)).
  { intros ip' t. unfold Limiter.state_of. by rewrite lookup_empty. }
  revert H0. generalize (∅ : gmap string RateLimitState).
  induction reqs as [|[ip' now] reqs IH]; intros m Hm; [by apply Hm |].
  rewrite serve_cons. simpl. apply IH. intros ip0 t.
  destruct (decide (ip' = ip0)) as [<-|Hne].
  - rewrite state_of_rateLimiter_same. apply check_spec_short_in_long, Hm.
  - unfold Limiter.state_of. rewrite lookup_rateLimiter_other by done.
    apply Hm.
Qed.

(** X10. A refused request is not held against the identity: after a
    refusal at [now], a check at any later time gives the verdict and the
    state it would have given had the refused request never been made. *)
Theorem refused_request_leaves_no_trace m ip now later :
  (Limiter.rateLimiter m ip now).1 = TooManyRequests ->
  now <= later ->
  Limiter.rateLimiter (Limiter.rateLimiter m ip now).2 ip later
  = Limiter.rateLimiter m ip later.
Proof.
  intros Hrefused Hle.
  rewrite (rateLimiter_is_check_spec (Limiter.rateLimiter m ip now).2).
  rewrite state_of_rateLimiter_same.
  rewrite (rateLimiter_is_check_spec m ip later).
  rewrite rateLimiter_is_check_spec in Hrefused. simpl in Hrefused.
  rewrite (rateLimiter_is_check_spec m ip now). simpl.
  rewrite insert_insert_eq.
  assert (Hsame : Limiter.check_spec
                    (Limiter.check_spec (Limiter.state_of m ip) now).2 later
                  = Limiter.check_spec (Limiter.state_of m ip) later).
  { revert Hrefused. unfold Limiter.check_spec at 1 3.
    destruct (bool_decide _); [| done]. intros _. simpl.
    unfold Limiter.check_spec. simpl.
    rewrite <- !prune_is_prune_spec. by rewrite !filter_window_twice. }
  by rewrite Hsame.
Qed.

Lemma granted_in_requests reqs m ip t :
  t ∈ Limiter.granted m ip reqs -> (ip, t) ∈ reqs.
Proof.
  revert m. induction reqs as [|[ip' now] reqs IH]; intros m.
  - intros Hin. by apply elem_of_nil in Hin.
  - rewrite granted_cons. rewrite elem_of_app. intros [Hin|Hin].
    + destruct (Limiter.rateLimiter m ip' now).1;
        [| by apply elem_of_nil in Hin].
      destruct (decide (ip' = ip)) as [->|]; [| by apply elem_of_nil in Hin].
      apply list_elem_of_singleton in Hin as ->. apply list_elem_of_here.
    + apply list_elem_of_further. by apply (IH _ Hin).
Qed.

Lemma within_none (window now : Z) ts :
  (forall t, t ∈ ts -> window < now - t) -> Limiter.within window now ts = 0%nat.
Proof.
  unfold Limiter.within. induction ts as [|t ts IH]; intros Hall; [done |].
  simpl. replace (now - t <=? window) with false
    by (symmetry; apply Z.leb_gt, Hall, list_elem_of_here).
  apply IH. intros t' Ht'. by apply Hall, list_elem_of_further.
Qed.

(** X11. An identity that has been quiet for more than 60 s is let
    through: with a clock that does not run backwards, a request that comes
    more than 60 s after every earlier request of its identity is granted,
    whatever happened before, refusals included. *)
Theorem quiet_identity_is_let_through reqs ip now :
  monotone (reqs.*2 ++ [now]) ->
  (forall t, (ip, t) ∈ reqs -> 60000 < now - t) ->
  (Limiter.rateLimiter (Limiter.serve ∅ reqs).2 ip now).1 = Next.
Proof.
  intros Hm Hquiet.
  destruct (verdict_from_history reqs ip now Hm) as [Hiff _].
  destruct (Limiter.rateLimiter (Limiter.serve ∅ reqs).2 ip now).1; [done |].
  exfalso. destruct (proj1 Hiff eq_refl) as [H|H].
  - rewrite within_none in H; [lia |].
    intros t Ht. by apply Hquiet, (granted_in_requests reqs ∅).
  - rewrite within_none in H; [lia |].
    intros t Ht. apply (granted_in_requests reqs ∅) in Ht.
    apply Hquiet in Ht. lia.
Qed.

(** X12. The limiter never forgets an identity: after serving any
    requests the map holds a state for exactly the identities it held
    before and those that made a request, granted or refused. *)
Theorem identities_are_never_forgotten reqs m :
  dom (Limiter.serve m reqs).2 = dom m ∪ list_to_set reqs.*1.
Proof.
  revert m. induction reqs as [|[ip now] reqs IH]; intros m.
  - simpl. by rewrite union_empty_r_L.
  - rewrite serve_cons. simpl. rewrite IH, rateLimiter_is_check_spec. simpl.
    rewrite dom_insert_L, (assoc_L (∪) (dom m)), (comm_L (∪) (dom m) {[ip]}).
    reflexivity.
Qed.
End LimiterMore.

(** * Further properties of the database queue *)

Section QueueMore.
Context {User : Type}.
Variable mockUsers : Z -> attempt User.

(** X13. The worker flag tells the truth: in every state of the queue
    [processing] is set exactly when one job is in execution; when it is
    not set nothing waits in the queue, so no job is stranded; a timer
    that fires on the idle queue changes nothing, and a job pushed on the
    idle queue is taken into execution at once. *)
Theorem worker_flag_matches_execution (evs : list Queue.event) :
  let q := Queue.run mockUsers Queue.empty evs in
  (processing q = true <-> exists job, awaiting q = [job])
  /\ (processing q = false -> awaiting q = [] /\ queue q = [])
  /\ (processing q = false -> Queue.resume mockUsers q = (None, q))
  /\ (forall job, processing q = false ->
        awaiting (Queue.enqueue q job) = [job]
        /\ queue (Queue.enqueue q job) = []
        /\ processing (Queue.enqueue q job) = true).
Proof.
  intros q.
  assert (Hq : queue_ok q) by apply run_ok, queue_ok_empty.
  destruct Hq as [_ [[Hp [j Hj]]|(Hp & Ha & Hq)]].
  - split_and!.
    + split; [by exists j | done].
    + congruence.
    + congruence.
    + intros job. congruence.
  - split_and!.
    + split; [congruence |]. intros [j Hj]. congruence.
    + done.
    + intros _. by apply resume_idle.
    + intros job _. unfold Queue.enqueue, Queue.processNext. simpl.
      by rewrite Hp, Hq, Ha.
Qed.
End QueueMore.

(** * Further properties of the [GET /users/:id] handler *)

Section HandlerMore.
Context {User : Type}.
Variable mockUsers : Z -> attempt User.
Implicit Types (s : Server User) (w : waiter) (job : DbJob).

(** X14. A request with a non-positive id is answered with 400 before
    anything is touched: the cache with its counters, the queue, the
    registry and the suspended handlers are as before. *)
Theorem invalid_id_touches_nothing s req id now :
  id <= 0 ->
  Handler.arrive s req id now
  = {| userCache := userCache s; dbQueue := dbQueue s;
       inFlightFetches := inFlightFetches s; suspended := suspended s;
       promises := promises s;
       responses := responses s ++ [Build_reply req None BadRequest] |}.
Proof.
  intros Hid. rewrite arrive_unfold.
  by replace (id <=? 0) with true by (symmetry; apply Z.leb_le; lia).
Qed.

(** X15. A lookup that finds a live entry is answered from the cache at
    once, with the cached user: one hit is counted, the entry moves to the
    most recent end, and no job is pushed, no promise created, nothing
    registered and no handler suspended. *)
Theorem cache_hit_is_answered_at_once s req id now (e : CacheEntry User) :
  0 < id -> JsMap.get id (map (userCache s)) = Some e -> now < expiresAt e ->
  let s' := Handler.arrive s req id now in
  responses s' = responses s ++ [Build_reply req None (FromCache (value e))]
  /\ dbQueue s' = dbQueue s /\ inFlightFetches s' = inFlightFetches s
  /\ suspended s' = suspended s /\ promises s' = promises s
  /\ _hits (userCache s') = S (_hits (userCache s))
  /\ _misses (userCache s') = _misses (userCache s)
  /\ map (userCache s') = JsMap.delete id (map (userCache s)) ++ [(id, e)].
Proof.
  intros Hid Hg Hlive s'. unfold s'. rewrite arrive_unfold.
  replace (id <=? 0) with false by (symmetry; apply Z.leb_gt; lia).
  by rewrite (get_live_entry (userCache s) id now e Hg Hlive).
Qed.

Lemma wake_live_entry_unchanged settled now s w (e : CacheEntry User) :
  JsMap.get (w_id w) (map (userCache s)) = Some e -> now < expiresAt e ->
  userCache (Handler.wake settled now s w) = userCache s.
Proof.
  intros Hg Hlive. destruct settled as [[user|]|err]; simpl; [| done | done].
  unfold Cache.has. rewrite Hg.
  by replace (expiresAt e <=? now) with false by (symmetry; apply Z.leb_gt; lia).
Qed.

Lemma fold_wake_live_entry_unchanged settled now (W : list waiter) s id
    (e : CacheEntry User) :
  Forall (fun w => w_id w = id) W ->
  JsMap.get id (map (userCache s)) = Some e -> now < expiresAt e ->
  userCache (fold_left (Handler.wake settled now) W s) = userCache s.
Proof.
  revert s. induction W as [|w W IH]; intros s Hall Hg Hlive; [done |].
  apply Forall_cons in Hall as [Hw Hall]. simpl.
  assert (Hc : userCache (Handler.wake settled now s w) = userCache s).
  { apply (wake_live_entry_unchanged settled now s w e); [by rewrite Hw | done]. }
  rewrite IH; [done | done | by rewrite Hc | done].
Qed.

(** X16. A fetch never overwrites a live cached entry: when the job in
    execution is for an id that has a live entry at that time (put there
    while the fetch was pending), the timer step answers the waiting
    handlers and leaves the cache exactly as it was, value, expiry, order
    and counters. *)
Theorem fetch_does_not_overwrite_live_entry s now job (e : CacheEntry User) :
  server_ok s -> awaiting (dbQueue s) = [job] ->
  JsMap.get (userId job) (map (userCache s)) = Some e -> now < expiresAt e ->
  userCache (Handler.timer mockUsers s now) = userCache s
  /\ responses (Handler.timer mockUsers s now)
     = responses s ++
       List.map (reply_to (mockUsers (userId job)))
         (List.filter (Handler.awaits (promise job)) (suspended s)).
Proof.
  intros Hok Hj Hg Hlive.
  destruct (timer_busy mockUsers s now job Hok Hj)
    as (_ & _ & _ & _ & Eresp & _ & HW & _).
  split; [| done].
  pose proof Hok as (Hq & _).
  destruct (resume_busy mockUsers (dbQueue s) job Hq Hj) as (Hres & _).
  unfold Handler.timer.
  destruct (Queue.resume mockUsers (dbQueue s)) as [done q']. simpl in Hres.
  subst done.
  rewrite (fold_wake_live_entry_unchanged _ now _ _ (userId job) e); try done.
  eapply Forall_impl; [exact HW |]. by intros w <-.
Qed.

Lemma wake_caches_found_user (user : User) now s w (ttl : Z) :
  ttlMs (userCache s) = ttl ->
  (JsMap.get (w_id w) (map (userCache s))
   = Some {| value := user; expiresAt := now + ttl |}
   \/ forall e, JsMap.get (w_id w) (map (userCache s)) = Some e ->
                expiresAt e <= now) ->
  ttlMs (userCache (Handler.wake (Fetched (Some user)) now s w)) = ttl
  /\ JsMap.get (w_id w)
       (map (userCache (Handler.wake (Fetched (Some user)) now s w)))
     = Some {| value := user; expiresAt := now + ttl |}.
Proof.
  intros Httl Hcase. simpl. unfold Cache.has.
  destruct (JsMap.get (w_id w) (map (userCache s))) as [e|] eqn:Hg.
  - destruct (Z.leb_spec (expiresAt e) now) as [Hexp|Hlive].
    + split; [done |]. unfold Cache.set. simpl. rewrite Httl.
      apply get_set_same.
    + split; [done |]. destruct Hcase as [[= ->]|Hexp]; [done |].
      specialize (Hexp e eq_refl). lia.
  - split; [done |]. unfold Cache.set. simpl. rewrite Httl. apply get_set_same.
Qed.

Lemma fold_wake_caches_found_user (user : User) now (W : list waiter) s id
    (ttl : Z) :
  W <> [] -> Forall (fun w => w_id w = id) W ->
  ttlMs (userCache s) = ttl ->
  (JsMap.get id (map (userCache s))
   = Some {| value := user; expiresAt := now + ttl |}
   \/ forall e, JsMap.get id (map (userCache s)) = Some e -> expiresAt e <= now) ->
  JsMap.get id
    (map (userCache (fold_left (Handler.wake (Fetched (Some user)) now) W s)))
  = Some {| value := user; expiresAt := now + ttl |}.
Proof.
  revert s. induction W as [|w W IH]; intros s Hne Hall Httl Hcase; [done |].
  apply Forall_cons in Hall as [Hw Hall]. simpl fold_left.
  destruct (wake_caches_found_user user now s w ttl Httl) as [Httl' Hg'].
  { by rewrite Hw. }
  rewrite Hw in Hg'.
  destruct W as [|w' W]; [done |].
  apply IH; [done | done | done | by left].
Qed.

(** A request reads the cache through one [get], or not at all. *)
Lemma arrive_reads_cache s req id now :
  userCache (Handler.arrive s req id now) = userCache s
  \/ userCache (Handler.arrive s req id now)
     = (Cache.get (userCache s) id now).2.
Proof.
  rewrite arrive_unfold. destruct (id <=? 0); [by left |]. right.
  destruct (Cache.get (userCache s) id now) as [[user|] cache]; simpl;
    [done |]. by destruct (inFlightFetches s !! id).
Qed.

(** Requests that arrive before an entry expires leave it in the cache. *)
Lemma lookups_keep_live_entry (evs : list Handler.event) s key
    (e : CacheEntry User) :
  lookups_before (expiresAt e) evs ->
  JsMap.get key (map (userCache s)) = Some e ->
  JsMap.get key (map (userCache (Handler.run mockUsers s evs))) = Some e.
Proof.
  unfold Handler.run. revert s.
  induction evs as [|ev evs IH]; intros s Hevs Hg; [done |].
  apply Forall_cons in Hevs as [Hev Hevs]. simpl. apply IH; [done |].
  destruct ev as [req id now|now]; simpl; [| done].
  destruct (arrive_reads_cache s req id now) as [->| ->]; [done |].
  by apply get_keeps_live_entry.
Qed.

(** X17. A user that the fetch found is cached with a fresh expiry: when
    the job in execution finds a user and its id has no live entry, then
    after the timer step the cache holds that user for the id, expiring a
    time to live after the step. As long as nothing but requests (for any
    ids) arrives after the step, every lookup of the id before the expiry
    is a cache hit. *)
Theorem found_user_is_cached s now job (user : User) :
  server_ok s -> awaiting (dbQueue s) = [job] ->
  mockUsers (userId job) = Fetched (Some user) ->
  (forall e, JsMap.get (userId job) (map (userCache s)) = Some e ->
             expiresAt e <= now) ->
  let s' := Handler.timer mockUsers s now in
  JsMap.get (userId job) (map (userCache s'))
  = Some {| value := user; expiresAt := now + ttlMs (userCache s) |}
  /\ (forall (evs : list Handler.event) later,
        lookups_before (now + ttlMs (userCache s)) evs ->
        later < now + ttlMs (userCache s) ->
        (Cache.get (userCache (Handler.run mockUsers s' evs))
           (userId job) later).1 = Some user).
Proof.
  intros Hok Hj Hfound Hstale s'.
  destruct (timer_busy mockUsers s now job Hok Hj)
    as (_ & _ & _ & _ & _ & _ & HW & HWne).
  pose proof Hok as (Hq & _).
  destruct (resume_busy mockUsers (dbQueue s) job Hq Hj) as (Hres & _).
  assert (Hg : JsMap.get (userId job) (map (userCache s'))
               = Some {| value := user;
                         expiresAt := now + ttlMs (userCache s) |}).
  { unfold s', Handler.timer.
    destruct (Queue.resume mockUsers (dbQueue s)) as [done q']. simpl in Hres.
    subst done. rewrite Hfound.
    apply fold_wake_caches_found_user; try done.
    - eapply Forall_impl; [exact HW |]. by intros w <-.
    - by right. }
  split; [done |]. intros evs later Hevs Hlater.
  apply (lookups_keep_live_entry evs s' (userId job)) in Hg; [| done].
  unfold Cache.get. rewrite Hg. simpl.
  by replace (now + ttlMs (userCache s) <=? later) with false
    by (symmetry; apply Z.leb_gt; lia).
Qed.
End HandlerMore.

(** * Properties of the whole set of routes *)

Section ApiFacts.
Implicit Types (a : Api.State) (s : Server Api.User).

Lemma server_ok_with_cache s (cache : LRUCache Z Api.User) :
  server_ok s -> server_ok (Api.with_cache s cache).
Proof. done. Qed.

Lemma postUsers_server a body now :
  Api.server (Api.postUsers a body now).2 = Api.server a
  \/ exists cache,
       Api.server (Api.postUsers a body now).2 = Api.with_cache (Api.server a) cache.
Proof.
  unfold Api.postUsers.
  destruct (Api.falsy_number (Api.body_id body)
            || Api.falsy_string (Api.body_name body)
            || Api.falsy_string (Api.body_email body)); [by left |].
  destruct (Api.body_id body) as [id|]; [| by left].
  destruct (Api.body_name body) as [name|]; [| by left].
  destruct (Api.body_email body) as [email|]; [| by left].
  destruct (Api.mockUsers a !! id); [by left |].
  destruct (Cache.has (userCache (Api.server a)) id now) as [present cache].
  right. by eexists.
Qed.

Lemma step_server_ok_api a (e : Api.event) :
  server_ok (Api.server a) -> server_ok (Api.server (Api.step a e)).
Proof.
  intros Hok. destruct e as [req id now|now|body now| |now]; simpl.
  - by apply arrive_ok.
  - by apply timer_ok.
  - destruct (postUsers_server a body now) as [->|[cache ->]]; [done |].
    by apply server_ok_with_cache.
  - by apply server_ok_with_cache.
  - by apply server_ok_with_cache.
Qed.

Lemma run_server_ok_api (evs : list Api.event) a :
  server_ok (Api.server a) -> server_ok (Api.server (Api.run a evs)).
Proof.
  unfold Api.run. revert a.
  induction evs as [|e evs IH]; intros a Hok; simpl; [done |].
  by apply IH, step_server_ok_api.
Qed.

Lemma timers_api (nows : list Z) a :
  Api.run a (List.map Api.QueueTimer nows)
  = {| Api.mockUsers := Api.mockUsers a;
       Api.server :=
         Handler.run (Api.lookupUser (Api.mockUsers a)) (Api.server a)
           (List.map Handler.Timer nows) |}.
Proof.
  unfold Api.run, Handler.run. revert a.
  induction nows as [|now nows IH]; intros a; simpl; [by destruct a |].
  by rewrite IH.
Qed.

Lemma no_pending_no_registry s :
  server_ok s -> pending_jobs s = [] -> inFlightFetches s = ∅.
Proof.
  intros (_ & _ & _ & Hreg & _) Hnil. apply map_empty. intros id.
  destruct (inFlightFetches s !! id) as [p|] eqn:Hp; [| done].
  apply Hreg in Hp. rewrite Hnil in Hp. by apply elem_of_nil in Hp.
Qed.

(** X18. Over all routes and timers the registry of fetches in flight
    holds exactly the ids that have a job queued or in execution, with the
    promise of that job; no two pending jobs are for the same id; every
    suspended handler waits for a pending job. Once the timers of the
    pending jobs have fired the registry is empty and no handler is left
    suspended. *)
Theorem registry_holds_exactly_the_pending_fetches
    (table : gmap Z Api.User) (evs : list Api.event) (nows : list Z) :
  let a := Api.run (Api.init table) evs in
  (forall id p,
     inFlightFetches (Api.server a) !! id = Some p
     <-> {| userId := id; promise := p |} ∈ pending_jobs (Api.server a))
  /\ NoDup (userId <$> pending_jobs (Api.server a))
  /\ Forall (fun w => job_of w ∈ pending_jobs (Api.server a)) (suspended (Api.server a))
  /\ (length nows = length (pending_jobs (Api.server a)) ->
      let a' := Api.run a (List.map Api.QueueTimer nows) in
      inFlightFetches (Api.server a') = ∅ /\ suspended (Api.server a') = []
      /\ pending_jobs (Api.server a') = []).
Proof.
  intros a.
  assert (Hok : server_ok (Api.server a)).
  { apply run_server_ok_api. simpl. apply init_ok. }
  split_and!.
  - apply Hok.
  - by apply pending_distinct_ids.
  - apply Hok.
  - intros Hlen a'. unfold a'. rewrite timers_api. simpl.
    destruct (timers_answer_all (Api.lookupUser (Api.mockUsers a)) nows
                (Api.server a) Hok Hlen) as (Hs & Hp & _).
    split_and!; try done. apply no_pending_no_registry; [| done].
    by apply run_server_ok.
Qed.

Lemma timer_counts (mockUsers : Z -> attempt Api.User) s now :
  (length (responses (Handler.timer mockUsers s now))
   + length (suspended (Handler.timer mockUsers s now))
   = length (responses s) + length (suspended s))%nat.
Proof.
  unfold Handler.timer.
  destruct (Queue.resume mockUsers (dbQueue s)) as [[[job settled]|] q'];
    [| done].
  match goal with |- context [fold_left ?f ?W ?s0] =>
    destruct (fold_wake settled now W s0) as (_ & -> & _ & -> & _) end.
  simpl. rewrite length_app, length_map.
  pose proof (filter_length (Handler.awaits (promise job)) (suspended s)). lia.
Qed.

Lemma arrive_counts s req id now :
  (length (responses (Handler.arrive s req id now))
   + length (suspended (Handler.arrive s req id now))
   = S (length (responses s) + length (suspended s)))%nat.
Proof.
  rewrite arrive_unfold. destruct (id <=? 0); simpl.
  - rewrite length_app. simpl. lia.
  - destruct (Cache.get (userCache s) id now) as [[user|] cache]; simpl.
    + rewrite length_app. simpl. lia.
    + destruct (inFlightFetches s !! id); simpl; rewrite length_app; simpl; lia.
Qed.

(** X19. No request is lost and none is answered twice: at every moment
    the number of replies sent plus the number of handlers still suspended
    is the number of [GET /users/:id] requests received. *)
Theorem every_request_is_answered_or_waiting
    (table : gmap Z Api.User) (evs : list Api.event) :
  let a := Api.run (Api.init table) evs in
  (length (responses (Api.server a)) + length (suspended (Api.server a)))%nat
  = Api.gets evs.
Proof.
  intros a. unfold a, Api.run.
  assert (Hgen : forall a0,
            (length (responses (Api.server (fold_left Api.step evs a0)))
             + length (suspended (Api.server (fold_left Api.step evs a0)))
             = length (responses (Api.server a0)) + length (suspended (Api.server a0))
               + Api.gets evs)%nat).
  { induction evs as [|e evs IH]; intros a0.
    - unfold Api.gets. simpl. lia.
    - simpl fold_left. rewrite IH.
      destruct e as [req id now|now|body now| |now]; unfold Api.gets; simpl.
      + rewrite arrive_counts. lia.
      + rewrite timer_counts. lia.
      + destruct (postUsers_server a0 body now) as [->|[cache ->]]; simpl; lia.
      + lia.
      + lia. }
  rewrite Hgen. simpl. lia.
Qed.

(** X20. [POST /users] never replaces a user: whatever the payload, every
    user of the table is still there unchanged after the request; and a
    request that is not answered with 201 changes nothing at all, neither
    table nor cache. *)
Theorem post_never_replaces_a_user a body now :
  (forall id user,
     Api.mockUsers a !! id = Some user ->
     Api.mockUsers (Api.postUsers a body now).2 !! id = Some user)
  /\ ((forall user, (Api.postUsers a body now).1 <> Api.Created user) ->
      (Api.postUsers a body now).2 = a).
Proof.
  unfold Api.postUsers.
  destruct (Api.falsy_number (Api.body_id body)
            || Api.falsy_string (Api.body_name body)
            || Api.falsy_string (Api.body_email body)); [done |].
  destruct (Api.body_id body) as [id|]; [| done].
  destruct (Api.body_name body) as [name|]; [| done].
  destruct (Api.body_email body) as [email|]; [| done].
  destruct (Api.mockUsers a !! id) as [u|] eqn:Hid; [done |].
  destruct (Cache.has (userCache (Api.server a)) id now) as [present cache].
  simpl. split.
  - intros id' user Hu. rewrite lookup_insert_ne; [done |]. congruence.
  - intros Hno. by destruct (Hno {| Api.id := id; Api.name := name;
                                     Api.email := email |}).
Qed.

Lemma set_get_cases (c : LRUCache Z Api.User) k (v : Api.User) now k'
    (e : CacheEntry Api.User) :
  JsMap.get k' (map (Cache.set c k v now)) = Some e ->
  (k' = k /\ value e = v) \/ JsMap.get k' (map c) = Some e.
Proof.
  destruct (decide (k = k')) as [->|Hne].
  - unfold Cache.set. simpl. rewrite get_set_same. intros [= <-]. by left.
  - intros Hg. right. by apply (exec_get_Some k' c (OpSet k v now)).
Qed.

Lemma has_get_Some (c : LRUCache Z Api.User) k now k' (e : CacheEntry Api.User) :
  JsMap.get k' (map (Cache.has c k now).2) = Some e ->
  JsMap.get k' (map c) = Some e.
Proof. apply (exec_get_Some k' c (OpHas k now) e I). Qed.

(** The cache agrees with a table. *)
Lemma wake_agrees (table : gmap Z Api.User) now s w :
  (forall id e, JsMap.get id (map (userCache s)) = Some e ->
                table !! id = Some (value e)) ->
  forall id e,
    JsMap.get id
      (map (userCache
              (Handler.wake (Api.lookupUser table (w_id w)) now s w))) = Some e ->
    table !! id = Some (value e).
Proof.
  intros Hagree id e. unfold Api.lookupUser.
  destruct (table !! w_id w) as [user|] eqn:Hu; simpl; [| apply Hagree].
  pose proof (has_get_Some (userCache s) (w_id w) now) as Hhas.
  destruct (Cache.has (userCache s) (w_id w) now) as [present cache].
  simpl in Hhas. destruct present.
  - intros Hg. by apply Hagree, Hhas.
  - intros Hg. apply set_get_cases in Hg as [[-> <-]|Hg]; [done |].
    by apply Hagree, Hhas.
Qed.

Lemma fold_wake_agrees (table : gmap Z Api.User) now (W : list waiter) s id0 :
  Forall (fun w => w_id w = id0) W ->
  (forall id e, JsMap.get id (map (userCache s)) = Some e ->
                table !! id = Some (value e)) ->
  forall id e,
    JsMap.get id
      (map (userCache
              (fold_left (Handler.wake (Api.lookupUser table id0) now) W s)))
    = Some e ->
    table !! id = Some (value e).
Proof.
  revert s. induction W as [|w W IH]; intros s Hall Hagree; [done |].
  apply Forall_cons in Hall as [Hw Hall]. simpl fold_left.
  apply IH; [done |]. rewrite <- Hw. by apply wake_agrees.
Qed.

Lemma step_cache_agrees a (e : Api.event) :
  server_ok (Api.server a) -> Api.cache_agrees a -> Api.cache_agrees (Api.step a e).
Proof.
  intros Hok Hagree. unfold Api.cache_agrees in *.
  destruct e as [req id now|now|body now| |now]; simpl.
  - intros id' e Hg. apply Hagree.
    revert Hg. rewrite arrive_unfold. destruct (id <=? 0); [done |].
    pose proof (exec_get_Some id' (userCache (Api.server a)) (OpGet id now) e I)
      as Hget. simpl in Hget.
    destruct (Cache.get (userCache (Api.server a)) id now) as [[user|] cache];
      simpl in *; [done |].
    by destruct (inFlightFetches (Api.server a) !! id).
  - pose proof Hok as (Hq & _).
    pose proof Hq as [_ [[_ [job Hj]]|(_ & Ha & _)]]; [| by rewrite timer_idle].
    destruct (timer_busy (Api.lookupUser (Api.mockUsers a)) (Api.server a) now job
                Hok Hj) as (_ & _ & _ & _ & _ & _ & HW & _).
    destruct (resume_busy (Api.lookupUser (Api.mockUsers a)) (dbQueue (Api.server a))
                job Hq Hj) as (Hres & _).
    unfold Handler.timer.
    destruct (Queue.resume (Api.lookupUser (Api.mockUsers a))
                (dbQueue (Api.server a))) as [done q']. simpl in Hres.
    subst done. apply fold_wake_agrees; [| done].
    eapply Forall_impl; [exact HW |]. by intros w <-.
  - unfold Api.postUsers.
    destruct (Api.falsy_number (Api.body_id body)
              || Api.falsy_string (Api.body_name body)
              || Api.falsy_string (Api.body_email body)); [done |].
    destruct (Api.body_id body) as [id|]; [| done].
    destruct (Api.body_name body) as [name|]; [| done].
    destruct (Api.body_email body) as [email|]; [| done].
    destruct (Api.mockUsers a !! id) as [u|] eqn:Hid; [done |].
    pose proof (has_get_Some (userCache (Api.server a)) id now) as Hhas.
    destruct (Cache.has (userCache (Api.server a)) id now) as [present cache].
    simpl in *. intros id' e Hg.
    assert (Hold : JsMap.get id' (map (userCache (Api.server a))) = Some e ->
                   <[id := {| Api.id := id; Api.name := name;
                              Api.email := email |}]> (Api.mockUsers a) !! id'
                   = Some (value e)).
    { intros Hg'. apply Hagree in Hg'. rewrite lookup_insert_ne; [done |].
      congruence. }
    destruct present.
    + by apply Hold, Hhas.
    + apply set_get_cases in Hg as [[-> <-]|Hg].
      * by rewrite lookup_insert_eq.
      * by apply Hold, Hhas.
  - done.
  - intros id e Hg. apply Hagree.
    by apply (exec_get_Some id (userCache (Api.server a)) (OpPurgeStale now) e I).
Qed.

Lemma run_cache_agrees (evs : list Api.event) a :
  server_ok (Api.server a) -> Api.cache_agrees a ->
  Api.cache_agrees (Api.run a evs).
Proof.
  unfold Api.run. revert a.
  induction evs as [|e evs IH]; intros a Hok Hagree; simpl; [done |].
  apply IH; [by apply step_server_ok_api | by apply step_cache_agrees].
Qed.

Lemma init_cache_agrees (table : gmap Z Api.User) :
  Api.cache_agrees (Api.init table).
Proof. intros id e Hg. done. Qed.

(** X21. The cache never serves a user other than the one in the table:
    over all routes and timers, every entry of the cache holds the user
    that the table holds for its id, so whatever a lookup reads from the
    cache is the user a fetch would find. *)
Theorem cache_serves_what_the_table_holds
    (table : gmap Z Api.User) (evs : list Api.event) :
  let a := Api.run (Api.init table) evs in
  Api.cache_agrees a
  /\ forall id now user,
       (Cache.get (userCache (Api.server a)) id now).1 = Some user ->
       Api.lookupUser (Api.mockUsers a) id = Fetched (Some user).
Proof.
  intros a.
  assert (Hagree : Api.cache_agrees a).
  { apply run_cache_agrees; [apply init_ok | apply init_cache_agrees]. }
  split; [done |]. intros id now user. unfold Cache.get, Api.lookupUser.
  destruct (JsMap.get id (map (userCache (Api.server a)))) as [e|] eqn:Hg;
    [| done].
  apply Hagree in Hg. destruct (expiresAt e <=? now); [done |].
  simpl. intros [= <-]. by rewrite Hg.
Qed.



(** X23. [POST /users] accepts a negative id, which [GET /users/:id]
    refuses: a user posted with a negative id that the table does not hold
    yet, and with a name and an email, is created and stored in the table;
    every lookup of that id, in whatever state of the server, is answered
    with 400 and leaves the cache with its counters, the queue, the
    registry and the suspended handlers as they were. *)
Theorem negative_id_is_created_but_never_fetched a id name email now :
  id < 0 -> name <> EmptyString -> email <> EmptyString ->
  Api.mockUsers a !! id = None ->
  let body := {| Api.body_id := Some id; Api.body_name := Some name;
                 Api.body_email := Some email |} in
  let user := {| Api.id := id; Api.name := name; Api.email := email |} in
  (Api.postUsers a body now).1 = Api.Created user
  /\ Api.mockUsers (Api.postUsers a body now).2 !! id = Some user
  /\ forall (s : Server Api.User) req later,
       Handler.arrive s req id later
       = {| userCache := userCache s; dbQueue := dbQueue s;
            inFlightFetches := inFlightFetches s; suspended := suspended s;
            promises := promises s;
            responses := responses s ++ [Build_reply req None BadRequest] |}.
Proof.
  intros Hid Hname Hemail Hfree body user.
  unfold Api.postUsers, body. simpl.
  replace (id =? 0) with false by (symmetry; apply Z.eqb_neq; lia).
  rewrite !bool_decide_eq_false_2 by done. simpl. rewrite Hfree.
  destruct (Cache.has (userCache (Api.server a)) id now) as [present cache].
  simpl. split_and!; [done | by rewrite lookup_insert_eq |].
  intros s req later. rewrite arrive_unfold.
  by replace (id <=? 0) with true by (symmetry; apply Z.leb_le; lia).
Qed.
End ApiFacts.

(** ** Instances of the further properties on concrete inputs *)

Lemma counters_count_gets_witness :
  Forall (fun o : op Z string => o <> OpClear) three_reads
  /\ (_hits (Trace.run small_cache three_reads)
      + _misses (Trace.run small_cache three_reads)
      = _hits small_cache + _misses small_cache + 2)%nat.
Proof.
  assert (Hall : Forall (fun o : op Z string => o <> OpClear) three_reads).
  { unfold three_reads. repeat (constructor; [discriminate |]). constructor. }
  split; [done |].
  exact (proj2 (counters_count_gets small_cache three_reads) Hall).
Defined.

Lemma written_value_is_read_until_expiry_witness :
  (distinct_keys (Cache.create (K := Z) (V := string) 2 1000)
   /\ reads_only early_reads
   /\ Forall (fun o : op Z string =>
                forall t, Trace.clock o = Some t ->
                  t < 0 + ttlMs (Cache.create (K := Z) (V := string) 2 1000))
        early_reads
   /\ 999 < 0 + ttlMs (Cache.create (K := Z) (V := string) 2 1000))
  /\ (Cache.get
        (Trace.run (Cache.set (Cache.create 2 1000) 1 "one"%string 0)
           early_reads) 1 999).1 = Some "one"%string.
Proof.
  assert (Hd : distinct_keys (Cache.create (K := Z) (V := string) 2 1000))
    by constructor.
  assert (Hro : reads_only early_reads)
    by (unfold reads_only, early_reads; repeat constructor).
  assert (Hclk : Forall (fun o : op Z string =>
                   forall t, Trace.clock o = Some t ->
                     t < 0 + ttlMs (Cache.create (K := Z) (V := string) 2 1000))
                   early_reads).
  { unfold early_reads.
    repeat (constructor; [simpl; intros t [= <-]; lia |]). constructor. }
  assert (Hnow : 999 < 0 + ttlMs (Cache.create (K := Z) (V := string) 2 1000))
    by (simpl; lia).
  split; [done |].
  exact (proj1 (written_value_is_read_until_expiry (Cache.create 2 1000) 1
                  "one"%string 0 early_reads 999 Hd Hro Hclk Hnow)).
Defined.

Lemma set_of_present_key_evicts_nothing_witness :
  (distinct_keys small_cache /\ JsMap.get 2 (map small_cache) <> None)
  /\ JsMap.size (map (Cache.set small_cache 2 "deux"%string 50))
     = JsMap.size (map small_cache).
Proof.
  assert (Hp : JsMap.get 2 (map small_cache) <> None) by discriminate.
  split; [split; [exact small_cache_distinct_keys | done] |].
  exact (proj1 (proj2 (proj2 (set_of_present_key_evicts_nothing small_cache 2
                  "deux"%string 50 small_cache_distinct_keys Hp)))).
Defined.

Lemma get_hit_moves_entry_and_keeps_expiry_witness :
  (JsMap.get 2 (map small_cache)
   = Some {| value := "two"%string; expiresAt := 1010 |}
   /\ 1000 < expiresAt {| value := "two"%string; expiresAt := 1010 |})
  /\ map (Cache.get small_cache 2 1000).2
     = JsMap.delete 2 (map small_cache)
       ++ [(2, {| value := "two"%string; expiresAt := 1010 |})].
Proof.
  assert (Hg : JsMap.get 2 (map small_cache)
               = Some {| value := "two"%string; expiresAt := 1010 |})
    by reflexivity.
  assert (Hl : 1000 < expiresAt {| value := "two"%string; expiresAt := 1010 |})
    by (simpl; lia).
  split; [done |].
  exact (proj1 (proj2 (get_hit_moves_entry_and_keeps_expiry small_cache 2 1000
                         _ Hg Hl))).
Defined.


Lemma size_bound_for_any_capacity_witness :
  sets_defined_keys [OpSet 1 "one"%string 0; OpSet 2 "two"%string 10]
  /\ JsMap.size (map fractional_cache) <= 2.
Proof.
  assert (Hops : sets_defined_keys
                   [OpSet 1 "one"%string 0; OpSet 2 "two"%string 10])
    by (repeat constructor).
  split; [done |].
  exact (proj1 (size_bound_for_any_capacity (K := Z) (V := string) (3 # 2) 1000
                  [OpSet 1 "one"%string 0; OpSet 2 "two"%string 10] Hops)).
Defined.

Lemma unbounded_capacity_never_evicts_witness :
  (maxSize (Cache.create (K := Z) (V := string) NaN 1000) = NaN
   \/ maxSize (Cache.create (K := Z) (V := string) NaN 1000) = Infinity)
  /\ JsMap.has 1 (map (Cache.create (K := Z) (V := string) NaN 1000)) = false
  /\ map (Cache.set (Cache.create NaN 1000) 1 "one"%string 0)
     = [(1, {| value := "one"%string; expiresAt := 0 + 1000 |})].
Proof.
  assert (Hmax : maxSize (Cache.create (K := Z) (V := string) NaN 1000) = NaN
                 \/ maxSize (Cache.create (K := Z) (V := string) NaN 1000)
                    = Infinity) by (left; reflexivity).
  assert (Habsent : JsMap.has 1 (map (Cache.create (K := Z) (V := string) NaN 1000))
                    = false) by reflexivity.
  split; [exact Hmax |]. split; [exact Habsent |].
  exact (proj1 (unbounded_capacity_never_evicts
                  (Cache.create NaN 1000) 1 "one"%string 0 Hmax Habsent)).
Defined.

Lemma undefined_oldest_key_blocks_eviction_witness :
  (JsMap.first_key (map undefined_key_cache) = Some None
   /\ is_undefined (None : option Z) = true
   /\ JsMap.has (Some 3) (map undefined_key_cache) = false)
  /\ JsMap.size (map (Cache.set undefined_key_cache (Some 3) "three"%string 30))
     = JsMap.size (map undefined_key_cache) + 1.
Proof.
  assert (Hfirst : JsMap.first_key (map undefined_key_cache) = Some None)
    by reflexivity.
  assert (Hundef : is_undefined (None : option Z) = true) by reflexivity.
  assert (Habsent : JsMap.has (Some 3) (map undefined_key_cache) = false)
    by reflexivity.
  split; [exact (conj Hfirst (conj Hundef Habsent)) |].
  exact (proj2 (undefined_oldest_key_blocks_eviction undefined_key_cache None
                  (Some 3) "three"%string 30 Hfirst Hundef Habsent)).
Defined.

Lemma limiter_state_stays_bounded_witness :
  2000 ∈ last10s
           (Limiter.state_of
              (Limiter.serve ∅ (from_ip "10.0.0.1"%string burst_schedule)).2
              "10.0.0.1"%string)
  /\ 2000 ∈ last60s
             (Limiter.state_of
                (Limiter.serve ∅ (from_ip "10.0.0.1"%string burst_schedule)).2
                "10.0.0.1"%string).
Proof.
  assert (Hin : 2000 ∈ last10s
                  (Limiter.state_of
                     (Limiter.serve ∅
                        (from_ip "10.0.0.1"%string burst_schedule)).2
                     "10.0.0.1"%string)).
  { apply list_elem_of_In. vm_compute. auto 10. }
  split; [done |].
  exact (proj2 (proj2 (limiter_state_stays_bounded
                         (from_ip "10.0.0.1"%string burst_schedule)
                         "10.0.0.1"%string)) 2000 Hin).
Defined.

Lemma refused_request_leaves_no_trace_witness :
  ((Limiter.rateLimiter
      (Limiter.serve ∅ (from_ip "10.0.0.1"%string burst_schedule)).2
      "10.0.0.1"%string 2500).1 = TooManyRequests
   /\ 2500 <= 10001)
  /\ Limiter.rateLimiter
       (Limiter.rateLimiter
          (Limiter.serve ∅ (from_ip "10.0.0.1"%string burst_schedule)).2
          "10.0.0.1"%string 2500).2 "10.0.0.1"%string 10001
     = Limiter.rateLimiter
         (Limiter.serve ∅ (from_ip "10.0.0.1"%string burst_schedule)).2
         "10.0.0.1"%string 10001.
Proof.
  assert (Hr : (Limiter.rateLimiter
                  (Limiter.serve ∅ (from_ip "10.0.0.1"%string burst_schedule)).2
                  "10.0.0.1"%string 2500).1 = TooManyRequests)
    by (by vm_compute).
  assert (Hle : 2500 <= 10001) by lia.
  split; [exact (conj Hr Hle) |].
  exact (refused_request_leaves_no_trace _ "10.0.0.1"%string 2500 10001 Hr Hle).
Defined.

Lemma quiet_identity_is_let_through_witness :
  (monotone ((from_ip "10.0.0.1"%string burst_schedule).*2 ++ [70000])
   /\ (forall t, ("10.0.0.1"%string, t)
                 ∈ from_ip "10.0.0.1"%string burst_schedule ->
                 60000 < 70000 - t))
  /\ (Limiter.rateLimiter
        (Limiter.serve ∅ (from_ip "10.0.0.1"%string burst_schedule)).2
        "10.0.0.1"%string 70000).1 = Next.
Proof.
  assert (Hm : monotone ((from_ip "10.0.0.1"%string burst_schedule).*2
                         ++ [70000])).
  { simpl. repeat split; repeat (apply Forall_cons; split; [lia |]);
      try apply Forall_nil; done. }
  assert (Hq : forall t, ("10.0.0.1"%string, t)
                         ∈ from_ip "10.0.0.1"%string burst_schedule ->
                         60000 < 70000 - t).
  { intros t Hin. apply list_elem_of_In in Hin. simpl in Hin.
    repeat (destruct Hin as [[= <-]|Hin]; [lia |]). done. }
  split; [done |].
  exact (quiet_identity_is_let_through _ "10.0.0.1"%string 70000 Hm Hq).
Defined.

Lemma worker_flag_matches_execution_witness :
  processing
    (Queue.run faulty_users Queue.empty [Queue.Enqueue job1; Queue.Fire])
  = false
  /\ awaiting
       (Queue.enqueue
          (Queue.run faulty_users Queue.empty [Queue.Enqueue job1; Queue.Fire])
          job2) = [job2].
Proof.
  assert (Hp : processing
                 (Queue.run faulty_users Queue.empty
                    [Queue.Enqueue job1; Queue.Fire]) = false) by reflexivity.
  split; [done |].
  destruct (worker_flag_matches_execution faulty_users
              [Queue.Enqueue job1; Queue.Fire]) as (_ & _ & _ & Hstart).
  exact (proj1 (Hstart job2 Hp)).
Defined.

Lemma invalid_id_touches_nothing_witness :
  0 <= 0
  /\ userCache (Handler.arrive (Handler.init (User := string)) 7 0 100)
     = userCache (Handler.init (User := string)).
Proof.
  assert (Hid : 0 <= 0) by lia. split; [done |].
  by rewrite (invalid_id_touches_nothing (Handler.init (User := string))
                7 0 100 Hid).
Defined.

Lemma cache_hit_is_answered_at_once_witness :
  (0 < 1
   /\ JsMap.get 1 (map (userCache john_cached))
      = Some {| value := "John Doe"%string; expiresAt := 60300 |}
   /\ 400 < expiresAt {| value := "John Doe"%string; expiresAt := 60300 |})
  /\ dbQueue (Handler.arrive john_cached 1 1 400) = dbQueue john_cached.
Proof.
  assert (Hid : 0 < 1) by lia.
  assert (Hg : JsMap.get 1 (map (userCache john_cached))
               = Some {| value := "John Doe"%string; expiresAt := 60300 |})
    by reflexivity.
  assert (Hl : 400 < expiresAt {| value := "John Doe"%string;
                                  expiresAt := 60300 |}) by (simpl; lia).
  split; [done |].
  exact (proj1 (proj2 (cache_hit_is_answered_at_once john_cached 1 1 400 _
                         Hid Hg Hl))).
Defined.

Lemma post_during_fetch_ok : server_ok (Api.server post_during_fetch).
Proof. apply run_server_ok_api. simpl. apply init_ok. Qed.

Lemma fetch_does_not_overwrite_live_entry_witness :
  (server_ok (Api.server post_during_fetch)
   /\ awaiting (dbQueue (Api.server post_during_fetch))
      = [{| userId := 4; promise := 0 |}]
   /\ JsMap.get 4 (map (userCache (Api.server post_during_fetch)))
      = Some {| value := new_user; expiresAt := 60150 |}
   /\ 300 < expiresAt {| value := new_user; expiresAt := 60150 |})
  /\ userCache
       (Handler.timer (Api.lookupUser (Api.mockUsers post_during_fetch))
          (Api.server post_during_fetch) 300)
     = userCache (Api.server post_during_fetch).
Proof.
  assert (Hj : awaiting (dbQueue (Api.server post_during_fetch))
               = [{| userId := 4; promise := 0 |}]) by (by vm_compute).
  assert (Hg : JsMap.get 4 (map (userCache (Api.server post_during_fetch)))
               = Some {| value := new_user; expiresAt := 60150 |})
    by (by vm_compute).
  assert (Hl : 300 < expiresAt {| value := new_user; expiresAt := 60150 |})
    by (simpl; lia).
  split; [split_and!; [exact post_during_fetch_ok | done | done | done] |].
  exact (proj1 (fetch_does_not_overwrite_live_entry
                  (Api.lookupUser (Api.mockUsers post_during_fetch))
                  (Api.server post_during_fetch) 300
                  {| userId := 4; promise := 0 |} _
                  post_during_fetch_ok Hj Hg Hl)).
Defined.

Lemma john_pending_ok : server_ok john_pending.
Proof. apply run_server_ok, init_ok. Qed.

Lemma found_user_is_cached_witness :
  (server_ok john_pending
   /\ awaiting (dbQueue john_pending) = [{| userId := 1; promise := 0 |}]
   /\ readme_users (userId {| userId := 1; promise := 0 |})
      = Fetched (Some "John Doe"%string)
   /\ (forall e, JsMap.get (userId {| userId := 1; promise := 0 |})
                   (map (userCache john_pending)) = Some e ->
                 expiresAt e <= 300)
   /\ lookups_before (300 + ttlMs (userCache john_pending)) later_lookups
   /\ 600 < 300 + ttlMs (userCache john_pending))
  /\ JsMap.get 1 (map (userCache (Handler.timer readme_users john_pending 300)))
     = Some {| value := "John Doe"%string;
               expiresAt := 300 + ttlMs (userCache john_pending) |}
  /\ (Cache.get
        (userCache
           (Handler.run readme_users
              (Handler.timer readme_users john_pending 300) later_lookups))
        1 600).1 = Some "John Doe"%string.
Proof.
  assert (Hj : awaiting (dbQueue john_pending)
               = [{| userId := 1; promise := 0 |}]) by reflexivity.
  assert (Hf : readme_users (userId {| userId := 1; promise := 0 |})
               = Fetched (Some "John Doe"%string)) by reflexivity.
  assert (Hs : forall e, JsMap.get (userId {| userId := 1; promise := 0 |})
                           (map (userCache john_pending)) = Some e ->
                         expiresAt e <= 300).
  { intros e He. vm_compute in He. discriminate He. }
  assert (Hl : lookups_before (300 + ttlMs (userCache john_pending))
                 later_lookups).
  { unfold lookups_before, later_lookups.
    repeat (constructor; [vm_compute; reflexivity |]). constructor. }
  assert (Ht : 600 < 300 + ttlMs (userCache john_pending))
    by (vm_compute; reflexivity).
  split; [split_and!; [exact john_pending_ok | done | done | done | done | done] |].
  destruct (found_user_is_cached readme_users john_pending 300
              {| userId := 1; promise := 0 |} "John Doe"%string
              john_pending_ok Hj Hf Hs) as [Hcached Hhit].
  split; [exact Hcached | exact (Hhit later_lookups 600 Hl Ht)].
Defined.

Lemma registry_holds_exactly_the_pending_fetches_witness :
  length [300]
  = length (pending_jobs
              (Api.server
                 (Api.run (Api.init readme_table)
                    [Api.GetUser 0 1 100; Api.GetUser 1 1 105])))
  /\ inFlightFetches
       (Api.server
          (Api.run
             (Api.run (Api.init readme_table)
                [Api.GetUser 0 1 100; Api.GetUser 1 1 105])
             (List.map Api.QueueTimer [300]))) = ∅.
Proof.
  assert (Hlen : length [300]
                 = length (pending_jobs
                             (Api.server
                                (Api.run (Api.init readme_table)
                                   [Api.GetUser 0 1 100; Api.GetUser 1 1 105]))))
    by (by vm_compute).
  split; [done |].
  destruct (registry_holds_exactly_the_pending_fetches readme_table
              [Api.GetUser 0 1 100; Api.GetUser 1 1 105] [300])
    as (_ & _ & _ & Hdrain).
  exact (proj1 (Hdrain Hlen)).
Defined.

Lemma post_never_replaces_a_user_witness :
  Api.mockUsers (Api.init readme_table) !! 1 = Some john
  /\ Api.mockUsers
       (Api.postUsers (Api.init readme_table)
          {| Api.body_id := Some 1; Api.body_name := Some "Impostor"%string;
             Api.body_email := Some "x@example.com"%string |} 100).2 !! 1
     = Some john.
Proof.
  assert (Hj : Api.mockUsers (Api.init readme_table) !! 1 = Some john)
    by (by vm_compute).
  split; [done |].
  exact (proj1 (post_never_replaces_a_user (Api.init readme_table) _ 100)
           1 john Hj).
Defined.

Lemma cache_serves_what_the_table_holds_witness :
  (Cache.get
     (userCache
        (Api.server
           (Api.run (Api.init readme_table)
              [Api.GetUser 0 1 100; Api.QueueTimer 300]))) 1 400).1 = Some john
  /\ Api.lookupUser
       (Api.mockUsers
          (Api.run (Api.init readme_table)
             [Api.GetUser 0 1 100; Api.QueueTimer 300])) 1
     = Fetched (Some john).
Proof.
  assert (Hg : (Cache.get
                  (userCache
                     (Api.server
                        (Api.run (Api.init readme_table)
                           [Api.GetUser 0 1 100; Api.QueueTimer 300]))) 1 400).1
               = Some john) by (by vm_compute).
  split; [done |].
  exact (proj2 (cache_serves_what_the_table_holds readme_table
                  [Api.GetUser 0 1 100; Api.QueueTimer 300]) 1 400 john Hg).
Defined.


Lemma negative_id_is_created_but_never_fetched_witness :
  (-1 < 0 /\ "Ghost"%string <> EmptyString
   /\ "ghost@example.com"%string <> EmptyString
   /\ Api.mockUsers (Api.init readme_table) !! (-1) = None)
  /\ Api.mockUsers
       (Api.postUsers (Api.init readme_table)
          {| Api.body_id := Some (-1); Api.body_name := Some "Ghost"%string;
             Api.body_email := Some "ghost@example.com"%string |} 100).2
       !! (-1)
     = Some {| Api.id := -1; Api.name := "Ghost"%string;
               Api.email := "ghost@example.com"%string |}
  /\ userCache (Handler.arrive (Api.server post_during_fetch) 7 (-1) 200)
     = userCache (Api.server post_during_fetch)
  /\ responses (Handler.arrive (Api.server post_during_fetch) 7 (-1) 200)
     = responses (Api.server post_during_fetch)
       ++ [Build_reply 7 None BadRequest].
Proof.
  assert (H1 : -1 < 0) by lia.
  assert (H2 : "Ghost"%string <> EmptyString) by discriminate.
  assert (H3 : "ghost@example.com"%string <> EmptyString) by discriminate.
  assert (H4 : Api.mockUsers (Api.init readme_table) !! (-1) = None)
    by (by vm_compute).
  split; [exact (conj H1 (conj H2 (conj H3 H4))) |].
  destruct (negative_id_is_created_but_never_fetched
              (Api.init readme_table) (-1) "Ghost"%string
              "ghost@example.com"%string 100 H1 H2 H3 H4)
    as (_ & Hstored & Hrefused).
  split; [exact Hstored |].
  rewrite (Hrefused (Api.server post_during_fetch) 7%nat 200). simpl.
  split; reflexivity.
Defined.

(** * The cache behind the routes *)

Section ApiCache.
Implicit Types (a : Api.State) (s : Server Api.User)
  (c : LRUCache Z Api.User).

(** The cache keeps its capacity of 1000 and its bound. *)
Lemma exec_within_capacity c (o : op Z Api.User) :
  maxSize c = CACHE_MAX_SIZE /\ JsMap.size (map c) <= CACHE_MAX_SIZE ->
  maxSize (Trace.exec c o) = CACHE_MAX_SIZE
  /\ JsMap.size (map (Trace.exec c o)) <= CACHE_MAX_SIZE.
Proof.
  intros [Hmax Hsize].
  destruct (exec_size_bound (inject_Z CACHE_MAX_SIZE) c o Hmax) as [H1 H2].
  - by apply all_keys_defined.
  - by apply all_sets_defined.
  - exact Hsize.
  - split; [exact H1 | exact H2].
Qed.

Lemma wake_cache_steps settled now s w :
  userCache (Handler.wake settled now s w) = userCache s
  \/ userCache (Handler.wake settled now s w)
     = Trace.exec (userCache s) (OpHas (w_id w) now)
  \/ exists user,
       userCache (Handler.wake settled now s w)
       = Trace.exec (Trace.exec (userCache s) (OpHas (w_id w) now))
           (OpSet (w_id w) user now).
Proof.
  destruct settled as [[user|]|err]; simpl; [| by left | by left].
  destruct (Cache.has (userCache s) (w_id w) now) as [present cache].
  destruct present; [right; by left |]. right. right. by exists user.
Qed.

Lemma fold_wake_invariant (P : LRUCache Z Api.User -> Prop) settled now
    (W : list waiter) s :
  (forall c o, match o with OpHas _ _ | OpSet _ _ _ => True | _ => False end ->
               P c -> P (Trace.exec c o)) ->
  P (userCache s) ->
  P (userCache (fold_left (Handler.wake settled now) W s)).
Proof.
  intros Hstep. revert s. induction W as [|w W IH]; intros s HP; [done |].
  simpl fold_left. apply IH.
  destruct (wake_cache_steps settled now s w) as [->|[->|[user ->]]];
    [done | by apply Hstep | by apply Hstep, Hstep].
Qed.

Lemma timer_invariant (P : LRUCache Z Api.User -> Prop)
    (mockUsers : Z -> attempt Api.User) now s :
  (forall c o, match o with OpHas _ _ | OpSet _ _ _ => True | _ => False end ->
               P c -> P (Trace.exec c o)) ->
  P (userCache s) -> P (userCache (Handler.timer mockUsers s now)).
Proof.
  intros Hstep HP. unfold Handler.timer.
  destruct (Queue.resume mockUsers (dbQueue s)) as [[[job settled]|] q'];
    [| done].
  by apply fold_wake_invariant.
Qed.

Lemma arrive_cache_steps s req id now :
  (0 < id /\ userCache (Handler.arrive s req id now)
             = Trace.exec (userCache s) (OpGet id now))
  \/ (id <= 0 /\ userCache (Handler.arrive s req id now) = userCache s).
Proof.
  rewrite arrive_unfold. destruct (Z.leb_spec id 0) as [Hle|Hgt];
    [by right |]. left. split; [done |]. simpl.
  destruct (Cache.get (userCache s) id now) as [[user|] cache]; simpl;
    [done |]. by destruct (inFlightFetches s !! id).
Qed.

Lemma postUsers_cache_steps a body now :
  userCache (Api.server (Api.postUsers a body now).2)
  = userCache (Api.server a)
  \/ (exists id,
        userCache (Api.server (Api.postUsers a body now).2)
        = Trace.exec (userCache (Api.server a)) (OpHas id now))
  \/ (exists id user,
        userCache (Api.server (Api.postUsers a body now).2)
        = Trace.exec (Trace.exec (userCache (Api.server a)) (OpHas id now))
            (OpSet id user now)).
Proof.
  unfold Api.postUsers.
  destruct (Api.falsy_number (Api.body_id body)
            || Api.falsy_string (Api.body_name body)
            || Api.falsy_string (Api.body_email body)); [by left |].
  destruct (Api.body_id body) as [id|]; [| by left].
  destruct (Api.body_name body) as [name|]; [| by left].
  destruct (Api.body_email body) as [email|]; [| by left].
  destruct (Api.mockUsers a !! id); [by left |]. simpl.
  destruct (Cache.has (userCache (Api.server a)) id now) as [present cache]
    eqn:Hhas.
  destruct present; simpl.
  - right. left. exists id. simpl. by rewrite Hhas.
  - right. right. eexists id, _. simpl. by rewrite Hhas.
Qed.

(** X24. The cache behind the routes never outgrows its capacity: over
    all routes and timers the size that [GET /cache-status] reports lies
    between 0 and 1000, and the reported time to live is 60 seconds. *)
Theorem reported_size_never_exceeds_capacity
    (table : gmap Z Api.User) (evs : list Api.event) :
  let status := Api.cacheStatus (Api.run (Api.init table) evs) in
  0 <= Api.status_size status <= CACHE_MAX_SIZE
  /\ Api.ttlSeconds status = 60.
Proof.
  intros status. split; [| done]. unfold status, Api.cacheStatus. simpl.
  split; [unfold JsMap.size; lia |].
  assert (Hinv : forall a,
            maxSize (userCache (Api.server a)) = CACHE_MAX_SIZE
            /\ JsMap.size (map (userCache (Api.server a))) <= CACHE_MAX_SIZE ->
            maxSize (userCache (Api.server (Api.run a evs))) = CACHE_MAX_SIZE
            /\ JsMap.size (map (userCache (Api.server (Api.run a evs))))
               <= CACHE_MAX_SIZE).
  { unfold Api.run. induction evs as [|e evs IH]; intros a Ha; [done |].
    simpl fold_left. apply IH.
    destruct e as [req id now|now|body now| |now]; simpl.
    - destruct (arrive_cache_steps (Api.server a) req id now)
        as [[_ ->]|[_ ->]]; [by apply exec_within_capacity | done].
    - apply (timer_invariant
               (fun c => maxSize c = CACHE_MAX_SIZE
                         /\ JsMap.size (map c) <= CACHE_MAX_SIZE)); [| done].
      intros c o _. apply exec_within_capacity.
    - destruct (postUsers_cache_steps a body now) as [->|[[id ->]|[id [u ->]]]];
        [done | by apply exec_within_capacity
        | by apply exec_within_capacity, exec_within_capacity].
    - by apply (exec_within_capacity _ OpClear).
    - by apply (exec_within_capacity _ (OpPurgeStale now)). }
  apply (Hinv (Api.init table)). split; [done |].
  unfold JsMap.size, CACHE_MAX_SIZE. simpl. lia.
Qed.

(** X25. The reported counters count the lookups: as long as the cache
    is not cleared, the hits and misses that [GET /cache-status] reports
    add up to the number of [GET /users/:id] requests with a valid id
    received so far; requests with an invalid id, [POST /users], the fetch
    results and the purge timer count nothing. *)
Theorem reported_counters_count_the_lookups
    (table : gmap Z Api.User) (evs : list Api.event) :
  Forall (fun e => e <> Api.DeleteCache) evs ->
  let status := Api.cacheStatus (Api.run (Api.init table) evs) in
  (Api.status_hits status + Api.status_misses status)%nat
  = Api.valid_gets evs.
Proof.
  intros Hall status. unfold status, Api.cacheStatus. simpl.
  assert (Hgen : forall a,
            (_hits (userCache (Api.server (Api.run a evs)))
             + _misses (userCache (Api.server (Api.run a evs)))
             = _hits (userCache (Api.server a))
               + _misses (userCache (Api.server a))
               + Api.valid_gets evs)%nat).
  { unfold Api.run. induction evs as [|e evs IH]; intros a.
    - unfold Api.valid_gets. simpl. lia.
    - apply Forall_cons in Hall as [He Hall]. simpl fold_left.
      rewrite (IH Hall).
      assert (Hstep :
        (_hits (userCache (Api.server (Api.step a e)))
         + _misses (userCache (Api.server (Api.step a e)))
         = _hits (userCache (Api.server a))
           + _misses (userCache (Api.server a))
           + Api.valid_gets [e])%nat).
      { destruct e as [req id now|now|body now| |now]; unfold Api.valid_gets;
          simpl.
        - destruct (arrive_cache_steps (Api.server a) req id now)
            as [[Hid ->]|[Hid ->]].
          + replace (0 <? id) with true by (symmetry; by apply Z.ltb_lt).
            destruct (exec_counters (userCache (Api.server a)) (OpGet id now))
              as [-> ->].
            destruct (Cache.get (userCache (Api.server a)) id now).1;
              simpl; lia.
          + replace (0 <? id) with false by (symmetry; apply Z.ltb_ge; lia).
            simpl. lia.
        - pose proof (timer_invariant
            (fun c => (_hits c + _misses c
                       = _hits (userCache (Api.server a))
                         + _misses (userCache (Api.server a)))%nat)
            (Api.lookupUser (Api.mockUsers a)) now (Api.server a)) as Ht.
          simpl in Ht. rewrite Ht; [lia | | done].
          intros c o Ho Hc. destruct (exec_counters c o) as [-> ->].
          by destruct o.
        - destruct (postUsers_cache_steps a body now)
            as [->|[[id ->]|[id [u ->]]]]; [lia | |].
          + destruct (exec_counters (userCache (Api.server a)) (OpHas id now))
              as [-> ->]. lia.
          + destruct (exec_counters
                        (Trace.exec (userCache (Api.server a)) (OpHas id now))
                        (OpSet id u now)) as [-> ->].
            destruct (exec_counters (userCache (Api.server a)) (OpHas id now))
              as [-> ->]. lia.
        - done.
        - simpl. lia. }
      rewrite Hstep. unfold Api.valid_gets. simpl.
      destruct (match e with Api.GetUser _ id _ => 0 <? id | _ => false end);
        simpl; lia. }
  rewrite Hgen. simpl. lia.
Qed.
End ApiCache.

Lemma reported_counters_count_the_lookups_witness :
  Forall (fun e => e <> Api.DeleteCache)
    [Api.GetUser 0 1 100; Api.GetUser 1 0 110; Api.QueueTimer 300;
     Api.GetUser 2 1 400]
  /\ (Api.status_hits
        (Api.cacheStatus
           (Api.run (Api.init readme_table)
              [Api.GetUser 0 1 100; Api.GetUser 1 0 110; Api.QueueTimer 300;
               Api.GetUser 2 1 400]))
      + Api.status_misses
          (Api.cacheStatus
             (Api.run (Api.init readme_table)
                [Api.GetUser 0 1 100; Api.GetUser 1 0 110; Api.QueueTimer 300;
                 Api.GetUser 2 1 400])))%nat
     = 2%nat.
Proof.
  assert (Hall : Forall (fun e => e <> Api.DeleteCache)
                   [Api.GetUser 0 1 100; Api.GetUser 1 0 110;
                    Api.QueueTimer 300; Api.GetUser 2 1 400]).
  { repeat (constructor; [discriminate |]). constructor. }
  split; [exact Hall |].
  exact (reported_counters_count_the_lookups readme_table _ Hall).
Defined.

Example post_during_fetch_keeps_posted_entry :
  let a := Api.run post_during_fetch [Api.QueueTimer 300; Api.GetUser 1 4 400] in
  List.map r_answer (responses (Api.server a))
  = [FromDatabase new_user; FromCache new_user]
  /\ map (userCache (Api.server a))
     = [(4, {| value := new_user; expiresAt := 60150 |})]
  /\ enqueued (dbQueue (Api.server a)) = [{| userId := 4; promise := 0 |}].
Proof. by vm_compute. Qed.
